(** * HGCL: hypergraph / graph contrastive learning with a diffusion auxiliary task

  A shallow embedding of [src/hgcl.py] and the verification of its
  specification:

  - [Py]       the Python/Torch run-time errors the script can raise, as an
               error monad;
  - [Knn]      [build_knn_hypergraph], over exact rational similarity scores;
  - [Training] the best-state tracking and early-stopping loop of the script,
               for the runs in which every call of [evaluate] returns;
  - [TrainingRaises] the same loop when a call of [evaluate] raises;
  - [Loss]     [contrastive_loss] and [F.mse_loss], over the real numbers;
  - [Model]    [HGCLEncoder], [DiffusionDenoiser] and [H_GCL.forward], with the
               learned layers and the random draws as parameters;
  - [Float32]  the combination of the two losses (line 184) and [F.mse_loss]
               in float32, with [inf] and [nan];
  - [Script]   the forward pass as the training loop calls it;
  - [Data]     the assembly of the data set in [load_local_cora]: row order,
               edge list and split masks;
  - [Probe]    [evaluate], with the classifier as a parameter, for the calls
               that return;
  - [ProbeRaises] [evaluate] with the exceptions of its calls;
  - [ScriptProbe] the training loop run with [evaluate] and the split masks.

  Learned layers ([GCNConv], [HypergraphConv], [nn.Linear], [nn.LayerNorm]),
  the linear probe ([evaluate]) and the random number generators are library
  code: they enter the development as section variables, so every statement
  holds for all of their possible behaviours. *)

From Stdlib Require Import List Arith ZArith QArith Bool Lia.
From Stdlib Require Import Reals Lra.
From Stdlib Require Import Sorted.
From Stdlib Require Import SpecFloat.
Import ListNotations.

#[local] Close Scope Q_scope.
#[local] Close Scope R_scope.
#[local] Open Scope nat_scope.

(* ===================================================================== *)
(** ** Configuration constants (hgcl.py, lines 15-29) *)
(* ===================================================================== *)

Module Config.
Definition NUM_EPOCHS : nat := 500.
Definition T_DIFFUSION : nat := 20.
Definition KNN_K : nat := 15.
Definition PATIENCE : nat := 30.
Definition BATCH_SIZE_KNN : nat := 512.
Definition TEMPERATURE : R := (7 / 10)%R.
Definition MASK_RATIO : R := (3 / 10)%R.
Definition EDGE_DROP_RATIO : R := (2 / 10)%R.
Definition BETA_START : R := (1 / 10000)%R.
Definition BETA_END : R := (2 / 100)%R.
Definition GAMMA : R := (8 / 10)%R.
End Config.

(* ===================================================================== *)
(** ** Python and Torch exceptions as an error monad *)
(* ===================================================================== *)

Module Py.

(** The exceptions that the modelled code paths can raise. *)
Inductive exn : Type :=
| ValueError_range_step_zero      (* range() arg 3 must not be zero *)
| RuntimeError_topk_out_of_range  (* torch.topk: selected index k out of range *)
| RuntimeError_cat_empty          (* torch.cat(): expected a non-empty list *)
| IndexError_out_of_range         (* indices[i] beyond the first dimension *)
| IndexError_not_integer          (* arrays used as indices must be of integer type *)
| IndexError_boolean_mismatch     (* boolean index did not match the indexed array *)
| ValueError_sklearn              (* scikit-learn: data with one class, or no sample *)
| NameError_unbound.              (* a loop variable read before any iteration *)

Definition result (A : Type) : Type := sum exn A.

Definition ok {A} (a : A) : result A := inr a.
Definition raise {A} (e : exn) : result A := inl e.

Definition bind {A B} (c : result A) (f : A -> result B) : result B :=
  match c with
  | inl e => inl e
  | inr a => f a
  end.

(** A [for] loop that collects one result per element, stopping at the
    first exception. *)
Fixpoint mapM {A B} (f : A -> result B) (l : list A) : result (list B) :=
  match l with
  | [] => ok []
  | a :: l' =>
      bind (f a) (fun b => bind (mapM f l') (fun bs => ok (b :: bs)))
  end.

End Py.

Declare Scope py_scope.
Delimit Scope py_scope with py.
Notation "x <- c ;; k" := (Py.bind c (fun x => k))
(at level 61, c at next level, right associativity) : py_scope.

(* ===================================================================== *)
(** ** Similarity hypergraph builder (hgcl.py, lines 37-65) *)
(* ===================================================================== *)

Module Knn.
Import Py.
Local Open Scope py_scope.

(** [range(0, stop, step)]: the multiples of [step] below [stop]; Python
    raises [ValueError] on a zero step. *)
Definition range_count (stop step : nat) : nat := (stop + step - 1) / step.

Definition py_range_step (stop step : nat) : result (list nat) :=
  match step with
  | O => raise ValueError_range_step_zero
  | _ => ok (map (fun j => j * step) (seq 0 (range_count stop step)))
  end.

(** [x[i:j]] on the first dimension. *)
Definition slice {A} (x : list A) (i j : nat) : list A :=
  firstn (j - i) (skipn i x).

(** The result of [torch.topk] on one row: [values] and [indices]. *)
Record topk_result : Type := mk_topk { values : list Q; indices : list nat }.

(** [torch.cat(tensors, dim=0)]. *)
Definition torch_cat {A} (tensors : list (list A)) : result (list A) :=
  match tensors with
  | [] => raise RuntimeError_cat_empty
  | _ => ok (concat tensors)
  end.

(** [indices[i]]. *)
Definition index {A} (l : list A) (i : nat) : result A :=
  match nth_error l i with
  | Some a => ok a
  | None => raise IndexError_out_of_range
  end.

(** The second loop, lines 57-63: [node_list] and [hedge_list] grow by one
    entry per neighbour. *)
Fixpoint emit_neighbors (i : nat) (neighbors : list nat)
  (acc : list nat * list nat) : list nat * list nat :=
  match neighbors with
  | [] => acc
  | j :: rest => emit_neighbors i rest (fst acc ++ [i], snd acc ++ [j])
  end.

Fixpoint emit_nodes (indices : list (list nat)) (nodes : list nat)
  (acc : list nat * list nat) : result (list nat * list nat) :=
  match nodes with
  | [] => ok acc
  | i :: rest =>
      neighbors <- index indices i ;;
      emit_nodes indices rest (emit_neighbors i neighbors acc)
  end.

(** The incidence pairs are the columns of the returned tensor. *)
Definition incidence_pairs (t : list nat * list nat) : list (nat * nat) :=
  combine (fst t) (snd t).

Section Builder.
(** One row of the feature matrix; [F.cosine_similarity] between two rows;
    [torch.topk] along a row. All three are Torch's: the builder is written
    over them. *)
Variable row : Type.
Variable cosine_similarity : row -> row -> Q.
Variable topk : list Q -> nat -> result topk_result.

(** [F.cosine_similarity(batch.unsqueeze(1), x.unsqueeze(0), dim=-1)] *)
Definition sim_matrix (batch x : list row) : list (list Q) :=
  map (fun b => map (fun r => cosine_similarity b r) x) batch.

(** The body of the first loop for one batch: lines 43-52. *)
Definition knn_batch (x : list row) (k : nat) (batch : list row)
  : result (list (list nat)) :=
  let sim_batch := sim_matrix batch x in
  tk <- mapM (fun r => topk r (k + 1)) sim_batch ;;
  ok (map (fun t => skipn 1 (indices t)) tk).

(** [build_knn_hypergraph(x, k)], with the batch size [B] (the global
    [BATCH_SIZE_KNN]) as an argument. The result is the 2-row tensor
    [[node_list, hedge_list]]. *)
Definition build_knn_hypergraph (B : nat) (x : list row) (k : nat)
  : result (list nat * list nat) :=
  let num_nodes := length x in
  starts <- py_range_step num_nodes B ;;
  batches <- mapM (fun i => knn_batch x k (slice x i (i + B))) starts ;;
  indices <- torch_cat batches ;;
  emit_nodes indices (seq 0 num_nodes) ([], []).

(** What the builder computes for one node, without batches: the top [k+1]
    columns of its similarity row, the first one dropped. *)
Definition knn_row (x : list row) (k : nat) (b : row) : result (list nat) :=
  t <- topk (map (fun r => cosine_similarity b r) x) (k + 1) ;;
  ok (skipn 1 (indices t)).

(** The batch-free reference: one [knn_row] per node, the same emission
    loop, and the error of [torch.cat] on an empty matrix. *)
Definition knn_reference (x : list row) (k : nat)
  : result (list nat * list nat) :=
  match x with
  | [] => raise RuntimeError_cat_empty
  | _ =>
      indices <- mapM (knn_row x k) x ;;
      emit_nodes indices (seq 0 (length x)) ([], [])
  end.

End Builder.

(** *** An executable [torch.topk]

    Torch leaves the order of equal scores open. This instance sorts by
    decreasing score and, among equal scores, by increasing column. *)

(** [enumerate]: every score with its column index. *)
Fixpoint enumerate_from {A} (i : nat) (l : list A) : list (nat * A) :=
  match l with
  | [] => []
  | a :: l' => (i, a) :: enumerate_from (S i) l'
  end.

(** An entry coming from a lower column is put in front of the entries of
    equal score already placed. *)
Fixpoint insert_desc (p : nat * Q) (l : list (nat * Q)) : list (nat * Q) :=
  match l with
  | [] => [p]
  | q :: l' =>
      if Qle_bool (snd q) (snd p) then p :: q :: l'
      else q :: insert_desc p l'
  end.

Definition sort_desc (l : list (nat * Q)) : list (nat * Q) :=
  fold_right insert_desc [] l.

(** [torch.topk(row, k)]: the [k] largest entries in decreasing order;
    a [RuntimeError] when the row has fewer than [k] entries. *)
Definition topk_stable (row : list Q) (k : nat) : result topk_result :=
  if k <=? length row then
    let best := firstn k (sort_desc (enumerate_from 0 row)) in
    ok (mk_topk (map snd best) (map fst best))
  else raise RuntimeError_topk_out_of_range.

(** The two facts about [torch.topk] that the builder relies on: it returns
    exactly [k] indices when the row has at least [k] entries, and raises
    otherwise. *)
Record topk_contract (topk : list Q -> nat -> result topk_result) : Prop :=
  { topk_enough : forall r k, k <= length r ->
      exists t, topk r k = ok t /\ length (indices t) = k;
    topk_too_few : forall r k, length r < k ->
      topk r k = raise RuntimeError_topk_out_of_range }.

(** *** An exact similarity for running the builder

    Rows of integers; the score is the signed square of the cosine,
    [sgn(a.b) * (a.b)^2 / (|a|^2 |b|^2)], which is rational and orders pairs
    exactly as the cosine does. A zero row scores 0 against every row, as
    with Torch's [eps] clamp. *)
Definition dotZ (a b : list Z) : Z :=
  fold_right Z.add 0%Z (map (fun p => (fst p * snd p)%Z) (combine a b)).

Definition exact_cosine (a b : list Z) : Q :=
  let d := dotZ a b in
  (inject_Z (Z.sgn d * d * d) / inject_Z (dotZ a a * dotZ b b))%Q.

(** The builder on integer rows, with the instances above. *)
Definition build_exact (B : nat) (x : list (list Z)) (k : nat)
  : result (list nat * list nat) :=
  build_knn_hypergraph (list Z) exact_cosine topk_stable B x k.

(* --------------------------------------------------------------------- *)
(** *** Facts about the error monad and about slicing *)

Section MapMFacts.
Context {A B : Type}.
Implicit Types (f g : A -> result B) (l : list A).

Lemma mapM_ext f g l :
  (forall a, In a l -> f a = g a) -> mapM f l = mapM g l.
Proof.
  induction l as [|a l IH]; intros H; simpl; [reflexivity|].
  rewrite (H a (or_introl eq_refl)), IH; [reflexivity|].
  intros b Hb. apply H. now right.
Qed.

Lemma mapM_app f l1 l2 :
  mapM f (l1 ++ l2) =
  (b1 <- mapM f l1 ;; b2 <- mapM f l2 ;; ok (b1 ++ b2)).
Proof.
  induction l1 as [|a l1 IH]; simpl.
  - destruct (mapM f l2); reflexivity.
  - destruct (f a) as [e|b]; simpl; [reflexivity|].
    rewrite IH. destruct (mapM f l1) as [e|b1]; simpl; [reflexivity|].
    destruct (mapM f l2); reflexivity.
Qed.

Lemma mapM_concat f (ls : list (list A)) :
  mapM f (concat ls) = (bs <- mapM (mapM f) ls ;; ok (concat bs)).
Proof.
  induction ls as [|l ls IH]; simpl; [reflexivity|].
  rewrite mapM_app, IH.
  destruct (mapM f l) as [e|b1]; simpl; [reflexivity|].
  destruct (mapM (mapM f) ls); reflexivity.
Qed.

Lemma mapM_map {C} (h : C -> A) f (l : list C) :
  mapM f (map h l) = mapM (fun c => f (h c)) l.
Proof.
  induction l as [|c l IH]; simpl; [reflexivity|]. now rewrite IH.
Qed.

Lemma mapM_then_map {C} f (g : B -> C) l :
  (bs <- mapM f l ;; ok (map g bs)) =
  mapM (fun a => b <- f a ;; ok (g b)) l.
Proof.
  induction l as [|a l IH]; simpl; [reflexivity|].
  destruct (f a) as [e|b]; simpl; [reflexivity|].
  rewrite <- IH. destruct (mapM f l); reflexivity.
Qed.

Lemma mapM_length f l bs : mapM f l = ok bs -> length bs = length l.
Proof.
  revert bs. induction l as [|a l IH]; simpl; intros bs H.
  - injection H as <-. reflexivity.
  - destruct (f a) as [e|b]; simpl in H; [discriminate|].
    destruct (mapM f l) as [e|bs']; simpl in H; [discriminate|].
    injection H as <-. simpl. now rewrite (IH bs').
Qed.

Lemma mapM_nth_error f l bs i a :
  mapM f l = ok bs -> nth_error l i = Some a ->
  exists b, nth_error bs i = Some b /\ f a = ok b.
Proof.
  revert bs i. induction l as [|a' l IH]; simpl; intros bs i H Hi.
  - destruct i; discriminate.
  - destruct (f a') as [e|b] eqn:Efa; simpl in H; [discriminate|].
    destruct (mapM f l) as [e|bs'] eqn:El; simpl in H; [discriminate|].
    injection H as <-. destruct i as [|i]; simpl in *.
    + injection Hi as <-. now exists b.
    + now apply IH.
Qed.

Lemma mapM_all_ok f l :
  (forall a, In a l -> exists b, f a = ok b) -> exists bs, mapM f l = ok bs.
Proof.
  induction l as [|a l IH]; intros H; simpl.
  - now exists [].
  - destruct (H a (or_introl eq_refl)) as [b ->].
    destruct IH as [bs ->]; [intros; apply H; now right|].
    now exists (b :: bs).
Qed.

End MapMFacts.

Lemma slice_step {A} (x : list A) (i B : nat) :
  slice x i (i + B) = firstn B (skipn i x).
Proof. unfold slice. now replace (i + B - i) with B by lia. Qed.

(** The batches of the first loop, laid end to end, are the matrix. *)
Lemma batches_cover {A} (B n : nat) (x : list A) :
  length x <= n * B ->
  concat (map (fun j => slice x (j * B) (j * B + B)) (seq 0 n)) = x.
Proof.
  revert x. induction n as [|n IH]; intros x Hlen.
  - destruct x; simpl in *; [reflexivity | lia].
  - cbn [seq map concat]. rewrite <- seq_shift, map_map.
    rewrite slice_step. cbn [Nat.mul skipn].
    transitivity (firstn B x ++ skipn B x); [|apply firstn_skipn].
    f_equal. rewrite <- (IH (skipn B x)).
    + f_equal. apply map_ext. intros j. rewrite !slice_step.
      rewrite skipn_skipn. do 2 f_equal. lia.
    + rewrite length_skipn. simpl in Hlen. lia.
Qed.

Lemma range_count_covers (N B : nat) : 0 < B -> N <= range_count N B * B.
Proof.
  intros HB. unfold range_count.
  pose proof (Nat.div_mod_eq (N + B - 1) B) as E.
  pose proof (Nat.mod_upper_bound (N + B - 1) B) as U.
  nia.
Qed.

Lemma range_count_zero (N B : nat) : 0 < B -> (range_count N B = 0 <-> N = 0).
Proof.
  intros HB. split; intros H.
  - pose proof (range_count_covers N B HB). rewrite H in *. lia.
  - subst. unfold range_count. apply Nat.div_small. lia.
Qed.

(* --------------------------------------------------------------------- *)
(** *** The emission loop *)

Lemma emit_neighbors_spec (i : nat) (ns : list nat) (acc : list nat * list nat) :
  emit_neighbors i ns acc = (fst acc ++ repeat i (length ns), snd acc ++ ns).
Proof.
  revert acc. induction ns as [|j ns IH]; intros [nl hl]; simpl.
  - now rewrite !app_nil_r.
  - rewrite IH. simpl. now rewrite <- !app_assoc.
Qed.

Lemma emit_nodes_spec (idx : list (list nat)) (nodes : list nat)
  (acc : list nat * list nat) :
  (forall i, In i nodes -> i < length idx) ->
  emit_nodes idx nodes acc =
  ok (fst acc ++ flat_map (fun i => repeat i (length (nth i idx []))) nodes,
      snd acc ++ flat_map (fun i => nth i idx []) nodes).
Proof.
  revert acc. induction nodes as [|i nodes IH]; intros [nl hl] Hin; simpl.
  - now rewrite !app_nil_r.
  - unfold index. rewrite (nth_error_nth' idx []) by (apply Hin; now left).
    simpl. rewrite IH by (intros; apply Hin; now right).
    rewrite emit_neighbors_spec. simpl. now rewrite <- !app_assoc.
Qed.

Lemma combine_emitted (idx : list (list nat)) (nodes : list nat) :
  combine (flat_map (fun i => repeat i (length (nth i idx []))) nodes)
          (flat_map (fun i => nth i idx []) nodes) =
  flat_map (fun i => map (pair i) (nth i idx [])) nodes.
Proof.
  induction nodes as [|i nodes IH]; simpl; [reflexivity|].
  rewrite <- IH. generalize (nth i idx []) as ns.
  induction ns as [|j ns IHns]; simpl; [reflexivity|]. now rewrite IHns.
Qed.

Lemma flat_map_length_const {A B} (f : A -> list B) (l : list A) (k : nat) :
  (forall a, In a l -> length (f a) = k) ->
  length (flat_map f l) = length l * k.
Proof.
  induction l as [|a l IH]; intros H; simpl; [reflexivity|].
  rewrite length_app, (H a) by now left.
  rewrite IH by (intros; apply H; now right). reflexivity.
Qed.

(* --------------------------------------------------------------------- *)
(** *** The builder, for every similarity and every [topk] *)

Section BuilderFacts.
Variable row : Type.
Variable cosine_similarity : row -> row -> Q.
Variable topk : list Q -> nat -> result topk_result.

Local Abbreviation build := (build_knn_hypergraph row cosine_similarity topk).
Local Abbreviation reference := (knn_reference row cosine_similarity topk).
Local Abbreviation krow := (knn_row row cosine_similarity topk).

Lemma knn_batch_rows (x : list row) (k : nat) (batch : list row) :
  knn_batch row cosine_similarity topk x k batch = mapM (krow x k) batch.
Proof.
  unfold knn_batch, sim_matrix. rewrite mapM_map, mapM_then_map. reflexivity.
Qed.

(** Batching is invisible: for a positive batch size the builder is the
    batch-free reference, errors included. *)
Lemma build_batch_free (B : nat) (x : list row) (k : nat) :
  0 < B -> build B x k = reference x k.
Proof.
  intros HB. unfold build_knn_hypergraph, py_range_step.
  destruct B as [|b]; [lia|]. set (B := S b) in *.
  cbn [bind raise ok]. rewrite mapM_map.
  rewrite (mapM_ext _ (fun j => mapM (krow x k) (slice x (j * B) (j * B + B))))
    by (intros; apply knn_batch_rows).
  rewrite <- (mapM_map (fun j => slice x (j * B) (j * B + B)) (mapM (krow x k))).
  pose proof (batches_cover B _ x (range_count_covers (length x) B HB)) as Hcover.
  set (chunks := map _ (seq 0 (range_count (length x) B))) in *.
  destruct x as [|r x'].
  - assert (chunks = []) as ->.
    { unfold chunks. cbn [length].
      now rewrite (proj2 (range_count_zero 0 B HB) eq_refl). }
    reflexivity.
  - unfold knn_reference.
    assert (Hm : mapM (krow (r :: x') k) (r :: x') =
                 (bs <- mapM (mapM (krow (r :: x') k)) chunks ;; ok (concat bs))).
    { rewrite <- mapM_concat. now rewrite Hcover. }
    rewrite Hm.
    destruct (mapM (mapM (krow (r :: x') k)) chunks) as [e|batches] eqn:E;
      [reflexivity|].
    cbn [bind ok]. destruct batches as [|b0 batches]; [|reflexivity].
    apply mapM_length in E. destruct chunks; [discriminate Hcover|discriminate E].
Qed.

(** A successful run of the reference, in closed form. *)
Lemma reference_ok (x : list row) (k : nat) (nbrs : list (list nat)) :
  x <> [] -> mapM (krow x k) x = ok nbrs ->
  reference x k =
  ok (flat_map (fun i => repeat i (length (nth i nbrs []))) (seq 0 (length x)),
      flat_map (fun i => nth i nbrs []) (seq 0 (length x))).
Proof.
  intros Hx E. unfold knn_reference. destruct x as [|r x']; [congruence|].
  rewrite E. cbn [bind ok]. rewrite emit_nodes_spec; [reflexivity|].
  intros i Hi. apply in_seq in Hi. rewrite (mapM_length _ _ _ E). lia.
Qed.

Lemma reference_ok_inv (x : list row) (k : nat) (t : list nat * list nat) :
  reference x k = ok t ->
  exists nbrs, x <> [] /\ mapM (krow x k) x = ok nbrs /\
    t = (flat_map (fun i => repeat i (length (nth i nbrs []))) (seq 0 (length x)),
         flat_map (fun i => nth i nbrs []) (seq 0 (length x))).
Proof.
  intros H. destruct x as [|r x'] eqn:Ex; [discriminate H|]. rewrite <- Ex in *.
  assert (Hx : x <> []) by (rewrite Ex; discriminate).
  destruct (mapM (krow x k) x) as [e|nbrs] eqn:E.
  - unfold knn_reference in H. rewrite Ex in H. rewrite <- Ex in H.
    rewrite E in H. discriminate H.
  - exists nbrs. rewrite (reference_ok x k nbrs Hx E) in H.
    injection H as <-. auto.
Qed.

(** Which pairs are returned: [(i, j)] exactly when [j] is in the list that
    [knn_row] computes for row [i]. *)
Lemma build_pairs (B : nat) (x : list row) (k : nat) (t : list nat * list nat) :
  0 < B -> build B x k = ok t ->
  forall i j, In (i, j) (incidence_pairs t) <->
    exists r ns, nth_error x i = Some r /\ krow x k r = ok ns /\ In j ns.
Proof.
  intros HB H i j. rewrite build_batch_free in H by assumption.
  apply reference_ok_inv in H as (nbrs & Hx & E & ->).
  unfold incidence_pairs. cbn [fst snd]. rewrite combine_emitted, in_flat_map.
  split.
  - intros (i' & Hi' & Hin). apply in_map_iff in Hin as (j' & [= <- <-] & Hj).
    apply in_seq in Hi'.
    destruct (nth_error x i') as [r|] eqn:Er;
      [|apply nth_error_None in Er; lia].
    destruct (mapM_nth_error _ _ _ _ _ E Er) as (ns & Hns & Hr).
    exists r, ns. repeat split; auto.
    now rewrite (nth_error_nth _ _ [] Hns) in Hj.
  - intros (r & ns & Er & Hr & Hj). exists i. split.
    + apply in_seq. pose proof (proj1 (nth_error_Some x i)) as L.
      rewrite Er in L. specialize (L ltac:(discriminate)). lia.
    + destruct (mapM_nth_error _ _ _ _ _ E Er) as (ns' & Hns & Hr').
      rewrite Hr in Hr'. injection Hr' as <-.
      rewrite (nth_error_nth _ _ [] Hns). now apply in_map.
Qed.

(** Two nodes with the same feature row receive the same neighbour list,
    whatever [topk] does with equal scores: when the duplicate [j] is
    reported as a neighbour of [i], it is reported as its own neighbour
    too. *)
Lemma duplicate_rows_self_pair (B : nat) (x : list row) (k : nat)
  (t : list nat * list nat) (i j : nat) (r : row) :
  0 < B -> build B x k = ok t ->
  nth_error x i = Some r -> nth_error x j = Some r ->
  In (i, j) (incidence_pairs t) -> In (j, j) (incidence_pairs t).
Proof.
  intros HB H Hi Hj Hin.
  apply (build_pairs B x k t HB H) in Hin as (r' & ns & Hi' & Hr & Hjn).
  rewrite Hi in Hi'. injection Hi' as <-.
  apply (build_pairs B x k t HB H). now exists r, ns.
Qed.

Section WithContract.
Hypothesis topk_spec : topk_contract topk.

Lemma knn_row_ok (x : list row) (k : nat) (b : row) :
  k < length x -> exists ns, krow x k b = ok ns /\ length ns = k.
Proof.
  intros Hk. unfold knn_row.
  destruct (topk_enough topk topk_spec (map (fun r => cosine_similarity b r) x) (k + 1))
    as (t & -> & Hlen); [rewrite length_map; lia|].
  cbn [bind ok]. eexists; split; [reflexivity|]. rewrite length_skipn. lia.
Qed.

Lemma knn_row_error (x : list row) (k : nat) (b : row) :
  length x <= k -> krow x k b = raise RuntimeError_topk_out_of_range.
Proof.
  intros Hk. unfold knn_row.
  rewrite (topk_too_few topk topk_spec) by (rewrite length_map; lia).
  reflexivity.
Qed.

(** For [k < N] the builder succeeds and returns [N * k] pairs. *)
Lemma build_count (B : nat) (x : list row) (k : nat) :
  0 < B -> k < length x ->
  exists t, build B x k = ok t /\
    length (fst t) = length x * k /\ length (snd t) = length x * k /\
    length (incidence_pairs t) = length x * k.
Proof.
  intros HB Hk. rewrite build_batch_free by assumption.
  assert (Hx : x <> []) by (destruct x; simpl in Hk; [lia|discriminate]).
  destruct (mapM_all_ok (krow x k) x) as [nbrs E].
  { intros b _. destruct (knn_row_ok x k b Hk) as (ns & -> & _). now exists ns. }
  assert (Hrows : forall i, In i (seq 0 (length x)) -> length (nth i nbrs []) = k).
  { intros i Hi. apply in_seq in Hi.
    destruct (nth_error x i) as [r|] eqn:Er;
      [|apply nth_error_None in Er; lia].
    destruct (mapM_nth_error _ _ _ _ _ E Er) as (ns & Hns & Hr).
    rewrite (nth_error_nth _ _ [] Hns).
    destruct (knn_row_ok x k r Hk) as (ns' & Hr' & Hlen).
    rewrite Hr in Hr'. injection Hr' as ->. exact Hlen. }
  rewrite (reference_ok x k nbrs Hx E). eexists; split; [reflexivity|].
  unfold incidence_pairs. cbn [fst snd]. rewrite combine_emitted.
  rewrite !flat_map_length_const with (k := k), length_seq; auto.
  - intros i Hi. rewrite length_map. auto.
  - intros i Hi. rewrite repeat_length. auto.
Qed.

End WithContract.
End BuilderFacts.

(* --------------------------------------------------------------------- *)
(** *** The executable [topk] meets the contract *)

Lemma length_enumerate_from {A} (i : nat) (l : list A) :
  length (enumerate_from i l) = length l.
Proof. revert i. induction l; intros i; simpl; auto. Qed.

Lemma length_insert_desc (p : nat * Q) (l : list (nat * Q)) :
  length (insert_desc p l) = S (length l).
Proof.
  induction l as [|q l IH]; simpl; [reflexivity|].
  destruct (Qle_bool (snd q) (snd p)); simpl; auto.
Qed.

Lemma length_sort_desc (l : list (nat * Q)) : length (sort_desc l) = length l.
Proof.
  induction l as [|p l IH]; simpl; [reflexivity|].
  now rewrite length_insert_desc, IH.
Qed.

Lemma topk_stable_contract : topk_contract topk_stable.
Proof.
  split; intros r k Hk; unfold topk_stable.
  - apply Nat.leb_le in Hk as E. rewrite E. eexists; split; [reflexivity|].
    cbn [indices]. rewrite length_map, length_firstn, length_sort_desc,
      length_enumerate_from. lia.
  - apply Nat.leb_gt in Hk as E. now rewrite E.
Qed.

(* --------------------------------------------------------------------- *)
(** *** The claims about the builder *)

(** C1. On the feature matrix [[1,0],[1,0],[0,1]] with [k = 1] (and the
    script's batch size) the builder returns the three pairs (0,1), (1,1),
    (2,0): the count is [N * k], but node 1 is paired with itself. Rows 0
    and 1 are equal, so both score 1 against columns 0 and 1; dropping the
    first column of the top-2 removes column 0 for both, and keeps column 1
    for node 1. *)
Theorem build_knn_hypergraph_self_pair :
  build_exact Config.BATCH_SIZE_KNN [[1; 0]; [1; 0]; [0; 1]]%Z 1 =
    ok ([0; 1; 2], [1; 1; 0]) /\
  In (1, 1) (incidence_pairs ([0; 1; 2], [1; 1; 0])).
Proof.
  split; [vm_compute; reflexivity|]. cbn. auto.
Qed.

(** C5. For every similarity, every [topk], every feature matrix and every
    [k], any two positive batch sizes give the same result of
    [build_knn_hypergraph]: the same tensor, or the same error. *)
Theorem build_knn_hypergraph_batch_invariant
  (row : Type) (cosine_similarity : row -> row -> Q)
  (topk : list Q -> nat -> result topk_result)
  (B1 B2 : nat) (x : list row) (k : nat) :
  0 < B1 -> 0 < B2 ->
  build_knn_hypergraph row cosine_similarity topk B1 x k =
  build_knn_hypergraph row cosine_similarity topk B2 x k.
Proof.
  intros H1 H2. now rewrite !build_batch_free.
Qed.

Lemma build_knn_hypergraph_batch_invariant_witness :
  0 < 1 /\ 0 < 512 /\
  build_exact 1 [[1; 2]; [2; 1]; [0; 1]; [3; 3]; [-1; 0]]%Z 2 =
  build_exact 512 [[1; 2]; [2; 1]; [0; 1]; [3; 3]; [-1; 0]]%Z 2.
Proof.
  split; [lia|]. split; [lia|].
  apply (build_knn_hypergraph_batch_invariant (list Z) exact_cosine topk_stable
           1 512 [[1; 2]; [2; 1]; [0; 1]; [3; 3]; [-1; 0]]%Z 2); lia.
Defined.

(** C6. With [k >= N] the builder returns no tensor: it raises. For a
    non-empty matrix and a positive batch size the exception is the
    [RuntimeError] of [torch.topk] (index [k] out of range); an empty matrix
    fails in [torch.cat], a zero batch size in [range]. *)
Theorem build_knn_hypergraph_too_few_nodes
  (row : Type) (cosine_similarity : row -> row -> Q)
  (topk : list Q -> nat -> result topk_result)
  (B : nat) (x : list row) (k : nat) :
  topk_contract topk ->
  length x <= k ->
  exists e, build_knn_hypergraph row cosine_similarity topk B x k = raise e /\
    (0 < B -> x <> [] -> e = RuntimeError_topk_out_of_range).
Proof.
  intros Hspec Hk. destruct B as [|b].
  - exists ValueError_range_step_zero. split; [reflexivity|lia].
  - rewrite build_batch_free by lia. destruct x as [|r x'].
    + exists RuntimeError_cat_empty. split; [reflexivity|congruence].
    + exists RuntimeError_topk_out_of_range. split; [|reflexivity].
      unfold knn_reference. cbn [mapM].
      now rewrite (knn_row_error row cosine_similarity topk Hspec).
Qed.

Lemma build_knn_hypergraph_too_few_nodes_witness :
  exists e, build_exact 512 [[1; 0]; [1; 1]; [0; 1]]%Z 3 = raise e /\
    (0 < 512 -> [[1; 0]; [1; 1]; [0; 1]]%Z <> [] ->
     e = RuntimeError_topk_out_of_range).
Proof.
  apply (build_knn_hypergraph_too_few_nodes (list Z) exact_cosine topk_stable
           512 [[1; 0]; [1; 1]; [0; 1]]%Z 3 topk_stable_contract).
  simpl. lia.
Defined.

(* --------------------------------------------------------------------- *)
(** *** Further properties of the builder *)

(** [torch.topk] returns column indices of the row it is given. *)
Definition topk_in_range (topk : list Q -> nat -> result topk_result) : Prop :=
  forall r k t, topk r k = ok t -> Forall (fun j => j < length r) (indices t).

Lemma nth_grouped (k n s p : nat) :
  p < n * k -> nth p (flat_map (fun i => repeat i k) (seq s n)) 0 = s + p / k.
Proof.
  revert s p. induction n as [|n IH]; intros s p Hp; [lia|].
  assert (Hk : 0 < k) by (destruct k; lia).
  cbn [seq flat_map]. destruct (Nat.lt_ge_cases p k) as [Hlt|Hge].
  - rewrite app_nth1 by (rewrite repeat_length; exact Hlt).
    rewrite Nat.div_small by exact Hlt.
    rewrite nth_repeat_lt by exact Hlt. lia.
  - rewrite app_nth2 by (rewrite repeat_length; exact Hge).
    rewrite repeat_length, IH by (simpl in Hp; lia).
    replace p with ((p - k) + 1 * k) at 2 by lia.
    rewrite Nat.div_add by lia. lia.
Qed.

Lemma flat_map_eq_in {A B} (f g : A -> list B) (l : list A) :
  (forall a, In a l -> f a = g a) -> flat_map f l = flat_map g l.
Proof.
  induction l as [|a l IH]; intros H; cbn [flat_map]; [reflexivity|].
  rewrite (H a) by now left. rewrite IH; [reflexivity|].
  intros b Hb. apply H. now right.
Qed.

Section BuilderMore.
Variable row : Type.
Variable cosine_similarity : row -> row -> Q.
Variable topk : list Q -> nat -> result topk_result.

Local Abbreviation build := (build_knn_hypergraph row cosine_similarity topk).
Local Abbreviation krow := (knn_row row cosine_similarity topk).

(** For [k < N] and a positive batch size the builder returns a tensor with
    exactly [N * k] columns: both of its rows, and so the list of incidence
    pairs, have that length. *)
Theorem build_knn_hypergraph_pair_count (B : nat) (x : list row) (k : nat) :
  topk_contract topk -> 0 < B -> k < length x ->
  exists t, build B x k = ok t /\
    length (fst t) = length x * k /\ length (snd t) = length x * k /\
    length (incidence_pairs t) = length x * k.
Proof.
  intros Hspec HB Hk.
  exact (build_count row cosine_similarity topk Hspec B x k HB Hk).
Qed.

(** The [N * k] pairs come grouped by node, in increasing node order:
    the pair at position [p] belongs to node [p / k]. *)
Theorem build_knn_hypergraph_layout (B : nat) (x : list row) (k : nat) :
  topk_contract topk -> 0 < B -> k < length x ->
  exists t, build B x k = ok t /\
    fst t = flat_map (fun i => repeat i k) (seq 0 (length x)) /\
    length (snd t) = length x * k /\
    forall p, p < length x * k -> nth p (fst t) 0 = p / k.
Proof.
  intros Hspec HB Hk.
  destruct (build_count row cosine_similarity topk Hspec B x k HB Hk)
    as (t & Ht & _ & Hsnd & _).
  exists t. split; [exact Ht|].
  rewrite build_batch_free in Ht by exact HB.
  apply reference_ok_inv in Ht as (nbrs & Hx & E & ->). cbn [fst snd] in *.
  assert (Hfst : flat_map (fun i => repeat i (length (nth i nbrs [])))
                   (seq 0 (length x)) =
                 flat_map (fun i => repeat i k) (seq 0 (length x))).
  { apply flat_map_eq_in. intros i Hi. apply in_seq in Hi. f_equal.
    destruct (nth_error x i) as [r|] eqn:Er;
      [|apply nth_error_None in Er; lia].
    destruct (mapM_nth_error _ _ _ _ _ E Er) as (ns & Hns & Hr).
    rewrite (nth_error_nth _ _ [] Hns).
    destruct (knn_row_ok row cosine_similarity topk Hspec x k r Hk)
      as (ns' & Hr' & Hlen).
    rewrite Hr in Hr'. injection Hr' as ->. exact Hlen. }
  rewrite Hfst. split; [reflexivity|]. split; [exact Hsnd|].
  intros p Hp. now rewrite nth_grouped.
Qed.

(** Every returned pair names two nodes of the matrix. *)
Theorem build_knn_hypergraph_in_range (B : nat) (x : list row) (k : nat)
  (t : list nat * list nat) :
  topk_in_range topk -> 0 < B -> build B x k = ok t ->
  forall i j, In (i, j) (incidence_pairs t) -> i < length x /\ j < length x.
Proof.
  intros Hrange HB Ht i j Hin.
  apply (build_pairs row cosine_similarity topk B x k t HB Ht) in Hin
    as (r & ns & Hi & Hr & Hj).
  split.
  - apply nth_error_Some. congruence.
  - unfold knn_row in Hr.
    destruct (topk (map (fun r0 => cosine_similarity r r0) x) (k + 1))
      as [e|tk] eqn:Etk; [discriminate Hr|].
    cbn [bind ok] in Hr. injection Hr as <-.
    pose proof (Hrange _ _ _ Etk) as Hall. rewrite length_map in Hall.
    rewrite Forall_forall in Hall. apply Hall.
    rewrite <- (firstn_skipn 1 (indices tk)). apply in_or_app. now right.
Qed.

(** Dropping the first column does exclude the node itself whenever
    [topk] lists the node's own column first and lists no column twice:
    then no returned pair joins a node to itself. *)
Theorem build_knn_hypergraph_no_self_pair (B : nat) (x : list row) (k : nat)
  (t : list nat * list nat) :
  0 < B -> build B x k = ok t ->
  (forall i r tk, nth_error x i = Some r ->
     topk (map (fun c => cosine_similarity r c) x) (k + 1) = ok tk ->
     NoDup (indices tk) /\ hd_error (indices tk) = Some i) ->
  forall i, ~ In (i, i) (incidence_pairs t).
Proof.
  intros HB Ht Hself i Hin.
  apply (build_pairs row cosine_similarity topk B x k t HB Ht) in Hin
    as (r & ns & Hi & Hr & Hj).
  unfold knn_row in Hr.
  destruct (topk (map (fun r0 => cosine_similarity r r0) x) (k + 1))
    as [e|tk] eqn:Etk; [discriminate Hr|].
  cbn [bind ok] in Hr. injection Hr as <-.
  destruct (Hself i r tk Hi Etk) as [Hnd Hhd].
  destruct (indices tk) as [|j0 rest]; [discriminate Hhd|].
  injection Hhd as ->. cbn [skipn] in Hj.
  apply NoDup_cons_iff in Hnd as [Hnot _]. contradiction.
Qed.

(** The builder returns a tensor exactly when the batch size is positive
    and [k < N]. *)
Theorem build_knn_hypergraph_succeeds_iff (B : nat) (x : list row) (k : nat) :
  topk_contract topk ->
  (exists t, build B x k = ok t) <-> 0 < B /\ k < length x.
Proof.
  intros Hspec. split.
  - intros [t Ht]. destruct B as [|b]; [discriminate Ht|]. split; [lia|].
    destruct (Nat.lt_ge_cases k (length x)) as [Hlt|Hge]; [exact Hlt|].
    rewrite build_batch_free in Ht by lia.
    destruct x as [|r x']; [discriminate Ht|].
    unfold knn_reference in Ht. cbn [mapM] in Ht.
    rewrite (knn_row_error row cosine_similarity topk Hspec) in Ht by exact Hge.
    discriminate Ht.
  - intros [HB Hk].
    destruct (build_count row cosine_similarity topk Hspec B x k HB Hk)
      as (t & Ht & _).
    now exists t.
Qed.

End BuilderMore.

(** The executable [topk] returns distinct columns of its row. *)
Lemma fst_insert_desc_perm (p : nat * Q) (l : list (nat * Q)) (j : nat) :
  In j (map fst (insert_desc p l)) <-> j = fst p \/ In j (map fst l).
Proof.
  induction l as [|q l IH]; cbn [insert_desc map In].
  - intuition.
  - destruct (Qle_bool (snd q) (snd p)); cbn [map In]; [intuition|].
    rewrite IH. intuition.
Qed.

Lemma fst_enumerate_from {A} (i : nat) (l : list A) :
  map fst (enumerate_from i l) = seq i (length l).
Proof.
  revert i. induction l as [|a l IH]; intros i; cbn; [reflexivity|].
  now rewrite IH.
Qed.

Lemma fst_sort_desc_in (l : list (nat * Q)) (j : nat) :
  In j (map fst (sort_desc l)) <-> In j (map fst l).
Proof.
  induction l as [|p l IH]; cbn [sort_desc fold_right map In]; [reflexivity|].
  fold (sort_desc l). rewrite fst_insert_desc_perm, IH. intuition.
Qed.

Lemma topk_stable_in_range : topk_in_range topk_stable.
Proof.
  intros r k t H. unfold topk_stable in H.
  destruct (k <=? length r); [|discriminate H]. injection H as <-.
  cbn [indices]. apply Forall_forall. intros j Hj.
  apply in_map_iff in Hj as (p & <- & Hp).
  assert (Hin : In (fst p) (map fst (sort_desc (enumerate_from 0 r)))).
  { apply in_map. rewrite <- (firstn_skipn k (sort_desc _)).
    apply in_or_app. now left. }
  apply (proj1 (fst_sort_desc_in _ _)) in Hin.
  rewrite fst_enumerate_from in Hin. apply in_seq in Hin. lia.
Qed.

Lemma build_knn_hypergraph_pair_count_witness :
  exists t, build_exact 512 [[1; 2]; [2; 1]; [0; 1]; [3; 3]; [-1; 0]]%Z 2 = ok t /\
    length (fst t) = 5 * 2 /\ length (snd t) = 5 * 2 /\
    length (incidence_pairs t) = 5 * 2.
Proof.
  apply (build_knn_hypergraph_pair_count (list Z) exact_cosine topk_stable
           512 [[1; 2]; [2; 1]; [0; 1]; [3; 3]; [-1; 0]]%Z 2
           topk_stable_contract); simpl; lia.
Defined.

Lemma build_knn_hypergraph_layout_witness :
  exists t, build_exact 2 [[1; 2]; [2; 1]; [0; 1]; [3; 3]; [-1; 0]]%Z 2 = ok t /\
    fst t = flat_map (fun i => repeat i 2) (seq 0 5) /\
    length (snd t) = 5 * 2 /\
    forall p, p < 5 * 2 -> nth p (fst t) 0 = p / 2.
Proof.
  apply (build_knn_hypergraph_layout (list Z) exact_cosine topk_stable
           2 [[1; 2]; [2; 1]; [0; 1]; [3; 3]; [-1; 0]]%Z 2
           topk_stable_contract); simpl; lia.
Defined.

Lemma build_knn_hypergraph_in_range_witness :
  build_exact 512 [[2; 0]; [1; 1]; [0; 3]]%Z 2 =
    ok ([0; 0; 1; 1; 2; 2], [1; 2; 0; 2; 1; 0]) /\
  forall i j,
    In (i, j) (incidence_pairs ([0; 0; 1; 1; 2; 2], [1; 2; 0; 2; 1; 0])) ->
    i < 3 /\ j < 3.
Proof.
  split; [vm_compute; reflexivity|].
  apply (build_knn_hypergraph_in_range (list Z) exact_cosine topk_stable
           512 [[2; 0]; [1; 1]; [0; 3]]%Z 2 _ topk_stable_in_range).
  - lia.
  - vm_compute. reflexivity.
Defined.

Lemma build_knn_hypergraph_no_self_pair_witness :
  build_exact 512 [[2; 0]; [1; 1]; [0; 3]]%Z 2 =
    ok ([0; 0; 1; 1; 2; 2], [1; 2; 0; 2; 1; 0]) /\
  forall i,
    ~ In (i, i) (incidence_pairs ([0; 0; 1; 1; 2; 2], [1; 2; 0; 2; 1; 0])).
Proof.
  split; [vm_compute; reflexivity|].
  apply (build_knn_hypergraph_no_self_pair (list Z) exact_cosine topk_stable
           512 [[2; 0]; [1; 1]; [0; 3]]%Z 2).
  - lia.
  - vm_compute. reflexivity.
  - intros i r tk Hi Htk.
    destruct i as [|[|[|i]]]; cbn in Hi;
      try (destruct i; discriminate Hi);
      injection Hi as <-; vm_compute in Htk; injection Htk as <-;
      (split; [repeat constructor; cbn; intuition discriminate|reflexivity]).
Defined.

Lemma build_knn_hypergraph_succeeds_iff_witness :
  (exists t, build_exact 512 [[2; 0]; [1; 1]; [0; 3]]%Z 2 = ok t) <->
  0 < 512 /\ 2 < length [[2; 0]; [1; 1]; [0; 3]]%Z.
Proof.
  apply (build_knn_hypergraph_succeeds_iff (list Z) exact_cosine topk_stable
           512 [[2; 0]; [1; 1]; [0; 3]]%Z 2 topk_stable_contract).
Defined.

End Knn.

(* ===================================================================== *)
(** ** Training loop: best-state tracking and early stopping
       (hgcl.py, lines 261-321) *)
(* ===================================================================== *)

Module Training.
Import Py.

(** [loss.item()] is a Python float: a finite number, an infinity or NaN.
    Every comparison with NaN is false. *)
Inductive pyfloat : Type :=
| Finite (q : Q)
| PosInf
| NegInf
| NaN.

Definition Qlt_bool (a b : Q) : bool := negb (Qle_bool b a).

(** [a < b] on Python floats. *)
Definition float_lt (a b : pyfloat) : bool :=
  match a, b with
  | NaN, _ | _, NaN => false
  | Finite p, Finite q => Qlt_bool p q
  | Finite _, PosInf => true
  | NegInf, Finite _ => true
  | NegInf, PosInf => true
  | _, _ => false
  end.

(** The three split masks of the data set. *)
Inductive mask : Type := train_mask | val_mask | test_mask.

Section Loop.
(** An embedding matrix; the linear probe [evaluate(emb, data, mask)], whose
    result is an accuracy; and what one epoch of optimisation yields: the
    training loss [loss.item()] and the validation embedding [val_emb]. The
    tracked state never feeds back into the model, so the epochs' outcomes are
    a function of the epoch number. Every call of [evaluate] returns here;
    the runs in which a call raises are those of [TrainingRaises]. *)
Variable emb : Type.
Variable evaluate : emb -> mask -> Q.
Variable model_epoch : nat -> pyfloat * emb.

(** The variables of the script that the loop reads or writes. [epoch] and
    [val_emb] are loop variables: unbound ([0], [None]) until the first
    iteration. *)
Record state : Type := mk_state {
  best_val_acc : Q;
  best_emb : option emb;
  patience_counter : nat;
  test_acc : Q;
  best_loss : pyfloat;
  epoch : nat;
  val_emb : option emb
}.

(** Lines 262-266. *)
Definition initial_state : state :=
  {| best_val_acc := 0; best_emb := None; patience_counter := 0;
     test_acc := 0; best_loss := PosInf; epoch := 0; val_emb := None |}.

(** Lines 295-308: the [if] / [elif] / [else] that tracks the best model. *)
Definition track_best (s : state) (loss : pyfloat) (v : emb) : state :=
  let val_acc := evaluate v val_mask in
  if Qlt_bool (best_val_acc s) val_acc then
    {| best_val_acc := val_acc;
       best_emb := Some v;
       patience_counter := 0;
       test_acc := evaluate v test_mask;
       best_loss := loss;
       epoch := epoch s; val_emb := val_emb s |}
  else if Qeq_bool val_acc (best_val_acc s) && float_lt loss (best_loss s) then
    {| best_val_acc := best_val_acc s;
       best_emb := Some v;
       patience_counter := 0;
       test_acc := evaluate v test_mask;
       best_loss := loss;
       epoch := epoch s; val_emb := val_emb s |}
  else
    {| best_val_acc := best_val_acc s;
       best_emb := best_emb s;
       patience_counter := patience_counter s + 1;
       test_acc := test_acc s;
       best_loss := best_loss s;
       epoch := epoch s; val_emb := val_emb s |}.

(** One iteration, lines 269-308: the loop variables are bound, then the best
    model is tracked. The optimiser, the scheduler and the printing do not
    touch the tracked variables. *)
Definition epoch_body (e : nat) (s : state) : state :=
  let (loss, v) := model_epoch e in
  track_best
    {| best_val_acc := best_val_acc s; best_emb := best_emb s;
       patience_counter := patience_counter s; test_acc := test_acc s;
       best_loss := best_loss s; epoch := e; val_emb := Some v |}
    loss v.

(** The [for] loop with its [break] (lines 269-316). The boolean tells
    whether the loop was left through [break]. *)
Fixpoint train_loop (PATIENCE : nat) (epochs : list nat) (s : state)
  : state * bool :=
  match epochs with
  | [] => (s, false)
  | e :: rest =>
      let s' := epoch_body e s in
      if PATIENCE <=? patience_counter s' then (s', true)
      else train_loop PATIENCE rest s'
  end.

(** Lines 319-321: the fallback after the loop. [val_emb] is the loop
    variable, unbound if the loop body never ran. *)
Definition fallback (s : state) : result state :=
  match best_emb s with
  | Some _ => ok s
  | None =>
      match val_emb s with
      | Some v =>
          ok {| best_val_acc := best_val_acc s; best_emb := Some v;
                patience_counter := patience_counter s;
                test_acc := evaluate v test_mask;
                best_loss := best_loss s; epoch := epoch s;
                val_emb := val_emb s |}
      | None => raise NameError_unbound
      end
  end.

(** The whole run: [range(1, NUM_EPOCHS + 1)], then the fallback. *)
Definition train (NUM_EPOCHS PATIENCE : nat) : result state :=
  fallback (fst (train_loop PATIENCE (seq 1 NUM_EPOCHS) initial_state)).

(** Whether an epoch's outcome takes one of the two updating branches. *)
Definition improves (s : state) (loss : pyfloat) (v : emb) : bool :=
  Qlt_bool (best_val_acc s) (evaluate v val_mask)
  || (Qeq_bool (evaluate v val_mask) (best_val_acc s)
      && float_lt loss (best_loss s)).

(** The state after [n] complete iterations, with no [break] in between. *)
Fixpoint after (n : nat) : state :=
  match n with
  | O => initial_state
  | S m => epoch_body (S m) (after m)
  end.

(** Whether epoch [e], entered in state [s], takes an updating branch. *)
Definition epoch_improves (e : nat) (s : state) : bool :=
  improves s (fst (model_epoch e)) (snd (model_epoch e)).

End Loop.

Arguments best_val_acc {emb} s.
Arguments best_emb {emb} s.
Arguments patience_counter {emb} s.
Arguments test_acc {emb} s.
Arguments best_loss {emb} s.
Arguments epoch {emb} s.
Arguments val_emb {emb} s.

(* --------------------------------------------------------------------- *)
(** *** Comparisons *)

Lemma Qlt_bool_iff (a b : Q) : Qlt_bool a b = true <-> (a < b)%Q.
Proof.
  unfold Qlt_bool. rewrite negb_true_iff. split; intros H.
  - apply Qnot_le_lt. intros Hle. apply Qle_bool_iff in Hle. congruence.
  - destruct (Qle_bool b a) eqn:E; [|reflexivity].
    apply Qle_bool_iff in E. exfalso. exact (Qlt_not_le _ _ H E).
Qed.

Lemma float_lt_irrefl (a : pyfloat) : float_lt a a = false.
Proof.
  destruct a as [q| | |]; simpl; try reflexivity.
  destruct (Qlt_bool q q) eqn:E; [|reflexivity].
  apply Qlt_bool_iff in E. exfalso. exact (Qlt_irrefl _ E).
Qed.

(** Nothing is below [float('inf')] except finite numbers and [-inf]. *)
Lemma float_lt_inf (a : pyfloat) :
  float_lt a PosInf = true <-> (exists q, a = Finite q) \/ a = NegInf.
Proof.
  destruct a as [q| | |]; simpl; split; intros H;
    try discriminate; try reflexivity; eauto.
  - destruct H as [[q H]|H]; discriminate.
  - destruct H as [[q H]|H]; discriminate.
Qed.

(* --------------------------------------------------------------------- *)
(** *** One epoch *)

Section LoopFacts.
Variable emb : Type.
Variable evaluate : emb -> mask -> Q.
Variable model_epoch : nat -> pyfloat * emb.

Local Abbreviation body := (epoch_body emb evaluate model_epoch).
Local Abbreviation loop := (train_loop emb evaluate model_epoch).
Local Abbreviation state_after := (after emb evaluate model_epoch).
Local Abbreviation init := (initial_state emb).
Local Abbreviation better := (epoch_improves emb evaluate model_epoch).

Lemma improves_iff (s : state emb) (loss : pyfloat) (v : emb) :
  improves emb evaluate s loss v = true <->
  (best_val_acc s < evaluate v val_mask)%Q \/
  ((evaluate v val_mask == best_val_acc s)%Q /\
   float_lt loss (best_loss s) = true).
Proof.
  unfold improves.
  rewrite orb_true_iff, andb_true_iff, Qlt_bool_iff, Qeq_bool_iff.
  reflexivity.
Qed.

Lemma track_best_improves (s : state emb) (loss : pyfloat) (v : emb) :
  improves emb evaluate s loss v = true ->
  let s' := track_best emb evaluate s loss v in
  best_emb s' = Some v /\ patience_counter s' = 0 /\
  test_acc s' = evaluate v test_mask /\ best_loss s' = loss /\
  (best_val_acc s' == evaluate v val_mask)%Q.
Proof.
  unfold improves, track_best. intros H.
  destruct (Qlt_bool (best_val_acc s) (evaluate v val_mask)) eqn:E1; cbn.
  - repeat split; reflexivity.
  - cbn in H. rewrite H. cbn. repeat split; try reflexivity.
    apply andb_true_iff in H as [H _]. apply Qeq_bool_iff in H.
    now symmetry.
Qed.

Lemma track_best_stagnates (s : state emb) (loss : pyfloat) (v : emb) :
  improves emb evaluate s loss v = false ->
  let s' := track_best emb evaluate s loss v in
  patience_counter s' = S (patience_counter s) /\
  best_emb s' = best_emb s /\ best_val_acc s' = best_val_acc s /\
  test_acc s' = test_acc s /\ best_loss s' = best_loss s.
Proof.
  unfold improves, track_best. intros H.
  apply orb_false_iff in H as [H1 H2]. rewrite H1, H2. cbn.
  repeat split; try reflexivity. lia.
Qed.

Lemma track_best_loop_variables (s : state emb) (loss : pyfloat) (v : emb) :
  epoch (track_best emb evaluate s loss v) = epoch s /\
  val_emb (track_best emb evaluate s loss v) = val_emb s.
Proof.
  unfold track_best.
  destruct (Qlt_bool _ _); [|destruct (_ && _)]; split; reflexivity.
Qed.

Lemma epoch_body_loop_variables (e : nat) (s : state emb) :
  epoch (body e s) = e /\ val_emb (body e s) = Some (snd (model_epoch e)).
Proof.
  unfold epoch_body. destruct (model_epoch e) as [loss v].
  destruct (track_best_loop_variables
              (mk_state emb (best_val_acc s) (best_emb s) (patience_counter s)
                 (test_acc s) (best_loss s) e (Some v)) loss v) as [-> ->].
  split; reflexivity.
Qed.

Lemma epoch_body_improves (e : nat) (s : state emb) :
  better e s = true ->
  let v := snd (model_epoch e) in
  best_emb (body e s) = Some v /\ patience_counter (body e s) = 0 /\
  test_acc (body e s) = evaluate v test_mask /\
  best_loss (body e s) = fst (model_epoch e) /\
  (best_val_acc (body e s) == evaluate v val_mask)%Q.
Proof.
  unfold epoch_improves, epoch_body. destruct (model_epoch e) as [loss v].
  cbn [fst snd]. intros H. apply track_best_improves. exact H.
Qed.

Lemma epoch_body_stagnates (e : nat) (s : state emb) :
  better e s = false ->
  patience_counter (body e s) = S (patience_counter s) /\
  best_emb (body e s) = best_emb s /\ best_val_acc (body e s) = best_val_acc s /\
  test_acc (body e s) = test_acc s /\ best_loss (body e s) = best_loss s.
Proof.
  unfold epoch_improves, epoch_body. destruct (model_epoch e) as [loss v].
  cbn [fst snd]. intros H.
  apply (track_best_stagnates
           (mk_state emb (best_val_acc s) (best_emb s) (patience_counter s)
              (test_acc s) (best_loss s) e (Some v)) loss v H).
Qed.

Lemma counter_step (e : nat) (s : state emb) :
  patience_counter (body e s) <= S (patience_counter s).
Proof.
  destruct (better e s) eqn:E.
  - destruct (epoch_body_improves e s E) as (_ & -> & _). lia.
  - destruct (epoch_body_stagnates e s E) as (-> & _). lia.
Qed.

Lemma epoch_after (n : nat) : epoch (state_after n) = n.
Proof. destruct n; [reflexivity|]. apply epoch_body_loop_variables. Qed.

Lemma val_emb_after (n : nat) :
  val_emb (state_after (S n)) = Some (snd (model_epoch (S n))).
Proof. apply epoch_body_loop_variables. Qed.

(* --------------------------------------------------------------------- *)
(** *** The loop *)

(** Entered after [m] iterations with [n] epochs left, the loop leaves at
    some epoch [stop]: every epoch before it ended below the threshold; a
    [break] means the threshold was met at [stop]; no [break] means that all
    epochs were run. *)
Lemma train_loop_from (PATIENCE n m : nat) :
  exists stop,
    m <= stop <= m + n /\
    fst (loop PATIENCE (seq (S m) n) (state_after m)) = state_after stop /\
    (forall e, m < e < stop -> patience_counter (state_after e) < PATIENCE) /\
    (snd (loop PATIENCE (seq (S m) n) (state_after m)) = true ->
       m < stop /\ PATIENCE <= patience_counter (state_after stop)) /\
    (snd (loop PATIENCE (seq (S m) n) (state_after m)) = false ->
       stop = m + n /\
       (m < stop -> patience_counter (state_after stop) < PATIENCE)).
Proof.
  revert m. induction n as [|n IH]; intros m.
  - exists m. cbn. repeat split; intros; try lia; discriminate.
  - cbn [seq train_loop]. change (body (S m) (state_after m)) with (state_after (S m)).
    destruct (PATIENCE <=? patience_counter (state_after (S m))) eqn:E.
    + apply Nat.leb_le in E. exists (S m). cbn [fst snd].
      repeat split; intros; try lia; discriminate.
    + apply Nat.leb_gt in E.
      destruct (IH (S m)) as (stop & Hrange & Hfst & Hbefore & Hbreak & Hfull).
      exists stop. split; [lia|]. split; [exact Hfst|]. split; [|split].
      * intros e He. destruct (Nat.eq_dec e (S m)) as [->|Hne]; [exact E|].
        apply Hbefore. lia.
      * intros H. apply Hbreak in H. split; [lia|tauto].
      * intros H. destruct (Hfull H) as [Hs Hc]. split; [lia|].
        intros _. destruct (Nat.eq_dec stop (S m)) as [->|Hne]; [exact E|].
        apply Hc. lia.
Qed.

(** The best embedding, once set, is the validation embedding of some
    epoch that was run. *)
Lemma best_emb_after (n : nat) (v : emb) :
  best_emb (state_after n) = Some v ->
  exists e, 1 <= e <= n /\ v = snd (model_epoch e).
Proof.
  induction n as [|n IH]; intros H; [discriminate H|].
  cbn [after] in H. destruct (better (S n) (state_after n)) eqn:E.
  - destruct (epoch_body_improves (S n) _ E) as (Hb & _).
    rewrite Hb in H. injection H as <-. exists (S n). split; [lia|reflexivity].
  - destruct (epoch_body_stagnates (S n) _ E) as (_ & Hb & _).
    rewrite Hb in H. destruct (IH H) as (e & He & ->).
    exists e. split; [lia|reflexivity].
Qed.

(** What a completed run persists is the validation embedding of one of
    its epochs. *)
Lemma train_best_emb (NUM_EPOCHS PATIENCE : nat) (s : state emb) :
  train emb evaluate model_epoch NUM_EPOCHS PATIENCE = ok s ->
  exists e, 1 <= e <= NUM_EPOCHS /\ best_emb s = Some (snd (model_epoch e)).
Proof.
  unfold train, fallback.
  destruct (train_loop_from PATIENCE NUM_EPOCHS 0)
    as (stop & Hrange & Hfst & _).
  cbn [after] in Hfst. rewrite Hfst.
  destruct (best_emb (state_after stop)) as [v|] eqn:Eb.
  - intros [= <-]. destruct (best_emb_after stop v Eb) as (e & He & ->).
    exists e. rewrite Eb. split; [lia|reflexivity].
  - destruct stop as [|p]; [discriminate|].
    rewrite val_emb_after. intros [= <-]. exists (S p).
    split; [lia|reflexivity].
Qed.

End LoopFacts.

(* --------------------------------------------------------------------- *)
(** *** A run that never records a best state

    Training has diverged: every epoch reports the loss [inf], and the probe
    scores 0 on every embedding. The embedding of epoch [e] is the number
    [e], so that the epochs can be told apart. *)

Definition diverged_epoch (e : nat) : pyfloat * nat := (PosInf, e).
Definition zero_probe (v : nat) (m : mask) : Q := 0.

(** A run whose loss is 1 at every epoch. *)
Definition constant_loss_epoch (e : nat) : pyfloat * nat := (Finite 1, e).

(* --------------------------------------------------------------------- *)
(** *** The claims about the training loop *)

(** C2. (1) Per epoch: when the validation accuracy is strictly above the
    best so far, or equal to it with a training loss strictly below the best
    loss, the best embedding becomes this epoch's validation embedding, the
    stagnation counter becomes zero and the test accuracy is the probe's
    score of that embedding; in every other case the counter grows by one and
    the best state is untouched. (2) The loop leaves through [break] at the
    first epoch whose counter has reached [PATIENCE] (for a positive
    [PATIENCE] the counter then equals it), and runs all [NUM_EPOCHS] epochs
    when no epoch reaches it. (3) With [PATIENCE = 1], an update at epoch 1
    and none at epoch 2, the loop stops at epoch 2. *)
Theorem training_loop_policy
  (emb : Type) (evaluate : emb -> mask -> Q)
  (model_epoch : nat -> pyfloat * emb) :
  (forall (e : nat) (s : state emb),
     let loss := fst (model_epoch e) in
     let v := snd (model_epoch e) in
     let acc := evaluate v val_mask in
     let s' := epoch_body emb evaluate model_epoch e s in
     let update :=
       (best_val_acc s < acc)%Q \/
       ((acc == best_val_acc s)%Q /\ float_lt loss (best_loss s) = true) in
     (update ->
        best_emb s' = Some v /\ patience_counter s' = 0 /\
        test_acc s' = evaluate v test_mask /\ best_loss s' = loss /\
        (best_val_acc s' == acc)%Q) /\
     (~ update ->
        patience_counter s' = S (patience_counter s) /\
        best_emb s' = best_emb s /\ best_val_acc s' = best_val_acc s /\
        test_acc s' = test_acc s /\ best_loss s' = best_loss s)) /\
  (forall NUM_EPOCHS PATIENCE : nat,
     let r := train_loop emb evaluate model_epoch PATIENCE
                (seq 1 NUM_EPOCHS) (initial_state emb) in
     let last := epoch (fst r) in
     fst r = after emb evaluate model_epoch last /\
     last <= NUM_EPOCHS /\
     (forall e, 1 <= e < last ->
        patience_counter (after emb evaluate model_epoch e) < PATIENCE) /\
     (snd r = true ->
        1 <= last /\ PATIENCE <= patience_counter (fst r) /\
        (1 <= PATIENCE -> patience_counter (fst r) = PATIENCE)) /\
     (snd r = false ->
        last = NUM_EPOCHS /\
        (1 <= NUM_EPOCHS -> patience_counter (fst r) < PATIENCE))) /\
  (forall NUM_EPOCHS : nat,
     2 <= NUM_EPOCHS ->
     epoch_improves emb evaluate model_epoch 1 (initial_state emb) = true ->
     epoch_improves emb evaluate model_epoch 2
       (after emb evaluate model_epoch 1) = false ->
     train_loop emb evaluate model_epoch 1 (seq 1 NUM_EPOCHS)
       (initial_state emb) = (after emb evaluate model_epoch 2, true) /\
     epoch (after emb evaluate model_epoch 2) = 2).
Proof.
  split; [|split].
  - intros e s loss v acc s' update. split; intros H.
    + apply (epoch_body_improves emb evaluate model_epoch e s).
      apply improves_iff. exact H.
    + apply (epoch_body_stagnates emb evaluate model_epoch e s).
      destruct (epoch_improves emb evaluate model_epoch e s) eqn:E;
        [|reflexivity].
      exfalso. apply H. apply improves_iff in E. exact E.
  - intros NUM_EPOCHS PATIENCE r last.
    destruct (train_loop_from emb evaluate model_epoch PATIENCE NUM_EPOCHS 0)
      as (stop & Hrange & Hfst & Hbefore & Hbreak & Hfull).
    cbn [after] in Hfst, Hbreak, Hfull. fold r in Hfst, Hbreak, Hfull.
    assert (Hlast : last = stop).
    { unfold last. rewrite Hfst. apply epoch_after. }
    rewrite Hlast, Hfst. split; [reflexivity|]. split; [lia|].
    split; [intros e He; apply Hbefore; lia|]. split.
    + intros H. destruct (Hbreak H) as [Hpos Hge].
      split; [lia|]. split; [exact Hge|]. intros HP.
      destruct stop as [|p]; [lia|].
      pose proof (counter_step emb evaluate model_epoch (S p)
                    (after emb evaluate model_epoch p)) as Hstep.
      change (epoch_body emb evaluate model_epoch (S p)
                (after emb evaluate model_epoch p))
        with (after emb evaluate model_epoch (S p)) in Hstep.
      destruct p as [|p'].
      * change (patience_counter (after emb evaluate model_epoch 0)) with 0
          in Hstep.
        lia.
      * specialize (Hbefore (S p') ltac:(lia)). lia.
    + intros H. destruct (Hfull H) as [Hs Hc]. split; [lia|].
      intros HN. apply Hc. lia.
  - intros NUM_EPOCHS HN H1 H2.
    destruct NUM_EPOCHS as [|[|n]]; try lia.
    cbn [seq train_loop]. cbv zeta.
    change (epoch_body emb evaluate model_epoch 1 (initial_state emb))
      with (after emb evaluate model_epoch 1).
    destruct (epoch_body_improves emb evaluate model_epoch 1 _ H1)
      as (_ & Hc1 & _).
    change (epoch_body emb evaluate model_epoch 1 (initial_state emb))
      with (after emb evaluate model_epoch 1) in Hc1.
    rewrite Hc1. cbn [Nat.leb].
    change (epoch_body emb evaluate model_epoch 2
              (after emb evaluate model_epoch 1))
      with (after emb evaluate model_epoch 2).
    destruct (epoch_body_stagnates emb evaluate model_epoch 2 _ H2)
      as (Hc2 & _).
    change (epoch_body emb evaluate model_epoch 2
              (after emb evaluate model_epoch 1))
      with (after emb evaluate model_epoch 2) in Hc2.
    rewrite Hc2. cbn [Nat.leb]. split; [reflexivity|].
    apply epoch_after.
Qed.

(** C2 on a run whose probe always scores 0 and whose loss is always 1:
    epoch 1 updates through the tie branch ([1 < inf]), epoch 2 does not, and
    with patience 1 the loop stops at epoch 2 of 500. *)
Lemma training_loop_policy_witness :
  train_loop nat zero_probe constant_loss_epoch 1 (seq 1 Config.NUM_EPOCHS)
    (initial_state nat) = (after nat zero_probe constant_loss_epoch 2, true) /\
  epoch (after nat zero_probe constant_loss_epoch 2) = 2.
Proof.
  apply (proj2 (proj2 (training_loop_policy nat zero_probe constant_loss_epoch))
           Config.NUM_EPOCHS).
  - unfold Config.NUM_EPOCHS. lia.
  - vm_compute. reflexivity.
  - vm_compute. reflexivity.
Defined.

(** C3, as stated, fails: on the diverged run with the script's constants no
    best state is ever recorded, the loop breaks at epoch 30, and the
    fallback stores the embedding of epoch 30, not that of epoch 1. *)
Lemma fallback_is_not_first_embedding :
  best_emb (fst (train_loop nat zero_probe diverged_epoch Config.PATIENCE
                   (seq 1 Config.NUM_EPOCHS) (initial_state nat))) = None /\
  snd (diverged_epoch 1) = 1 /\
  exists s, train nat zero_probe diverged_epoch
              Config.NUM_EPOCHS Config.PATIENCE = ok s /\
    best_emb s = Some 30 /\
    best_emb s <> Some (snd (diverged_epoch 1)).
Proof.
  split; [vm_compute; reflexivity|]. split; [reflexivity|].
  eexists. split; [vm_compute; reflexivity|]. cbn.
  split; [reflexivity|discriminate].
Qed.

(** C3, amended. When the loop ends with no best state recorded (and ran at
    all), the fallback succeeds and stores the validation embedding of the
    last epoch that was run, with the probe's test score of that embedding;
    the other tracked variables keep their values. *)
Theorem fallback_uses_last_validation_embedding
  (emb : Type) (evaluate : emb -> mask -> Q)
  (model_epoch : nat -> pyfloat * emb) (NUM_EPOCHS PATIENCE : nat) :
  let r := train_loop emb evaluate model_epoch PATIENCE
             (seq 1 NUM_EPOCHS) (initial_state emb) in
  let last := epoch (fst r) in
  1 <= NUM_EPOCHS ->
  best_emb (fst r) = None ->
  1 <= last <= NUM_EPOCHS /\
  fst r = after emb evaluate model_epoch last /\
  exists s, train emb evaluate model_epoch NUM_EPOCHS PATIENCE = ok s /\
    best_emb s = Some (snd (model_epoch last)) /\
    test_acc s = evaluate (snd (model_epoch last)) test_mask /\
    best_val_acc s = best_val_acc (fst r) /\
    patience_counter s = patience_counter (fst r).
Proof.
  intros r last HN Hnone.
  destruct (train_loop_from emb evaluate model_epoch PATIENCE NUM_EPOCHS 0)
    as (stop & Hrange & Hfst & _ & Hbreak & Hfull).
  cbn [after] in Hfst, Hbreak, Hfull. fold r in Hfst, Hbreak, Hfull.
  assert (Hlast : last = stop).
  { unfold last. rewrite Hfst. apply epoch_after. }
  assert (Hpos : 1 <= stop).
  { destruct (snd r) eqn:E;
      [destruct (Hbreak eq_refl)|destruct (Hfull eq_refl)]; lia. }
  rewrite Hlast. split; [lia|]. split; [exact Hfst|].
  unfold train. fold r. unfold fallback. rewrite Hnone.
  destruct stop as [|p]; [lia|].
  assert (Hv : val_emb (fst r) = Some (snd (model_epoch (S p))))
    by (rewrite Hfst; apply val_emb_after).
  rewrite Hv.
  eexists. split; [reflexivity|]. cbn. auto.
Qed.

Lemma fallback_uses_last_validation_embedding_witness :
  1 <= epoch (fst (train_loop nat zero_probe diverged_epoch 30 (seq 1 500)
                     (initial_state nat))) <= 500 /\
  fst (train_loop nat zero_probe diverged_epoch 30 (seq 1 500)
         (initial_state nat)) =
  after nat zero_probe diverged_epoch
    (epoch (fst (train_loop nat zero_probe diverged_epoch 30 (seq 1 500)
                   (initial_state nat)))) /\
  exists s, train nat zero_probe diverged_epoch 500 30 = ok s /\
    best_emb s =
      Some (snd (diverged_epoch
                   (epoch (fst (train_loop nat zero_probe diverged_epoch 30
                                  (seq 1 500) (initial_state nat)))))) /\
    test_acc s =
      zero_probe
        (snd (diverged_epoch
                (epoch (fst (train_loop nat zero_probe diverged_epoch 30
                               (seq 1 500) (initial_state nat))))))
        test_mask /\
    best_val_acc s =
      best_val_acc (fst (train_loop nat zero_probe diverged_epoch 30
                           (seq 1 500) (initial_state nat))) /\
    patience_counter s =
      patience_counter (fst (train_loop nat zero_probe diverged_epoch 30
                               (seq 1 500) (initial_state nat))).
Proof.
  apply (fallback_uses_last_validation_embedding nat zero_probe diverged_epoch
           500 30).
  - lia.
  - vm_compute. reflexivity.
Defined.

(* --------------------------------------------------------------------- *)
(** *** Invariants of the tracked state *)

Section LoopInvariants.
Variable emb : Type.
Variable evaluate : emb -> mask -> Q.
Variable model_epoch : nat -> pyfloat * emb.

Local Abbreviation body := (epoch_body emb evaluate model_epoch).
Local Abbreviation loop := (train_loop emb evaluate model_epoch).
Local Abbreviation state_after := (after emb evaluate model_epoch).
Local Abbreviation better := (epoch_improves emb evaluate model_epoch).
Local Abbreviation run := (train emb evaluate model_epoch).

(** The validation accuracy of epoch [e]. *)
Definition val_acc (e : nat) : Q := evaluate (snd (model_epoch e)) val_mask.

Lemma best_val_acc_step (e : nat) (s : state emb) :
  (best_val_acc s <= best_val_acc (body e s))%Q /\
  (val_acc e <= best_val_acc (body e s))%Q.
Proof.
  unfold val_acc. destruct (better e s) eqn:E.
  - destruct (epoch_body_improves emb evaluate model_epoch e s E)
      as (_ & _ & _ & _ & Hacc).
    split; [|rewrite Hacc; apply Qle_refl].
    rewrite Hacc. unfold epoch_improves in E. apply improves_iff in E.
    destruct E as [Hlt|[Heq _]].
    + now apply Qlt_le_weak.
    + rewrite Heq. apply Qle_refl.
  - destruct (epoch_body_stagnates emb evaluate model_epoch e s E)
      as (_ & _ & -> & _).
    split; [apply Qle_refl|].
    unfold epoch_improves, improves in E. apply orb_false_iff in E as [E _].
    destruct (Qle_bool (evaluate (snd (model_epoch e)) val_mask)
                (best_val_acc s)) eqn:Ele.
    + now apply Qle_bool_iff.
    + unfold Qlt_bool in E. rewrite Ele in E. discriminate E.
Qed.

Lemma best_val_acc_after_max (n e : nat) :
  1 <= e <= n -> (val_acc e <= best_val_acc (state_after n))%Q.
Proof.
  induction n as [|n IH]; intros He; [lia|].
  cbn [after]. destruct (best_val_acc_step (S n) (state_after n)) as [Hm Hv].
  destruct (Nat.eq_dec e (S n)) as [->|Hne]; [exact Hv|].
  eapply Qle_trans; [apply IH; lia|exact Hm].
Qed.

Lemma best_val_acc_after_nonneg (n : nat) :
  (0 <= best_val_acc (state_after n))%Q.
Proof.
  induction n as [|n IH]; [apply Qle_refl|].
  cbn [after]. destruct (best_val_acc_step (S n) (state_after n)) as [Hm _].
  eapply Qle_trans; [exact IH|exact Hm].
Qed.

(** Once set, the best variables all come from one epoch. *)
Lemma best_state_after (n : nat) (v : emb) :
  best_emb (state_after n) = Some v ->
  exists e, 1 <= e <= n /\ v = snd (model_epoch e) /\
    best_loss (state_after n) = fst (model_epoch e) /\
    test_acc (state_after n) = evaluate v test_mask /\
    (best_val_acc (state_after n) == val_acc e)%Q.
Proof.
  induction n as [|n IH]; intros H; [discriminate H|].
  cbn [after] in *. destruct (better (S n) (state_after n)) eqn:E.
  - destruct (epoch_body_improves emb evaluate model_epoch (S n) _ E)
      as (Hb & _ & Ht & Hl & Ha).
    rewrite Hb in H. injection H as <-. exists (S n).
    repeat split; try assumption; lia.
  - destruct (epoch_body_stagnates emb evaluate model_epoch (S n) _ E)
      as (_ & Hb & Ha & Ht & Hl).
    rewrite Hb in H. destruct (IH H) as (e & He & Hv & Hl' & Ht' & Ha').
    exists e. rewrite Ha, Ht, Hl. repeat split; try assumption; lia.
Qed.

Lemma best_emb_stays (n : nat) :
  best_emb (state_after n) <> None -> best_emb (state_after (S n)) <> None.
Proof.
  intros H. cbn [after]. destruct (better (S n) (state_after n)) eqn:E.
  - destruct (epoch_body_improves emb evaluate model_epoch (S n) _ E)
      as (-> & _). discriminate.
  - destruct (epoch_body_stagnates emb evaluate model_epoch (S n) _ E)
      as (_ & -> & _). exact H.
Qed.

Lemma counter_after (n : nat) : patience_counter (state_after n) <= n.
Proof.
  induction n as [|n IH]; [cbn; lia|]. cbn [after].
  pose proof (counter_step emb evaluate model_epoch (S n) (state_after n)). lia.
Qed.

(** The loop's final state is the state after its last epoch. *)
Lemma train_loop_result (NUM_EPOCHS PATIENCE : nat) :
  exists stop, stop <= NUM_EPOCHS /\ (1 <= NUM_EPOCHS -> 1 <= stop) /\
    fst (loop PATIENCE (seq 1 NUM_EPOCHS) (initial_state emb)) =
      state_after stop /\
    (snd (loop PATIENCE (seq 1 NUM_EPOCHS) (initial_state emb)) = true ->
       PATIENCE <= patience_counter (state_after stop)) /\
    (snd (loop PATIENCE (seq 1 NUM_EPOCHS) (initial_state emb)) = false ->
       stop = NUM_EPOCHS).
Proof.
  destruct (train_loop_from emb evaluate model_epoch PATIENCE NUM_EPOCHS 0)
    as (stop & Hrange & Hfst & _ & Hbreak & Hfull).
  cbn [after] in Hfst, Hbreak, Hfull.
  exists stop. split; [lia|]. split.
  - intros HN.
    destruct (snd (loop PATIENCE (seq 1 NUM_EPOCHS) (initial_state emb)));
      [destruct (Hbreak eq_refl)|destruct (Hfull eq_refl)]; lia.
  - split; [exact Hfst|]. split; intros H.
    + now destruct (Hbreak H).
    + destruct (Hfull H). lia.
Qed.

Lemma no_update_best_zero (n : nat) :
  best_emb (state_after n) = None -> best_val_acc (state_after n) = 0%Q.
Proof.
  induction n as [|n IH]; intros Eb; [reflexivity|]. cbn [after] in *.
  destruct (better (S n) (state_after n)) eqn:E.
  - destruct (epoch_body_improves emb evaluate model_epoch (S n) _ E)
      as (Hb & _). rewrite Hb in Eb. discriminate Eb.
  - destruct (epoch_body_stagnates emb evaluate model_epoch (S n) _ E)
      as (_ & Hb & Ha & _). rewrite Ha. apply IH. now rewrite <- Hb.
Qed.

(** The final state of a completed run: the state after the last epoch,
    with the fallback applied when no best state was recorded. *)
Lemma train_final_state (NUM_EPOCHS PATIENCE : nat) (s : state emb) :
  run NUM_EPOCHS PATIENCE = ok s ->
  exists stop, 1 <= stop <= NUM_EPOCHS /\
    fst (loop PATIENCE (seq 1 NUM_EPOCHS) (initial_state emb)) =
      state_after stop /\
    epoch s = stop /\
    best_val_acc s = best_val_acc (state_after stop) /\
    patience_counter s = patience_counter (state_after stop) /\
    ((best_emb (state_after stop) <> None /\ s = state_after stop) \/
     (best_emb (state_after stop) = None /\
      best_emb s = Some (snd (model_epoch stop)) /\
      test_acc s = evaluate (snd (model_epoch stop)) test_mask)).
Proof.
  unfold train, fallback.
  destruct (train_loop_result NUM_EPOCHS PATIENCE)
    as (stop & Hle & _ & Hfst & _).
  rewrite Hfst. intros H. exists stop.
  destruct (best_emb (state_after stop)) as [v|] eqn:Eb.
  - injection H as <-. rewrite epoch_after.
    destruct stop as [|p]; [discriminate Eb|].
    repeat split; try lia. left. split; [discriminate|reflexivity].
  - destruct stop as [|p]; [discriminate H|].
    rewrite val_emb_after in H. injection H as <-.
    cbn [epoch best_val_acc patience_counter best_emb test_acc].
    change (body (S p) (state_after p)) with (state_after (S p)).
    rewrite epoch_after. repeat split; try lia. right. auto.
Qed.

End LoopInvariants.

(** The best validation accuracy is the running maximum: after a run,
    [best_val_acc] is at least the validation accuracy of every epoch that
    was run, and is either [0], its initial value, or the accuracy of one of
    these epochs. *)
Theorem best_val_acc_is_running_maximum
  (emb : Type) (evaluate : emb -> mask -> Q)
  (model_epoch : nat -> pyfloat * emb) (NUM_EPOCHS PATIENCE : nat)
  (s : state emb) :
  train emb evaluate model_epoch NUM_EPOCHS PATIENCE = ok s ->
  (forall e, 1 <= e <= epoch s ->
     (val_acc emb evaluate model_epoch e <= best_val_acc s)%Q) /\
  (0 <= best_val_acc s)%Q /\
  (best_val_acc s = 0%Q \/
   exists e, 1 <= e <= epoch s /\
     (best_val_acc s == val_acc emb evaluate model_epoch e)%Q).
Proof.
  intros H.
  destruct (train_final_state emb evaluate model_epoch NUM_EPOCHS PATIENCE s H)
    as (stop & Hstop & _ & -> & -> & _ & Hcases).
  split; [intros e He; now apply best_val_acc_after_max|].
  split; [apply best_val_acc_after_nonneg|].
  destruct (best_emb (after emb evaluate model_epoch stop)) as [v|] eqn:Eb.
  - right. destruct (best_state_after emb evaluate model_epoch stop v Eb)
      as (e & He & _ & _ & _ & Ha).
    now exists e.
  - left. now apply no_update_best_zero.
Qed.

Lemma best_val_acc_is_running_maximum_witness :
  (forall e, 1 <= e <= 30 ->
     (val_acc nat zero_probe diverged_epoch e <= 0)%Q) /\
  (0 <= 0)%Q /\
  (0%Q = 0%Q \/
   exists e, 1 <= e <= 30 /\ (0 == val_acc nat zero_probe diverged_epoch e)%Q).
Proof.
  apply (best_val_acc_is_running_maximum nat zero_probe diverged_epoch
           500 30
           (mk_state nat 0 (Some 30) 30 0 PosInf 30 (Some 30))).
  vm_compute. reflexivity.
Defined.

(** What the script reports and saves belongs together: after a run the
    saved embedding is the validation embedding of an epoch that was run,
    [test_acc] is the probe's test score of exactly that embedding, and its
    validation score does not exceed [best_val_acc]. *)
Theorem saved_embedding_matches_test_acc
  (emb : Type) (evaluate : emb -> mask -> Q)
  (model_epoch : nat -> pyfloat * emb) (NUM_EPOCHS PATIENCE : nat)
  (s : state emb) :
  train emb evaluate model_epoch NUM_EPOCHS PATIENCE = ok s ->
  exists e, 1 <= e <= epoch s /\ epoch s <= NUM_EPOCHS /\
    best_emb s = Some (snd (model_epoch e)) /\
    test_acc s = evaluate (snd (model_epoch e)) test_mask /\
    (val_acc emb evaluate model_epoch e <= best_val_acc s)%Q.
Proof.
  intros H.
  destruct (train_final_state emb evaluate model_epoch NUM_EPOCHS PATIENCE s H)
    as (stop & Hstop & _ & He & Ha & _ & Hcases).
  rewrite He, Ha.
  destruct Hcases as [[Hset ->]|(Hnone & Hb & Ht)].
  - destruct (best_emb (after emb evaluate model_epoch stop)) as [v|] eqn:Eb;
      [|congruence].
    destruct (best_state_after emb evaluate model_epoch stop v Eb)
      as (e & Hrange & -> & _ & Ht & _).
    exists e. repeat split; try assumption; try lia.
    now apply best_val_acc_after_max.
  - exists stop. repeat split; try assumption; try lia.
    apply best_val_acc_after_max. lia.
Qed.

Lemma saved_embedding_matches_test_acc_witness :
  exists e, 1 <= e <= 30 /\ 30 <= 500 /\
    Some 30 = Some (snd (diverged_epoch e)) /\
    0%Q = zero_probe (snd (diverged_epoch e)) test_mask /\
    (val_acc nat zero_probe diverged_epoch e <= 0)%Q.
Proof.
  apply (saved_embedding_matches_test_acc nat zero_probe diverged_epoch
           500 30
           (mk_state nat 0 (Some 30) 30 0 PosInf 30 (Some 30))).
  vm_compute. reflexivity.
Defined.

(** Early stopping cannot fire before [PATIENCE] epochs have run: the loop
    runs at least [min NUM_EPOCHS PATIENCE] epochs and at most
    [NUM_EPOCHS], and the stagnation counter never exceeds the number of
    epochs run. With [PATIENCE = 0] the loop breaks after its first epoch,
    whatever that epoch found. *)
Theorem early_stop_not_before_patience
  (emb : Type) (evaluate : emb -> mask -> Q)
  (model_epoch : nat -> pyfloat * emb) (NUM_EPOCHS PATIENCE : nat) :
  let r := train_loop emb evaluate model_epoch PATIENCE
             (seq 1 NUM_EPOCHS) (initial_state emb) in
  Nat.min NUM_EPOCHS PATIENCE <= epoch (fst r) <= NUM_EPOCHS /\
  patience_counter (fst r) <= epoch (fst r) /\
  (PATIENCE = 0 -> 1 <= NUM_EPOCHS -> epoch (fst r) = 1 /\ snd r = true).
Proof.
  intros r.
  assert (Hzero : PATIENCE = 0 -> 1 <= NUM_EPOCHS ->
            epoch (fst r) = 1 /\ snd r = true).
  { intros -> HN. unfold r. destruct NUM_EPOCHS as [|n]; [lia|].
    cbn [seq train_loop Nat.leb fst snd]. split; [|reflexivity].
    apply epoch_body_loop_variables. }
  destruct (train_loop_result emb evaluate model_epoch NUM_EPOCHS PATIENCE)
    as (stop & Hle & _ & Hfst & Hbreak & Hfull).
  fold r in Hfst, Hbreak, Hfull. rewrite Hfst in *. rewrite epoch_after in *.
  pose proof (counter_after emb evaluate model_epoch stop) as Hc.
  split; [|split; [exact Hc|exact Hzero]].
  split; [|exact Hle].
  destruct (snd r); [specialize (Hbreak eq_refl)|specialize (Hfull eq_refl)];
    lia.
Qed.

End Training.

(* ===================================================================== *)
(** ** The training loop when the probe raises (hgcl.py, lines 261-321) *)
(* ===================================================================== *)

(** [evaluate] calls scikit-learn, which raises on data it cannot fit and
    on an empty selection. [Training] follows the runs in which every call
    of [evaluate] returns; here a call may raise, and the exception ends the
    script at the line of the call. *)
Module TrainingRaises.
Import Py Training.
Local Open Scope py_scope.

(** An exception passes through [bind] unchanged. *)
Ltac raised_by H := unfold raise in *; cbn [bind] in H; congruence.

Section Loop.
Variable emb : Type.
Variable evaluate : emb -> mask -> result Q.
Variable model_epoch : nat -> pyfloat * emb.

(** Lines 295-308, with [val_acc] the result of line 283. *)
Definition track_best (s : state emb) (loss : pyfloat) (v : emb) (val_acc : Q)
  : result (state emb) :=
  if Qlt_bool (best_val_acc s) val_acc then
    acc <- evaluate v test_mask ;;
    ok {| best_val_acc := val_acc;
          best_emb := Some v;
          patience_counter := 0;
          test_acc := acc;
          best_loss := loss;
          epoch := epoch s; val_emb := val_emb s |}
  else if Qeq_bool val_acc (best_val_acc s) && float_lt loss (best_loss s) then
    acc <- evaluate v test_mask ;;
    ok {| best_val_acc := best_val_acc s;
          best_emb := Some v;
          patience_counter := 0;
          test_acc := acc;
          best_loss := loss;
          epoch := epoch s; val_emb := val_emb s |}
  else
    ok {| best_val_acc := best_val_acc s;
          best_emb := best_emb s;
          patience_counter := patience_counter s + 1;
          test_acc := test_acc s;
          best_loss := best_loss s;
          epoch := epoch s; val_emb := val_emb s |}.

(** One iteration, lines 269-308. *)
Definition epoch_body (e : nat) (s : state emb) : result (state emb) :=
  let (loss, v) := model_epoch e in
  val_acc <- evaluate v val_mask ;;
  track_best
    {| best_val_acc := best_val_acc s; best_emb := best_emb s;
       patience_counter := patience_counter s; test_acc := test_acc s;
       best_loss := best_loss s; epoch := e; val_emb := Some v |}
    loss v val_acc.

(** The [for] loop with its [break] (lines 269-316). *)
Fixpoint train_loop (PATIENCE : nat) (epochs : list nat) (s : state emb)
  : result (state emb * bool) :=
  match epochs with
  | [] => ok (s, false)
  | e :: rest =>
      s' <- epoch_body e s ;;
      if PATIENCE <=? patience_counter s' then ok (s', true)
      else train_loop PATIENCE rest s'
  end.

(** Lines 319-321. *)
Definition fallback (s : state emb) : result (state emb) :=
  match best_emb s with
  | Some _ => ok s
  | None =>
      match val_emb s with
      | Some v =>
          acc <- evaluate v test_mask ;;
          ok {| best_val_acc := best_val_acc s; best_emb := Some v;
                patience_counter := patience_counter s;
                test_acc := acc;
                best_loss := best_loss s; epoch := epoch s;
                val_emb := val_emb s |}
      | None => raise NameError_unbound
      end
  end.

(** The whole run. *)
Definition train (NUM_EPOCHS PATIENCE : nat) : result (state emb) :=
  r <- train_loop PATIENCE (seq 1 NUM_EPOCHS) (initial_state emb) ;;
  fallback (fst r).

End Loop.

(** A probe that returns on the validation mask and raises on the test
    mask, as [evaluate] does when the test mask selects no node. *)
Definition no_test_probe (v : nat) (m : mask) : result Q :=
  match m with
  | test_mask => raise ValueError_sklearn
  | _ => ok 0%Q
  end.

(** A probe that always returns 0. *)
Definition returning_probe (v : nat) (m : mask) : result Q := ok 0%Q.

(* --------------------------------------------------------------------- *)
(** *** The two models of the loop agree when the probe returns *)

Section Agreement.
Variable emb : Type.
Variable evaluate : emb -> mask -> Q.
Variable model_epoch : nat -> pyfloat * emb.

Local Abbreviation returning := (fun v m => ok (evaluate v m)).

Lemma epoch_body_returning (e : nat) (s : state emb) :
  epoch_body emb returning model_epoch e s =
  ok (Training.epoch_body emb evaluate model_epoch e s).
Proof.
  unfold epoch_body, Training.epoch_body.
  destruct (model_epoch e) as [loss v]. cbn [bind ok].
  unfold track_best, Training.track_best.
  cbn [best_val_acc best_loss].
  destruct (Qlt_bool (best_val_acc s) (evaluate v val_mask)); [reflexivity|].
  destruct (Qeq_bool (evaluate v val_mask) (best_val_acc s)
            && float_lt loss (best_loss s)); reflexivity.
Qed.

Lemma train_loop_returning (PATIENCE : nat) (epochs : list nat)
  (s : state emb) :
  train_loop emb returning model_epoch PATIENCE epochs s =
  ok (Training.train_loop emb evaluate model_epoch PATIENCE epochs s).
Proof.
  revert s. induction epochs as [|e rest IH]; intros s; [reflexivity|].
  cbn [train_loop Training.train_loop]. rewrite epoch_body_returning.
  cbn [bind ok].
  destruct (PATIENCE <=? _); [reflexivity|apply IH].
Qed.

Lemma train_returning (NUM_EPOCHS PATIENCE : nat) :
  train emb returning model_epoch NUM_EPOCHS PATIENCE =
  Training.train emb evaluate model_epoch NUM_EPOCHS PATIENCE.
Proof.
  unfold train, Training.train. rewrite train_loop_returning.
  cbn [bind ok]. unfold fallback, Training.fallback.
  destruct (best_emb _); [reflexivity|].
  destruct (val_emb _); reflexivity.
Qed.

End Agreement.

(* --------------------------------------------------------------------- *)
(** *** What a returning run has done *)

Section LoopFacts.
Variable emb : Type.
Variable evaluate : emb -> mask -> result Q.
Variable model_epoch : nat -> pyfloat * emb.

Local Abbreviation body := (epoch_body emb evaluate model_epoch).
Local Abbreviation loop := (train_loop emb evaluate model_epoch).
Local Abbreviation run := (train emb evaluate model_epoch).

(** The test mask has been evaluated with success. *)
Definition tested : Prop := exists v acc, evaluate v test_mask = ok acc.

(** An exception of the probe. *)
Definition raised (e : exn) : Prop := exists v m, evaluate v m = raise e.

Lemma track_best_ok (s s' : state emb) (loss : pyfloat) (v : emb) (a : Q) :
  track_best emb evaluate s loss v a = ok s' ->
  val_emb s' = val_emb s /\
  ((best_emb s' = Some v /\ tested) \/ best_emb s' = best_emb s).
Proof.
  unfold track_best. intros H.
  destruct (Qlt_bool (best_val_acc s) a).
  - destruct (evaluate v test_mask) as [e|acc] eqn:E; [discriminate H|].
    cbn [bind ok] in H. injection H as <-. cbn. split; [reflexivity|].
    left. split; [reflexivity|]. now exists v, acc.
  - destruct (Qeq_bool a (best_val_acc s) && float_lt loss (best_loss s)).
    + destruct (evaluate v test_mask) as [e|acc] eqn:E; [discriminate H|].
      cbn [bind ok] in H. injection H as <-. cbn. split; [reflexivity|].
      left. split; [reflexivity|]. now exists v, acc.
    + injection H as <-. cbn. split; [reflexivity|]. now right.
Qed.

Lemma track_best_raise (s : state emb) (loss : pyfloat) (v : emb) (a : Q)
  (e : exn) :
  track_best emb evaluate s loss v a = raise e ->
  evaluate v test_mask = raise e.
Proof.
  unfold track_best. intros H.
  destruct (Qlt_bool (best_val_acc s) a).
  - destruct (evaluate v test_mask) as [e'|acc]; [|discriminate H].
    raised_by H.
  - destruct (Qeq_bool a (best_val_acc s) && float_lt loss (best_loss s)).
    + destruct (evaluate v test_mask) as [e'|acc]; [|discriminate H].
    raised_by H.
    + discriminate H.
Qed.

Lemma epoch_body_ok (e : nat) (s s' : state emb) :
  body e s = ok s' ->
  val_emb s' <> None /\
  ((best_emb s' <> None /\ tested) \/ best_emb s' = best_emb s).
Proof.
  unfold epoch_body. destruct (model_epoch e) as [loss v]. intros H.
  destruct (evaluate v val_mask) as [e'|a]; [discriminate H|].
  cbn [bind ok] in H. apply track_best_ok in H as [Hv Hb].
  cbn in Hv, Hb. split; [rewrite Hv; discriminate|].
  destruct Hb as [[Hb Ht]|Hb]; [left|now right].
  split; [rewrite Hb; discriminate|exact Ht].
Qed.

Lemma epoch_body_raise (e : nat) (s : state emb) (err : exn) :
  body e s = raise err -> raised err.
Proof.
  unfold epoch_body. destruct (model_epoch e) as [loss v]. intros H.
  destruct (evaluate v val_mask) as [e'|a] eqn:E.
  - exists v, val_mask. rewrite E. raised_by H.
  - cbn [bind ok] in H. apply track_best_raise in H.
    now exists v, test_mask.
Qed.

(** Where the loop ends, [best_emb] is unset only if it was unset at the
    start, and it is set only after an evaluation of the test mask. *)
Lemma train_loop_ok (PATIENCE : nat) (epochs : list nat)
  (s s' : state emb) (b : bool) :
  loop PATIENCE epochs s = ok (s', b) ->
  (epochs <> [] \/ val_emb s <> None -> val_emb s' <> None) /\
  (best_emb s <> None -> best_emb s' <> None) /\
  (best_emb s' <> None -> best_emb s <> None \/ tested).
Proof.
  revert s. induction epochs as [|e rest IH]; intros s H.
  - injection H as <- <-. split; [|split]; auto.
    intros [Hne|Hv]; [now elim Hne|exact Hv].
  - cbn [train_loop] in H.
    destruct (body e s) as [err|s1] eqn:E; [discriminate H|].
    cbn [bind ok] in H.
    destruct (epoch_body_ok e s s1 E) as [Hv Hb].
    assert (Hkeep : best_emb s <> None -> best_emb s1 <> None).
    { intros Hs. destruct Hb as [[Hb _]|Hb]; [exact Hb|now rewrite Hb]. }
    assert (Hfrom : best_emb s1 <> None -> best_emb s <> None \/ tested).
    { intros Hs1. destruct Hb as [[_ Ht]|Hb]; [now right|].
      left. now rewrite <- Hb. }
    destruct (PATIENCE <=? patience_counter s1).
    + injection H as <- <-. split; [|split]; auto.
    + destruct (IH s1 H) as (IHv & IHk & IHf).
      split; [|split].
      * intros _. apply IHv. now right.
      * intros Hs. apply IHk, Hkeep, Hs.
      * intros Hs'. destruct (IHf Hs') as [Hs1|Ht]; [|now right].
        now apply Hfrom.
Qed.

Lemma train_loop_raise (PATIENCE : nat) (epochs : list nat) (s : state emb)
  (err : exn) :
  loop PATIENCE epochs s = raise err -> raised err.
Proof.
  revert s. induction epochs as [|e rest IH]; intros s H; [discriminate H|].
  cbn [train_loop] in H.
  destruct (body e s) as [err'|s1] eqn:E.
  - apply (epoch_body_raise e s err). rewrite E. raised_by H.
  - cbn [bind ok] in H.
    destruct (PATIENCE <=? patience_counter s1); [discriminate H|].
    exact (IH s1 H).
Qed.

Lemma fallback_set (s : state emb) :
  best_emb s <> None -> fallback emb evaluate s = ok s.
Proof.
  unfold fallback. destruct (best_emb s); [reflexivity|]. intros H. now elim H.
Qed.

Lemma fallback_ok (s s' : state emb) :
  fallback emb evaluate s = ok s' ->
  (exists v, best_emb s' = Some v) /\ (best_emb s = None -> tested).
Proof.
  unfold fallback. intros H.
  destruct (best_emb s) as [v|] eqn:Eb.
  - injection H as <-. split; [now exists v|discriminate].
  - destruct (val_emb s) as [v|]; [|discriminate H].
    destruct (evaluate v test_mask) as [err|acc] eqn:E; [discriminate H|].
    cbn [bind ok] in H. injection H as <-. split; [now exists v|].
    intros _. now exists v, acc.
Qed.

Lemma seq_nonempty (n : nat) : 1 <= n -> seq 1 n <> [].
Proof. destruct n; [lia|discriminate]. Qed.

(** What the first epoch does when its validation accuracy is not negative
    and its loss is below [inf]: it takes an updating branch, which
    evaluates the test mask. *)
Lemma first_epoch_body (a : Q) :
  evaluate (snd (model_epoch 1)) val_mask = ok a -> (0 <= a)%Q ->
  float_lt (fst (model_epoch 1)) PosInf = true ->
  (forall err, evaluate (snd (model_epoch 1)) test_mask = raise err ->
     body 1 (initial_state emb) = raise err) /\
  (forall s1, body 1 (initial_state emb) = ok s1 -> best_emb s1 <> None).
Proof.
  intros Ha Hpos Hloss. unfold epoch_body.
  destruct (model_epoch 1) as [loss v]. cbn [fst snd] in *.
  rewrite Ha. cbn [bind ok]. unfold track_best.
  cbn [best_val_acc best_loss initial_state].
  assert (Hbranch : Qlt_bool 0 a = true \/
            (Qlt_bool 0 a = false /\
             Qeq_bool a 0 && float_lt loss PosInf = true)).
  { destruct (Qlt_bool 0 a) eqn:E; [now left|right]. split; [reflexivity|].
    rewrite Hloss, andb_true_r. apply Qeq_bool_iff.
    apply Qle_antisym; [|exact Hpos].
    apply Qnot_lt_le. intros Hlt. apply Qlt_bool_iff in Hlt. congruence. }
  destruct Hbranch as [->|[-> ->]].
  - split.
    + intros err ->. reflexivity.
    + intros s1 H. destruct (evaluate v test_mask); [discriminate H|].
      cbn [bind ok] in H. injection H as <-. discriminate.
  - split.
    + intros err ->. reflexivity.
    + intros s1 H. destruct (evaluate v test_mask); [discriminate H|].
      cbn [bind ok] in H. injection H as <-. discriminate.
Qed.

Lemma first_epoch_run (NUM_EPOCHS PATIENCE : nat) (a : Q) :
  1 <= NUM_EPOCHS ->
  evaluate (snd (model_epoch 1)) val_mask = ok a -> (0 <= a)%Q ->
  float_lt (fst (model_epoch 1)) PosInf = true ->
  (forall err, evaluate (snd (model_epoch 1)) test_mask = raise err ->
     run NUM_EPOCHS PATIENCE = raise err) /\
  (forall s, run NUM_EPOCHS PATIENCE = ok s ->
     best_emb s <> None /\
     exists b, loop PATIENCE (seq 1 NUM_EPOCHS) (initial_state emb) =
               ok (s, b)).
Proof.
  intros HN Ha Hpos Hloss.
  destruct (first_epoch_body a Ha Hpos Hloss) as [Hraise Hok].
  destruct NUM_EPOCHS as [|n]; [lia|].
  unfold train. cbn [seq train_loop]. split.
  - intros err Herr. now rewrite (Hraise err Herr).
  - intros s H.
    destruct (body 1 (initial_state emb)) as [err|s1] eqn:E1;
      [discriminate H|].
    cbn [bind ok] in H |- *. specialize (Hok s1 eq_refl).
    destruct (PATIENCE <=? patience_counter s1).
    + cbn [bind ok fst] in H. rewrite (fallback_set s1 Hok) in H.
      injection H as <-. split; [exact Hok|now exists true].
    + destruct (loop PATIENCE (seq 2 n) s1) as [err|[s' b]] eqn:El;
        [discriminate H|].
      cbn [bind ok fst] in H.
      destruct (train_loop_ok PATIENCE (seq 2 n) s1 s' b El) as (_ & Hk & _).
      rewrite (fallback_set s' (Hk Hok)) in H. injection H as <-.
      split; [exact (Hk Hok)|now exists b].
Qed.

Lemma first_epoch_val_raise (NUM_EPOCHS PATIENCE : nat) (err : exn) :
  1 <= NUM_EPOCHS ->
  evaluate (snd (model_epoch 1)) val_mask = raise err ->
  run NUM_EPOCHS PATIENCE = raise err.
Proof.
  intros HN H. destruct NUM_EPOCHS as [|n]; [lia|].
  unfold train. cbn [seq train_loop]. unfold epoch_body.
  destruct (model_epoch 1) as [loss v]. cbn [snd] in H. now rewrite H.
Qed.

Lemma train_ok (NUM_EPOCHS PATIENCE : nat) (s : state emb) :
  run NUM_EPOCHS PATIENCE = ok s ->
  1 <= NUM_EPOCHS /\ (exists v, best_emb s = Some v) /\ tested.
Proof.
  unfold train. intros H.
  destruct (loop PATIENCE (seq 1 NUM_EPOCHS) (initial_state emb))
    as [err|[s' b]] eqn:El; [discriminate H|].
  cbn [bind ok fst] in H.
  destruct (fallback_ok s' s H) as [Hv Ht].
  split; [|split; [exact Hv|]].
  - destruct NUM_EPOCHS; [|lia]. cbn in El. injection El as <- <-.
    discriminate H.
  - destruct (best_emb s') eqn:Eb; [|now apply Ht].
    destruct (train_loop_ok _ _ _ _ _ El) as (_ & _ & Hf).
    destruct Hf as [Hi|Ht']; [rewrite Eb; discriminate| |exact Ht'].
    now elim Hi.
Qed.

Lemma train_raise (NUM_EPOCHS PATIENCE : nat) (err : exn) :
  1 <= NUM_EPOCHS -> run NUM_EPOCHS PATIENCE = raise err -> raised err.
Proof.
  unfold train. intros HN H.
  destruct (loop PATIENCE (seq 1 NUM_EPOCHS) (initial_state emb))
    as [err'|[s' b]] eqn:El.
  - apply (train_loop_raise PATIENCE (seq 1 NUM_EPOCHS) (initial_state emb)).
    rewrite El. raised_by H.
  - cbn [bind ok fst] in H.
    destruct (train_loop_ok _ _ _ _ _ El) as (Hv & _ & _).
    specialize (Hv (or_introl (seq_nonempty NUM_EPOCHS HN))).
    unfold fallback in H.
    destruct (best_emb s'); [discriminate H|].
    destruct (val_emb s') as [v|]; [|now elim Hv].
    destruct (evaluate v test_mask) as [e'|acc] eqn:E; [|discriminate H].
    exists v, test_mask. rewrite E. raised_by H.
Qed.

End LoopFacts.

(* --------------------------------------------------------------------- *)
(** *** Properties of the run *)

(** The exceptions of a run. Without an epoch the fallback reads the
    unbound loop variable [val_emb] and the run raises [NameError]. With at
    least one epoch every exception of the run is one that [evaluate]
    raised. A run that returns has run at least one epoch, has evaluated
    the test mask with success, and has an embedding to save. *)
Theorem train_exceptions
  (emb : Type) (evaluate : emb -> mask -> result Q)
  (model_epoch : nat -> pyfloat * emb) (NUM_EPOCHS PATIENCE : nat) :
  (NUM_EPOCHS = 0 ->
     train emb evaluate model_epoch NUM_EPOCHS PATIENCE =
     raise NameError_unbound) /\
  (1 <= NUM_EPOCHS ->
     forall err, train emb evaluate model_epoch NUM_EPOCHS PATIENCE =
                 raise err ->
     exists v m, evaluate v m = raise err) /\
  (forall s, train emb evaluate model_epoch NUM_EPOCHS PATIENCE = ok s ->
     1 <= NUM_EPOCHS /\ (exists v, best_emb s = Some v) /\
     exists v acc, evaluate v test_mask = ok acc).
Proof.
  split; [intros ->; reflexivity|]. split.
  - intros HN err H. exact (train_raise emb evaluate model_epoch _ _ err HN H).
  - intros s H. exact (train_ok emb evaluate model_epoch _ _ s H).
Qed.

(** When the validation accuracy of epoch 1 is not negative and the loss of
    epoch 1 is below [inf], epoch 1 takes an updating branch. If
    [evaluate] raises on the test mask there, the run ends with that
    exception. A run that returns ends with the state in which the loop was
    left, with [best_emb] set: the fallback after the loop is not used. *)
Theorem first_epoch_updates
  (emb : Type) (evaluate : emb -> mask -> result Q)
  (model_epoch : nat -> pyfloat * emb) (NUM_EPOCHS PATIENCE : nat) (a : Q) :
  1 <= NUM_EPOCHS ->
  evaluate (snd (model_epoch 1)) val_mask = ok a -> (0 <= a)%Q ->
  float_lt (fst (model_epoch 1)) PosInf = true ->
  (forall err, evaluate (snd (model_epoch 1)) test_mask = raise err ->
     train emb evaluate model_epoch NUM_EPOCHS PATIENCE = raise err) /\
  (forall s, train emb evaluate model_epoch NUM_EPOCHS PATIENCE = ok s ->
     best_emb s <> None /\
     exists b, train_loop emb evaluate model_epoch PATIENCE
                 (seq 1 NUM_EPOCHS) (initial_state emb) = ok (s, b)).
Proof.
  intros HN Ha Hpos Hloss.
  exact (first_epoch_run emb evaluate model_epoch NUM_EPOCHS PATIENCE a
           HN Ha Hpos Hloss).
Qed.

Lemma first_epoch_updates_witness :
  1 <= 500 /\
  no_test_probe (snd (constant_loss_epoch 1)) val_mask = ok 0%Q /\
  (0 <= 0)%Q /\
  float_lt (fst (constant_loss_epoch 1)) PosInf = true /\
  train nat no_test_probe constant_loss_epoch 500 30 =
    raise ValueError_sklearn /\
  train nat returning_probe constant_loss_epoch 2 30 =
    ok (mk_state nat 0 (Some 1) 1 0 (Finite 1) 2 (Some 2)).
Proof.
  split; [lia|]. split; [reflexivity|]. split; [discriminate|].
  split; [reflexivity|]. split.
  - apply (proj1 (first_epoch_updates nat no_test_probe constant_loss_epoch
                    500 30 0%Q ltac:(lia) eq_refl ltac:(discriminate)
                    eq_refl)).
    reflexivity.
  - reflexivity.
Defined.

End TrainingRaises.

(* ===================================================================== *)
(** ** Contrastive loss (hgcl.py, lines 67-87), over the real numbers *)
(* ===================================================================== *)

Module Loss.
Local Open Scope R_scope.

(** A tensor of shape [N, D] is the list of its rows. *)
Definition matrix : Type := list (list R).

Definition sumR (l : list R) : R := fold_right Rplus 0 l.

(** [torch.sum(a * b)] for two rows. *)
Definition dot (a b : list R) : R :=
  sumR (map (fun p => fst p * snd p) (combine a b)).

(** The entry in row [i], column [j]. *)
Definition entry (m : matrix) (i j : nat) : R := nth j (nth i m []) 0.

(** [F.normalize(z, dim=1)]: every row divided by [max(||row||_2, eps)],
    with Torch's default [eps = 1e-12]. *)
Definition eps : R := / 10 ^ 12.

Definition norm2 (v : list R) : R := sqrt (sumR (map (fun a => a * a) v)).

Definition normalize_row (v : list R) : list R :=
  map (fun a => a / Rmax (norm2 v) eps) v.

Definition normalize (z : matrix) : matrix := map normalize_row z.

(** [torch.mm(a, b.t())]: entry [(i, j)] is the product of row [i] of [a]
    with row [j] of [b]. *)
Definition mm_t (a b : matrix) : matrix :=
  map (fun r => map (fun c => dot r c) b) a.

(** [m.masked_fill(torch.eye(N, dtype=bool), v)] *)
Fixpoint fill_at (j : nat) (v : R) (row : list R) : list R :=
  match row, j with
  | [], _ => []
  | _ :: rest, O => v :: rest
  | a :: rest, S j' => a :: fill_at j' v rest
  end.

Fixpoint masked_fill_eye_from (i : nat) (v : R) (m : matrix) : matrix :=
  match m with
  | [] => []
  | row :: rest => fill_at i v row :: masked_fill_eye_from (S i) v rest
  end.

Definition masked_fill_eye (m : matrix) (v : R) : matrix :=
  masked_fill_eye_from 0 v m.

(** [torch.logsumexp(m, dim=1)] on one row, and [torch.mean]. *)
Definition logsumexp (row : list R) : R := ln (sumR (map exp row)).

Definition mean (l : list R) : R := sumR l / INR (length l).

(** Line 74: the score of each node with itself across the views. *)
Definition positives (z1 z2 : matrix) (temperature : R) : list R :=
  map (fun p => dot (fst p) (snd p) / temperature) (combine z1 z2).

(** Lines 77-81: all scaled scores, the diagonal overwritten by [-9e15]. *)
Definition negatives (z1 z2 : matrix) (temperature : R) : matrix :=
  masked_fill_eye
    (map (map (fun s => s / temperature)) (mm_t z1 z2))
    (- (9 * 10 ^ 15)).

(** [contrastive_loss(z1, z2, temperature)] for two inputs of one shape. *)
Definition contrastive_loss (z1 z2 : matrix) (temperature : R) : R :=
  let z1 := normalize z1 in
  let z2 := normalize z2 in
  let numerator := positives z1 z2 temperature in
  let denominator := map logsumexp (negatives z1 z2 temperature) in
  - mean (map (fun p => fst p - snd p) (combine numerator denominator)).

(** [F.mse_loss(a, b)]: the mean of the squared differences over all
    entries. *)
Definition mse_loss (a b : matrix) : R :=
  mean (map (fun p => (fst p - snd p) * (fst p - snd p))
          (combine (concat a) (concat b))).

(* --------------------------------------------------------------------- *)
(** *** Entries of the score matrices *)

Lemma dot_comm (a b : list R) : dot a b = dot b a.
Proof.
  unfold dot. revert b. induction a as [|x a IH]; intros [|y b]; cbn;
    try reflexivity.
  unfold sumR in IH. rewrite IH. ring.
Qed.

Lemma nth_fill_at (k : nat) (v : R) (row : list R) (j : nat) :
  nth j (fill_at k v row) 0 =
  if (j =? k)%nat && (j <? length row)%nat then v else nth j row 0.
Proof.
  revert k j. induction row as [|a row IH]; intros k j.
  - destruct k, j; cbn; try reflexivity. now rewrite andb_false_r.
  - destruct k as [|k'], j as [|j']; cbn [fill_at nth length]; try reflexivity.
    rewrite IH. reflexivity.
Qed.

Lemma nth_masked_fill_eye_from (s : nat) (v : R) (m : matrix) (i : nat) :
  nth i (masked_fill_eye_from s v m) [] = fill_at (s + i) v (nth i m []).
Proof.
  revert s i. induction m as [|row m IH]; intros s i.
  - destruct i; cbn; now destruct (s + _)%nat.
  - destruct i as [|i']; cbn [masked_fill_eye_from nth].
    + now rewrite Nat.add_0_r.
    + rewrite IH. f_equal. lia.
Qed.

Lemma nth_map_in_range {A B} (f : A -> B) (l : list A) (n : nat) (d : A) (e : B) :
  nth n (map f l) e = if (n <? length l)%nat then f (nth n l d) else e.
Proof.
  revert n. induction l as [|a l IH]; intros [|n]; cbn; try reflexivity.
  apply IH.
Qed.

(** Entry [(i, j)] of [negatives]: the fill value on the diagonal, the scaled
    product of row [i] of the first view with row [j] of the second
    elsewhere. *)
Lemma entry_negatives (z1 z2 : matrix) (T : R) (i j : nat) :
  entry (negatives z1 z2 T) i j =
  if (i <? length z1)%nat && (j <? length z2)%nat then
    if (j =? i)%nat then - (9 * 10 ^ 15)
    else dot (nth i z1 []) (nth j z2 []) / T
  else 0.
Proof.
  unfold entry, negatives, masked_fill_eye, mm_t.
  rewrite nth_masked_fill_eye_from, nth_fill_at. cbn [Nat.add].
  rewrite (nth_map_in_range _ _ i [] []), length_map.
  destruct (i <? length z1)%nat eqn:Ei; cbn [andb].
  - rewrite (nth_map_in_range _ _ i [] []), Ei.
    rewrite !length_map.
    rewrite (nth_map_in_range _ _ j 0 0), length_map.
    rewrite (nth_map_in_range _ _ j [] 0).
    destruct (j <? length z2)%nat; [|now rewrite andb_false_r].
    rewrite andb_true_r. destruct (j =? i)%nat; reflexivity.
  - cbn [length]. rewrite andb_false_r. now destruct j.
Qed.

(* --------------------------------------------------------------------- *)
(** *** Two views on which the loss is not symmetric *)

Definition views_a : matrix := [[1; 0]; [0; 1]; [0; 1]].
Definition views_b : matrix := [[1; 0]; [1; 0]; [1; 0]].

Lemma eps_le_1 : eps <= 1.
Proof.
  unfold eps. assert (1 <= 10 ^ 12) by (apply pow_R1_Rle; lra).
  apply Rmult_le_reg_l with (10 ^ 12); [lra|]. rewrite Rinv_r by lra. lra.
Qed.

Lemma normalize_row_e1 : normalize_row [1; 0] = [1; 0].
Proof.
  unfold normalize_row, norm2. cbn [map sumR fold_right].
  replace (1 * 1 + (0 * 0 + 0)) with 1 by ring. rewrite sqrt_1.
  rewrite Rmax_left by apply eps_le_1.
  f_equal; [field|f_equal; field].
Qed.

Lemma normalize_row_e2 : normalize_row [0; 1] = [0; 1].
Proof.
  unfold normalize_row, norm2. cbn [map sumR fold_right].
  replace (0 * 0 + (1 * 1 + 0)) with 1 by ring. rewrite sqrt_1.
  rewrite Rmax_left by apply eps_le_1.
  f_equal; [field|f_equal; field].
Qed.

Lemma dot_e1_e1 : dot [1; 0] [1; 0] = 1.
Proof. unfold dot; cbn; ring. Qed.

Lemma dot_e1_e2 : dot [1; 0] [0; 1] = 0.
Proof. unfold dot; cbn; ring. Qed.

Lemma dot_e2_e1 : dot [0; 1] [1; 0] = 0.
Proof. unfold dot; cbn; ring. Qed.

Ltac unfold_loss :=
  unfold contrastive_loss, normalize, views_a, views_b; cbn [map];
  rewrite !normalize_row_e1, !normalize_row_e2;
  unfold positives, negatives, mm_t, masked_fill_eye, mean, logsumexp;
  cbn [map combine fst snd masked_fill_eye_from fill_at sumR fold_right
       length INR].

(** The log-sum-exp runs over the rows of the score matrix ... *)
Lemma loss_a_b (T : R) :
  contrastive_loss views_a views_b T =
  - ((1 / T - ln (exp (- (9 * 10 ^ 15)) + (exp (1 / T) + (exp (1 / T) + 0)))
      + ((0 - ln (1 + (exp (- (9 * 10 ^ 15)) + (1 + 0))))
      + ((0 - ln (1 + (1 + (exp (- (9 * 10 ^ 15)) + 0)))) + 0))) / 3).
Proof.
  unfold_loss. rewrite !dot_e1_e1, !dot_e2_e1. rewrite !Rdiv_0_l, exp_0.
  replace (1 + 1 + 1) with 3 by ring. reflexivity.
Qed.

(** ... and, with the views swapped, over its columns. *)
Lemma loss_b_a (T : R) :
  contrastive_loss views_b views_a T =
  - ((1 / T - ln (exp (- (9 * 10 ^ 15)) + (1 + (1 + 0)))
      + ((0 - ln (exp (1 / T) + (exp (- (9 * 10 ^ 15)) + (1 + 0))))
      + ((0 - ln (exp (1 / T) + (1 + (exp (- (9 * 10 ^ 15)) + 0)))) + 0))) / 3).
Proof.
  unfold_loss. rewrite !dot_e1_e1, !dot_e1_e2. rewrite !Rdiv_0_l, exp_0.
  replace (1 + 1 + 1) with 3 by ring. reflexivity.
Qed.

Lemma log_rows_lt_log_columns (a d : R) :
  1 < a -> 0 < d ->
  ln (d + 2 * a) + ln (2 + d) < ln (a + 1 + d) + ln (a + 1 + d).
Proof.
  intros Ha Hd. rewrite <- !ln_mult by lra.
  apply ln_increasing; nra.
Qed.

(* --------------------------------------------------------------------- *)
(** *** The claim about the contrastive loss *)

(** C4, as stated, fails: for the views [views_a] and [views_b] (three unit
    rows each) and the script's temperature, swapping the arguments changes
    the loss. *)
Lemma contrastive_loss_not_symmetric :
  contrastive_loss views_a views_b Config.TEMPERATURE <>
  contrastive_loss views_b views_a Config.TEMPERATURE.
Proof.
  rewrite loss_a_b, loss_b_a. unfold Config.TEMPERATURE.
  set (d := exp (- (9 * 10 ^ 15))). set (a := exp (1 / (7 / 10))).
  assert (Hd : 0 < d) by apply exp_pos.
  assert (Ha : 1 < a).
  { rewrite <- exp_0. apply exp_increasing. lra. }
  pose proof (log_rows_lt_log_columns a d Ha Hd) as Hlt.
  replace (d + (a + (a + 0))) with (d + 2 * a) by ring.
  replace (1 + (d + (1 + 0))) with (2 + d) by ring.
  replace (1 + (1 + (d + 0))) with (2 + d) by ring.
  replace (d + (1 + (1 + 0))) with (2 + d) by ring.
  replace (a + (d + (1 + 0))) with (a + 1 + d) by ring.
  replace (a + (1 + (d + 0))) with (a + 1 + d) by ring.
  lra.
Qed.

(** C4, amended. Swapping the two views leaves the positive scores of
    [contrastive_loss] unchanged and transposes its masked score matrix:
    the swapped loss takes the log-sum-exp over the columns, not the rows,
    of the same matrix. *)
Theorem contrastive_loss_swap (z1 z2 : matrix) (T : R) :
  positives (normalize z1) (normalize z2) T =
  positives (normalize z2) (normalize z1) T /\
  (forall i j : nat,
     entry (negatives (normalize z2) (normalize z1) T) j i =
     entry (negatives (normalize z1) (normalize z2) T) i j) /\
  contrastive_loss z2 z1 T =
  - mean (map (fun p => fst p - snd p)
            (combine (positives (normalize z1) (normalize z2) T)
               (map logsumexp (negatives (normalize z2) (normalize z1) T)))).
Proof.
  assert (Hpos : forall a b : matrix, positives a b T = positives b a T).
  { unfold positives.
    induction a as [|r a IH]; intros [|c b]; cbn [map combine fst snd];
      try reflexivity.
    now rewrite IH, (dot_comm r c). }
  split; [apply Hpos|]. split.
  - intros i j. rewrite !entry_negatives.
    rewrite (andb_comm (j <? _)%nat). rewrite (Nat.eqb_sym i j).
    now rewrite dot_comm.
  - unfold contrastive_loss. now rewrite (Hpos (normalize z2)).
Qed.

(* --------------------------------------------------------------------- *)
(** *** Further properties of the losses *)




Lemma mse_loss_same (a : matrix) : mse_loss a a = 0.
Proof.
  unfold mse_loss, mean.
  assert (Hz : forall l : list R,
            sumR (map (fun p => (fst p - snd p) * (fst p - snd p))
                    (combine l l)) = 0).
  { induction l as [|x l IH]; cbn [combine map sumR fold_right fst snd];
      [reflexivity|].
    fold (sumR (map (fun p => (fst p - snd p) * (fst p - snd p))
                  (combine l l))).
    rewrite IH. ring. }
  rewrite Hz. unfold Rdiv. ring.
Qed.




Lemma sumR_sq_nonneg (v : list R) : 0 <= sumR (map (fun a => a * a) v).
Proof.
  induction v as [|a v IH]; cbn [map sumR fold_right]; [lra|].
  fold (sumR (map (fun a => a * a) v)).
  pose proof (Rle_0_sqr a) as H. unfold Rsqr in H. lra.
Qed.







End Loss.

(* ===================================================================== *)
(** ** Encoder, denoiser and the model's forward pass
       (hgcl.py, lines 90-185) *)
(* ===================================================================== *)

Module Model.
Import Loss.
Local Open Scope R_scope.

(** [edge_index] and [hyperedge_index]: tensors of shape [2, E]. *)
Definition index_tensor : Type := (list nat * list nat)%type.

Definition zip_with {A B C} (f : A -> B -> C) (a : list A) (b : list B)
  : list C :=
  map (fun p => f (fst p) (snd p)) (combine a b).

(** Entrywise operations on tensors of one shape. *)
Definition madd (a b : matrix) : matrix := zip_with (zip_with Rplus) a b.
Definition mmul (a b : matrix) : matrix := zip_with (zip_with Rmult) a b.
Definition mscale (c : R) (m : matrix) : matrix := map (map (Rmult c)) m.
Definition mdiv (m : matrix) (c : R) : matrix := map (map (fun v => v / c)) m.

(** [F.relu] *)
Definition relu (m : matrix) : matrix := map (map (Rmax 0)) m.

(** *** [HGCLEncoder] *)

Record HGCLEncoder : Type := {
  gcn1 : matrix -> index_tensor -> matrix;
  gcn2 : matrix -> index_tensor -> matrix;
  hgc1 : matrix -> index_tensor -> matrix;
  hgc2 : matrix -> index_tensor -> matrix;
  project_0 : matrix -> matrix;    (* nn.Linear(hidden, out) *)
  project_2 : matrix -> matrix;    (* nn.Linear(out, out) *)
  ln1 : matrix -> matrix;
  ln2 : matrix -> matrix
}.

(** [self.project]: linear, ReLU, linear. *)
Definition project (enc : HGCLEncoder) (h : matrix) : matrix :=
  project_2 enc (relu (project_0 enc h)).

(** [HGCLEncoder.forward(x, edge_index, hyperedge_index=None)] *)
Definition encoder_forward (enc : HGCLEncoder) (x : matrix)
  (edge_index : index_tensor) (hyperedge_index : option index_tensor)
  : matrix :=
  let h1 := relu (ln1 enc (gcn1 enc x edge_index)) in
  let h1 := relu (ln1 enc (gcn2 enc h1 edge_index)) in
  let h :=
    match hyperedge_index with
    | Some hyperedge_index =>
        let h2 := relu (ln2 enc (hgc1 enc x hyperedge_index)) in
        let h2 := relu (ln2 enc (hgc2 enc h2 hyperedge_index)) in
        mdiv (madd h1 h2) 2
    | None => h1
    end in
  project enc h.

(** The two paths, as the specification words them: two convolutions, each
    followed by layer normalisation and ReLU. *)
Definition graph_view (gcn_a gcn_b : matrix -> index_tensor -> matrix)
  (norm : matrix -> matrix) (x : matrix) (edge_index : index_tensor)
  : matrix :=
  relu (norm (gcn_b (relu (norm (gcn_a x edge_index))) edge_index)).

Definition graph_path (enc : HGCLEncoder) (x : matrix)
  (edge_index : index_tensor) : matrix :=
  graph_view (gcn1 enc) (gcn2 enc) (ln1 enc) x edge_index.

Definition hypergraph_path (enc : HGCLEncoder) (x : matrix)
  (hyperedge_index : index_tensor) : matrix :=
  graph_view (hgc1 enc) (hgc2 enc) (ln2 enc) x hyperedge_index.

(** *** [DiffusionDenoiser] *)

Record DiffusionDenoiser : Type := {
  time_mlp_0 : matrix -> matrix;   (* nn.Linear(1, channels) *)
  time_mlp_2 : matrix -> matrix;   (* nn.Linear(channels, channels) *)
  conv1 : matrix -> index_tensor -> matrix;
  conv2 : matrix -> index_tensor -> matrix;
  den_ln : matrix -> matrix        (* self.ln *)
}.

Definition time_mlp (den : DiffusionDenoiser) (t : matrix) : matrix :=
  time_mlp_2 den (relu (time_mlp_0 den t)).

(** [t.view(-1, 1)] *)
Definition view_column (t : list R) : matrix := map (fun v => [v]) t.

(** [t_emb.expand(n, -1)] for a tensor with a single row. *)
Definition expand (t_emb : matrix) (n : nat) : matrix :=
  match t_emb with
  | [r] => repeat r n
  | _ => t_emb
  end.

(** [DiffusionDenoiser.forward(h_noisy, edge_index, t)] *)
Definition denoiser_forward (den : DiffusionDenoiser) (h_noisy : matrix)
  (edge_index : index_tensor) (t : list R) : matrix :=
  let t := view_column t in
  let t_emb := time_mlp den t in
  let t_emb := expand t_emb (length h_noisy) in
  let h := madd h_noisy t_emb in
  let h := relu (den_ln den (conv1 den h edge_index)) in
  conv2 den h edge_index.

(** *** [H_GCL] *)

Record H_GCL : Type := {
  encoder_x : HGCLEncoder;
  encoder_y : HGCLEncoder;
  denoiser : DiffusionDenoiser
}.

(** The constants that the model reads. *)
Record hyperparameters : Type := {
  GAMMA : R;
  T_DIFFUSION : nat;
  TEMPERATURE : R;
  MASK_RATIO : R;
  EDGE_DROP_RATIO : R;
  BETA_START : R;
  BETA_END : R
}.

Definition script_hyperparameters : hyperparameters :=
  {| GAMMA := Config.GAMMA; T_DIFFUSION := Config.T_DIFFUSION;
     TEMPERATURE := Config.TEMPERATURE; MASK_RATIO := Config.MASK_RATIO;
     EDGE_DROP_RATIO := Config.EDGE_DROP_RATIO;
     BETA_START := Config.BETA_START; BETA_END := Config.BETA_END |}.

(** The random draws of one forward pass: [torch.rand_like],
    [dropout_edge(..., force_undirected=True)[0]], [random.randint] and
    [torch.randn_like]. *)
Record draws : Type := {
  rand_like : matrix -> matrix;
  dropout_edge : index_tensor -> R -> index_tensor;
  randint : nat -> nat -> nat;
  randn_like : matrix -> matrix
}.

(** [torch.linspace(start, stop, steps)] and [torch.cumprod(v, dim=0)] *)
Definition linspace (start stop : R) (steps : nat) : list R :=
  map (fun i => start + INR i * ((stop - start) / INR (steps - 1)))
    (seq 0 steps).

Fixpoint cumprod_from (acc : R) (v : list R) : list R :=
  match v with
  | [] => []
  | a :: rest => acc * a :: cumprod_from (acc * a) rest
  end.

Definition cumprod (v : list R) : list R := cumprod_from 1 v.

Section Forward.
Variable hp : hyperparameters.
Variable model : H_GCL.
Variable rng : draws.
Variable x : matrix.
Variables edge_index hyperedge_index : index_tensor.

(** [__init__], lines 148-150. *)
Definition beta : list R := linspace (BETA_START hp) (BETA_END hp) (T_DIFFUSION hp).
Definition alpha : list R := map (fun b => 1 - b) beta.
Definition alpha_cum : list R := cumprod alpha.

(** [augment], lines 152-158. *)
Definition mask : matrix :=
  map (map (fun u => if Rlt_dec (MASK_RATIO hp) u then 1 else 0))
    (rand_like rng x).
Definition x_bar : matrix := mmul x mask.
Definition edge_index_bar : index_tensor :=
  dropout_edge rng edge_index (EDGE_DROP_RATIO hp).

(** [forward], lines 165-185: one definition per local variable. *)
Definition h_x : matrix :=
  encoder_forward (encoder_x model) x_bar edge_index_bar None.
Definition h_y : matrix :=
  encoder_forward (encoder_y model) x_bar edge_index_bar (Some hyperedge_index).
Definition loss_c : R := contrastive_loss h_x h_y (TEMPERATURE hp).
Definition t : nat := randint rng 0 (T_DIFFUSION hp - 1).
Definition sqrt_alpha_cum : R := sqrt (nth t alpha_cum 0).
Definition sqrt_one_minus : R := sqrt (1 - nth t alpha_cum 0).
Definition noise : matrix := randn_like rng h_x.
Definition h_x_noisy : matrix :=
  madd (mscale sqrt_alpha_cum h_x) (mscale sqrt_one_minus noise).
Definition t_tensor : list R := [INR t / INR (T_DIFFUSION hp)].
Definition h_x_hat : matrix :=
  denoiser_forward (denoiser model) h_x_noisy edge_index_bar t_tensor.
Definition loss_g : R := mse_loss h_x_hat h_x.
(** Line 184, over the real numbers. Its evaluation in float32, where a
    product with an infinite [loss_g] is [inf] or [nan], is
    [Float32.total_loss]. *)
Definition loss : R := GAMMA hp * loss_c + (1 - GAMMA hp) * loss_g.

(** [return loss, h_x.detach()]: [detach] keeps the values. *)
Definition forward : R * matrix := (loss, h_x).

End Forward.

(* --------------------------------------------------------------------- *)
(** *** Entries of entrywise operations *)

Lemma nth_zip_with {A B C} (f : A -> B -> C) (a : list A) (b : list B)
  (n : nat) (da : A) (db : B) (dc : C) :
  (n < length a)%nat -> (n < length b)%nat ->
  nth n (zip_with f a b) dc = f (nth n a da) (nth n b db).
Proof.
  unfold zip_with. revert b n.
  induction a as [|x a IH]; intros [|y b] [|n] Ha Hb; cbn in *; try lia;
    try reflexivity.
  apply IH; lia.
Qed.

Lemma entry_madd (a b : matrix) (i j : nat) :
  (i < length a)%nat -> (i < length b)%nat ->
  (j < length (nth i a []))%nat -> (j < length (nth i b []))%nat ->
  entry (madd a b) i j = entry a i j + entry b i j.
Proof.
  intros Ha Hb Hja Hjb. unfold entry, madd.
  rewrite (nth_zip_with _ a b i [] [] []) by assumption.
  now rewrite (nth_zip_with _ _ _ j 0 0 0) by assumption.
Qed.

Lemma nth_map_row {A B} (f : A -> B) (l : list A) (n : nat) (d : A) (e : B) :
  (n < length l)%nat -> nth n (map f l) e = f (nth n l d).
Proof.
  intros H. rewrite (nth_map_in_range f l n d e).
  apply Nat.ltb_lt in H. now rewrite H.
Qed.

Lemma entry_map (f : R -> R) (m : matrix) (i j : nat) :
  (i < length m)%nat -> (j < length (nth i m []))%nat ->
  entry (map (map f) m) i j = f (entry m i j).
Proof.
  intros Hi Hj. unfold entry.
  rewrite (nth_map_row (map f) m i [] []) by assumption.
  now rewrite (nth_map_row f _ j 0 0) by assumption.
Qed.

Lemma row_length_map (f : R -> R) (m : matrix) (i : nat) :
  length (nth i (map (map f) m) []) = length (nth i m []).
Proof.
  rewrite (nth_map_in_range (map f) m i [] []).
  destruct (i <? length m)%nat eqn:E; [apply length_map|].
  apply Nat.ltb_ge in E. now rewrite nth_overflow.
Qed.

Lemma row_length_shape (a b : matrix) (i : nat) :
  map (@length R) a = map (@length R) b ->
  length a = length b /\ length (nth i a []) = length (nth i b []).
Proof.
  intros H. split.
  - now rewrite <- (length_map (@length R) a), H, length_map.
  - revert b i H. induction a as [|r a IH]; intros [|r' b] i H;
      try discriminate; [reflexivity|].
    injection H as Hr Hrest. destruct i as [|i]; cbn [nth]; auto.
Qed.

(* --------------------------------------------------------------------- *)
(** *** The claims about the encoder and the forward pass *)

(** C9. The encoder always computes the graph-view path
    ([gcn1], [ln1], ReLU, [gcn2], [ln1], ReLU). Without a hyperedge tensor
    the projection head is applied to it alone. With one, the
    hypergraph-view path runs through [hgc1], [hgc2] and [ln2] only, the
    graph-view path through [gcn1], [gcn2] and [ln1] only, and the
    projection head is applied to the entrywise mean of the two. *)
Theorem encoder_forward_paths (enc : HGCLEncoder) (x : matrix)
  (edge_index : index_tensor) :
  encoder_forward enc x edge_index None =
    project enc (graph_path enc x edge_index) /\
  (forall hyperedge_index : index_tensor,
     encoder_forward enc x edge_index (Some hyperedge_index) =
       project enc (mdiv (madd (graph_path enc x edge_index)
                            (hypergraph_path enc x hyperedge_index)) 2)) /\
  (forall (a b : matrix) (i j : nat),
     (i < length a)%nat -> (i < length b)%nat ->
     (j < length (nth i a []))%nat -> (j < length (nth i b []))%nat ->
     entry (mdiv (madd a b) 2) i j = (entry a i j + entry b i j) / 2) /\
  (forall enc' : HGCLEncoder,
     gcn1 enc' = gcn1 enc -> gcn2 enc' = gcn2 enc -> ln1 enc' = ln1 enc ->
     graph_path enc' x edge_index = graph_path enc x edge_index) /\
  (forall (enc' : HGCLEncoder) (hyperedge_index : index_tensor),
     hgc1 enc' = hgc1 enc -> hgc2 enc' = hgc2 enc -> ln2 enc' = ln2 enc ->
     hypergraph_path enc' x hyperedge_index =
     hypergraph_path enc x hyperedge_index).
Proof.
  split; [reflexivity|]. split; [reflexivity|]. split; [|split].
  - intros a b i j Ha Hb Hja Hjb. unfold mdiv.
    assert (Hlen : length (madd a b) = Nat.min (length a) (length b)).
    { unfold madd, zip_with. now rewrite length_map, length_combine. }
    assert (Hrow : length (nth i (madd a b) []) =
                   Nat.min (length (nth i a [])) (length (nth i b []))).
    { unfold madd. rewrite (nth_zip_with _ a b i [] [] []) by assumption.
      unfold zip_with. now rewrite length_map, length_combine. }
    rewrite entry_map by lia. now rewrite entry_madd.
  - intros enc' H1 H2 H3. unfold graph_path. now rewrite H1, H2, H3.
  - intros enc' he H1 H2 H3. unfold hypergraph_path. now rewrite H1, H2, H3.
Qed.

(** Concrete parts for running the forward pass: layers that return their
    input, a denoiser that returns zeros, and fixed draws (no feature is
    masked, no edge dropped, the smallest timestep, the embedding itself as
    noise). *)
Definition identity_encoder : HGCLEncoder :=
  {| gcn1 := fun h _ => h; gcn2 := fun h _ => h;
     hgc1 := fun h _ => h; hgc2 := fun h _ => h;
     project_0 := fun h => h; project_2 := fun h => h;
     ln1 := fun h => h; ln2 := fun h => h |}.

Definition identity_denoiser : DiffusionDenoiser :=
  {| time_mlp_0 := fun h => h; time_mlp_2 := fun h => h;
     conv1 := fun h _ => h; conv2 := fun h _ => h; den_ln := fun h => h |}.

Definition zero_denoiser : DiffusionDenoiser :=
  {| time_mlp_0 := fun h => h; time_mlp_2 := fun h => h;
     conv1 := fun h _ => h; conv2 := fun h _ => map (map (fun _ => 0)) h;
     den_ln := fun h => h |}.

Definition fixed_draws : draws :=
  {| rand_like := fun m => map (map (fun _ => 1)) m;
     dropout_edge := fun e _ => e;
     randint := fun lo _ => lo;
     randn_like := fun m => m |}.

Definition model_a : H_GCL :=
  {| encoder_x := identity_encoder; encoder_y := identity_encoder;
     denoiser := identity_denoiser |}.

(** Two denoisers that agree on one adjacency: the same time embedding and
    normalisation, and convolutions that coincide on [edge_index]. *)
Definition agree_on (edge_index : index_tensor) (d d' : DiffusionDenoiser)
  : Prop :=
  time_mlp_0 d' = time_mlp_0 d /\ time_mlp_2 d' = time_mlp_2 d /\
  den_ln d' = den_ln d /\
  (forall h, conv1 d' h edge_index = conv1 d h edge_index) /\
  (forall h, conv2 d' h edge_index = conv2 d h edge_index).

Lemma denoiser_forward_agree (edge_index : index_tensor)
  (d d' : DiffusionDenoiser) (h : matrix) (t : list R) :
  agree_on edge_index d d' ->
  denoiser_forward d' h edge_index t = denoiser_forward d h edge_index t.
Proof.
  intros (H0 & H2 & Hln & H1c & H2c). unfold denoiser_forward, time_mlp.
  now rewrite H0, H2, Hln, H1c, H2c.
Qed.

(** C8. Given that [random.randint(lo, hi)] lies in [lo..hi] and that
    [torch.randn_like] returns a tensor of the shape of its argument: the
    timestep [t] is [randint(0, T - 1)], so [t < T] and [0 <= t / T < 1];
    the noise is drawn in the shape of [h_x]; every entry of [h_x_noisy] is
    [sqrt(alpha_cum[t]) * h_x + sqrt(1 - alpha_cum[t]) * noise]; the
    denoiser is applied to [h_x_noisy], the edge-dropped adjacency and
    [[t / T]]; and what the denoiser does on any other adjacency, the
    original one included, has no effect on its output here. *)
Theorem forward_diffusion_step (hp : hyperparameters) (model : H_GCL)
  (rng : draws) (x : matrix) (edge_index : index_tensor) :
  (forall lo hi : nat, (lo <= hi)%nat -> (lo <= randint rng lo hi <= hi)%nat) ->
  (forall m : matrix, map (@length R) (randn_like rng m) = map (@length R) m) ->
  (1 <= T_DIFFUSION hp)%nat ->
  let h := h_x hp model rng x edge_index in
  let z := noise hp model rng x edge_index in
  let ac := nth (t hp rng) (alpha_cum hp) 0 in
  t hp rng = randint rng 0 (T_DIFFUSION hp - 1) /\
  (t hp rng < T_DIFFUSION hp)%nat /\
  0 <= INR (t hp rng) / INR (T_DIFFUSION hp) < 1 /\
  z = randn_like rng h /\
  map (@length R) z = map (@length R) h /\
  (forall i j : nat,
     (i < length h)%nat -> (j < length (nth i h []))%nat ->
     entry (h_x_noisy hp model rng x edge_index) i j =
     sqrt ac * entry h i j + sqrt (1 - ac) * entry z i j) /\
  edge_index_bar hp rng edge_index =
    dropout_edge rng edge_index (EDGE_DROP_RATIO hp) /\
  h_x_hat hp model rng x edge_index =
    denoiser_forward (denoiser model) (h_x_noisy hp model rng x edge_index)
      (edge_index_bar hp rng edge_index)
      [INR (t hp rng) / INR (T_DIFFUSION hp)] /\
  (forall model' : H_GCL,
     encoder_x model' = encoder_x model ->
     agree_on (edge_index_bar hp rng edge_index)
       (denoiser model) (denoiser model') ->
     h_x_hat hp model' rng x edge_index = h_x_hat hp model rng x edge_index).
Proof.
  intros Hint Hshape HT h z ac.
  assert (Ht : (t hp rng < T_DIFFUSION hp)%nat).
  { unfold t. specialize (Hint 0%nat (T_DIFFUSION hp - 1)%nat ltac:(lia)). lia. }
  split; [reflexivity|]. split; [exact Ht|]. split.
  { assert (0 < INR (T_DIFFUSION hp)) by (apply lt_0_INR; lia).
    pose proof (pos_INR (t hp rng)). pose proof (lt_INR _ _ Ht).
    split.
    - apply Rmult_le_pos; [assumption|]. left. now apply Rinv_0_lt_compat.
    - apply Rmult_lt_reg_r with (INR (T_DIFFUSION hp)); [assumption|].
      unfold Rdiv. rewrite Rmult_assoc, Rinv_l by lra. lra. }
  split; [reflexivity|]. split; [apply Hshape|]. split.
  { intros i j Hi Hj.
    destruct (row_length_shape z h i (Hshape h)) as [Hlen Hrow].
    unfold h_x_noisy, sqrt_alpha_cum, sqrt_one_minus, mscale. fold h z ac.
    rewrite entry_madd;
      rewrite ?length_map, ?row_length_map; try lia.
    now rewrite !entry_map by lia. }
  split; [reflexivity|]. split; [reflexivity|].
  intros model' Hx Hagree. unfold h_x_hat.
  rewrite (denoiser_forward_agree _ _ _ _ _ Hagree).
  unfold h_x_noisy, noise, h_x. now rewrite Hx.
Qed.

Lemma forward_diffusion_step_witness :
  (t script_hyperparameters fixed_draws < T_DIFFUSION script_hyperparameters)%nat /\
  h_x_hat script_hyperparameters model_a fixed_draws [[1; 2]; [3; 4]]
    ([0%nat], [1%nat]) =
  denoiser_forward (denoiser model_a)
    (h_x_noisy script_hyperparameters model_a fixed_draws [[1; 2]; [3; 4]]
       ([0%nat], [1%nat]))
    (edge_index_bar script_hyperparameters fixed_draws ([0%nat], [1%nat]))
    [INR (t script_hyperparameters fixed_draws)
     / INR (T_DIFFUSION script_hyperparameters)].
Proof.
  assert (Hint : forall lo hi : nat, (lo <= hi)%nat ->
                   (lo <= randint fixed_draws lo hi <= hi)%nat)
    by (intros lo hi Hle; cbn; lia).
  assert (Hshape : forall m : matrix,
            map (@length R) (randn_like fixed_draws m) = map (@length R) m)
    by (intros m; reflexivity).
  assert (HT : (1 <= T_DIFFUSION script_hyperparameters)%nat)
    by (cbn; unfold Config.T_DIFFUSION; lia).
  pose proof (forward_diffusion_step script_hyperparameters model_a
                fixed_draws [[1; 2]; [3; 4]] ([0%nat], [1%nat])
                Hint Hshape HT) as H.
  cbv zeta in H. destruct H as (_ & Ht & _ & _ & _ & _ & _ & Hhat & _).
  split; [exact Ht|exact Hhat].
Defined.

(** The embedding returned by [forward] is [h_x]: the projection of the
    graph-view path of [encoder_x] on the augmented features and adjacency.
    It is the same for every [encoder_y], every hyperedge tensor, every
    denoiser and every timestep and noise draw. The other encoder enters the
    returned pair through [loss_c] only: [loss_g] does not depend on it. *)
Lemma forward_embedding_graph_view (hp : hyperparameters) (model : H_GCL)
  (rng : draws) (x : matrix) (edge_index hyperedge_index : index_tensor) :
  snd (forward hp model rng x edge_index hyperedge_index) =
    encoder_forward (encoder_x model) (x_bar hp rng x)
      (edge_index_bar hp rng edge_index) None /\
  snd (forward hp model rng x edge_index hyperedge_index) =
    project (encoder_x model)
      (graph_path (encoder_x model) (x_bar hp rng x)
         (edge_index_bar hp rng edge_index)) /\
  (forall (model' : H_GCL) (rng' : draws) (hyperedge_index' : index_tensor),
     encoder_x model' = encoder_x model ->
     rand_like rng' = rand_like rng ->
     dropout_edge rng' = dropout_edge rng ->
     snd (forward hp model' rng' x edge_index hyperedge_index') =
     snd (forward hp model rng x edge_index hyperedge_index)) /\
  (forall model' : H_GCL,
     encoder_x model' = encoder_x model ->
     denoiser model' = denoiser model ->
     loss_g hp model' rng x edge_index = loss_g hp model rng x edge_index) /\
  fst (forward hp model rng x edge_index hyperedge_index) =
    GAMMA hp * contrastive_loss
                 (snd (forward hp model rng x edge_index hyperedge_index))
                 (h_y hp model rng x edge_index hyperedge_index)
                 (TEMPERATURE hp)
    + (1 - GAMMA hp) * loss_g hp model rng x edge_index.
Proof.
  split; [reflexivity|]. split; [reflexivity|]. split; [|split].
  - intros model' rng' he' Hx Hr Hd. cbn [forward snd].
    unfold h_x, x_bar, mask, edge_index_bar. now rewrite Hx, Hr, Hd.
  - intros model' Hx Hd.
    unfold loss_g, h_x_hat, h_x_noisy, noise, h_x. now rewrite Hx, Hd.
  - reflexivity.
Qed.

(* --------------------------------------------------------------------- *)
(** *** The noise schedule *)

Lemma nth_linspace (a b : R) (steps i : nat) :
  (i < steps)%nat ->
  nth i (linspace a b steps) 0 = a + INR i * ((b - a) / INR (steps - 1)).
Proof.
  intros Hi. unfold linspace.
  rewrite (nth_map_in_range _ _ i 0%nat 0), length_seq.
  apply Nat.ltb_lt in Hi as E. rewrite E. now rewrite seq_nth by exact Hi.
Qed.

Lemma linspace_between (a b : R) (steps i : nat) :
  0 <= a <= 1 -> 0 <= b <= 1 -> (i < steps)%nat ->
  0 <= nth i (linspace a b steps) 0 <= 1.
Proof.
  intros Ha Hb Hi. rewrite nth_linspace by exact Hi.
  destruct (Nat.eq_dec steps 1) as [->|Hs].
  - assert (i = 0%nat) as -> by lia. cbn [INR]. lra.
  - assert (Hd : 0 < INR (steps - 1)) by (apply lt_0_INR; lia).
    assert (Hi' : INR i <= INR (steps - 1)) by (apply le_INR; lia).
    pose proof (pos_INR i) as Hi0.
    set (d := INR (steps - 1)) in *. set (u := INR i) in *.
    assert (Hl : 0 <= u / d <= 1).
    { split.
      - apply Rmult_le_pos; [exact Hi0|]. left. now apply Rinv_0_lt_compat.
      - apply Rmult_le_reg_r with d; [exact Hd|].
        unfold Rdiv. rewrite Rmult_assoc, Rinv_l by lra. lra. }
    replace (a + u * ((b - a) / d)) with (a + (u / d) * (b - a))
      by (field; lra).
    nra.
Qed.

Lemma length_cumprod_from (acc : R) (v : list R) :
  length (cumprod_from acc v) = length v.
Proof.
  revert acc. induction v as [|a v IH]; intros acc; cbn; [reflexivity|].
  now rewrite IH.
Qed.

Lemma cumprod_from_bounds (acc : R) (v : list R) (i : nat) :
  0 <= acc ->
  (forall j, (j < length v)%nat -> 0 <= nth j v 0 <= 1) ->
  (i < length v)%nat ->
  0 <= nth i (cumprod_from acc v) 0 <= acc.
Proof.
  revert acc i. induction v as [|a v IH]; intros acc i Hacc Hv Hi;
    cbn [length] in Hi; [lia|].
  pose proof (Hv 0%nat ltac:(cbn; lia)) as Ha. cbn [nth] in Ha.
  destruct i as [|i]; cbn [cumprod_from nth].
  - nra.
  - assert (H : 0 <= nth i (cumprod_from (acc * a) v) 0 <= acc * a).
    { apply IH; [nra| |lia].
      intros j Hj. exact (Hv (S j) ltac:(cbn; lia)). }
    nra.
Qed.

Lemma cumprod_from_decreasing (acc : R) (v : list R) (i : nat) :
  0 <= acc ->
  (forall j, (j < length v)%nat -> 0 <= nth j v 0 <= 1) ->
  (S i < length v)%nat ->
  nth (S i) (cumprod_from acc v) 0 <= nth i (cumprod_from acc v) 0.
Proof.
  revert acc i. induction v as [|a v IH]; intros acc i Hacc Hv Hi;
    cbn [length] in Hi; [lia|].
  pose proof (Hv 0%nat ltac:(cbn; lia)) as Ha. cbn [nth] in Ha.
  assert (Hv' : forall j, (j < length v)%nat -> 0 <= nth j v 0 <= 1)
    by (intros j Hj; exact (Hv (S j) ltac:(cbn; lia))).
  destruct i as [|i]; cbn [cumprod_from nth].
  - apply cumprod_from_bounds; [nra|exact Hv'|lia].
  - apply IH; [nra|exact Hv'|lia].
Qed.

(** With both ends of the noise schedule between 0 and 1, [alpha_cum] has
    one entry per timestep, every entry lies between 0 and 1 and is at most
    the one before it, and the two coefficients of the noising formula are
    real numbers whose squares add up to 1. *)
Theorem noise_schedule_valid (hp : hyperparameters) :
  0 <= BETA_START hp <= 1 -> 0 <= BETA_END hp <= 1 ->
  length (alpha_cum hp) = T_DIFFUSION hp /\
  (forall t : nat, (t < T_DIFFUSION hp)%nat ->
     let a := nth t (alpha_cum hp) 0 in
     0 <= a <= 1 /\
     sqrt a * sqrt a + sqrt (1 - a) * sqrt (1 - a) = 1 /\
     ((S t < T_DIFFUSION hp)%nat -> nth (S t) (alpha_cum hp) 0 <= a)).
Proof.
  intros Hs He.
  assert (Hlen : length (alpha hp) = T_DIFFUSION hp).
  { unfold alpha, beta, linspace. now rewrite !length_map, length_seq. }
  assert (Halpha : forall j, (j < length (alpha hp))%nat ->
            0 <= nth j (alpha hp) 0 <= 1).
  { intros j Hj. rewrite Hlen in Hj. unfold alpha.
    rewrite (nth_map_in_range _ _ j 0 0).
    assert (E : (j <? length (beta hp))%nat = true).
    { apply Nat.ltb_lt. unfold beta, linspace.
      now rewrite length_map, length_seq. }
    rewrite E. pose proof (linspace_between _ _ _ j Hs He Hj) as Hb.
    unfold beta. lra. }
  split.
  - unfold alpha_cum, cumprod. now rewrite length_cumprod_from.
  - intros t Ht a.
    assert (Ha : 0 <= a <= 1).
    { unfold a, alpha_cum, cumprod.
      apply cumprod_from_bounds; [lra|exact Halpha|lia]. }
    split; [exact Ha|]. split.
    + rewrite !sqrt_sqrt by lra. ring.
    + intros Hst. unfold a, alpha_cum, cumprod.
      apply cumprod_from_decreasing; [lra|exact Halpha|lia].
Qed.

Lemma noise_schedule_valid_witness :
  length (alpha_cum script_hyperparameters) =
    T_DIFFUSION script_hyperparameters /\
  (forall t : nat, (t < T_DIFFUSION script_hyperparameters)%nat ->
     let a := nth t (alpha_cum script_hyperparameters) 0 in
     0 <= a <= 1 /\
     sqrt a * sqrt a + sqrt (1 - a) * sqrt (1 - a) = 1 /\
     ((S t < T_DIFFUSION script_hyperparameters)%nat ->
      nth (S t) (alpha_cum script_hyperparameters) 0 <= a)).
Proof.
  apply (noise_schedule_valid script_hyperparameters).
  - cbn. unfold Config.BETA_START. lra.
  - cbn. unfold Config.BETA_END. lra.
Defined.

(* --------------------------------------------------------------------- *)
(** *** Feature masking *)

Lemma entry_mmul (a b : matrix) (i j : nat) :
  (i < length a)%nat -> (i < length b)%nat ->
  (j < length (nth i a []))%nat -> (j < length (nth i b []))%nat ->
  entry (mmul a b) i j = entry a i j * entry b i j.
Proof.
  intros Ha Hb Hja Hjb. unfold entry, mmul.
  rewrite (nth_zip_with _ a b i [] [] []) by assumption.
  now rewrite (nth_zip_with _ _ _ j 0 0 0) by assumption.
Qed.

Lemma shape_zip_with (f : R -> R -> R) (a b : matrix) :
  map (@length R) b = map (@length R) a ->
  map (@length R) (zip_with (zip_with f) a b) = map (@length R) a.
Proof.
  unfold zip_with. revert b.
  induction a as [|r a IH]; intros [|r' b] H; cbn in *; try discriminate;
    [reflexivity|].
  injection H as Hr Hrest. f_equal; [|now apply IH].
  rewrite length_map, length_combine. lia.
Qed.

Lemma shape_map (f : R -> R) (m : matrix) :
  map (@length R) (map (map f) m) = map (@length R) m.
Proof.
  induction m as [|r m IH]; cbn; [reflexivity|].
  now rewrite length_map, IH.
Qed.

(** Given that [torch.rand_like] returns a tensor of the shape of [x]:
    the augmented features have the shape of [x]; an entry is kept when its
    random draw is above [MASK_RATIO] and is 0 otherwise, so masking never
    changes an entry into anything but 0. *)
Theorem augment_masks_features (hp : hyperparameters) (rng : draws)
  (x : matrix) :
  map (@length R) (rand_like rng x) = map (@length R) x ->
  map (@length R) (x_bar hp rng x) = map (@length R) x /\
  (forall i j : nat,
     (i < length x)%nat -> (j < length (nth i x []))%nat ->
     entry (x_bar hp rng x) i j =
       (if Rlt_dec (MASK_RATIO hp) (entry (rand_like rng x) i j)
        then entry x i j else 0) /\
     (entry (x_bar hp rng x) i j = entry x i j \/
      entry (x_bar hp rng x) i j = 0)).
Proof.
  intros Hshape.
  assert (Hmask : map (@length R) (mask hp rng x) = map (@length R) x).
  { unfold mask. now rewrite shape_map. }
  split.
  - unfold x_bar, mmul. now apply shape_zip_with.
  - intros i j Hi Hj.
    destruct (row_length_shape (mask hp rng x) x i Hmask) as [Hl Hr].
    destruct (row_length_shape (rand_like rng x) x i Hshape) as [Hl' Hr'].
    assert (E : entry (x_bar hp rng x) i j =
                if Rlt_dec (MASK_RATIO hp) (entry (rand_like rng x) i j)
                then entry x i j else 0).
    { unfold x_bar. rewrite entry_mmul by lia.
      unfold mask. rewrite entry_map by lia.
      destruct (Rlt_dec (MASK_RATIO hp) (entry (rand_like rng x) i j)); ring. }
    split; [exact E|]. rewrite E.
    destruct (Rlt_dec (MASK_RATIO hp) (entry (rand_like rng x) i j)); auto.
Qed.

Lemma augment_masks_features_witness :
  map (@length R) (x_bar script_hyperparameters fixed_draws [[1; 2]; [3; 4]]) =
  map (@length R) [[1; 2]; [3; 4]].
Proof.
  apply (augment_masks_features script_hyperparameters fixed_draws
           [[1; 2]; [3; 4]]).
  reflexivity.
Defined.

(* --------------------------------------------------------------------- *)
(** *** A denoiser that reproduces the clean embedding *)

(** When the denoiser returns the clean embedding [h_x], the diffusion loss
    is zero and the loss of the forward pass is [GAMMA * loss_c]. *)
Theorem perfect_denoiser_loss (hp : hyperparameters) (model : H_GCL)
  (rng : draws) (x : matrix) (edge_index hyperedge_index : index_tensor) :
  h_x_hat hp model rng x edge_index = h_x hp model rng x edge_index ->
  loss_g hp model rng x edge_index = 0 /\
  fst (forward hp model rng x edge_index hyperedge_index) =
    GAMMA hp * loss_c hp model rng x edge_index hyperedge_index.
Proof.
  intros H.
  assert (Hg : loss_g hp model rng x edge_index = 0).
  { unfold loss_g. rewrite H. apply mse_loss_same. }
  split; [exact Hg|]. cbn [forward fst]. unfold loss. rewrite Hg. ring.
Qed.

(** An encoder whose projection head returns zeros. *)
Definition zero_encoder : HGCLEncoder :=
  {| gcn1 := fun h _ => h; gcn2 := fun h _ => h;
     hgc1 := fun h _ => h; hgc2 := fun h _ => h;
     project_0 := fun h => h;
     project_2 := fun h => map (map (fun _ => 0)) h;
     ln1 := fun h => h; ln2 := fun h => h |}.

Definition model_zero : H_GCL :=
  {| encoder_x := zero_encoder; encoder_y := identity_encoder;
     denoiser := zero_denoiser |}.

Lemma perfect_denoiser_loss_witness :
  loss_g script_hyperparameters model_zero fixed_draws [[1]; [2]]
    ([0%nat], [1%nat]) = 0 /\
  fst (forward script_hyperparameters model_zero fixed_draws [[1]; [2]]
         ([0%nat], [1%nat]) ([0%nat], [1%nat])) =
    GAMMA script_hyperparameters *
    loss_c script_hyperparameters model_zero fixed_draws [[1]; [2]]
      ([0%nat], [1%nat]) ([0%nat], [1%nat]).
Proof.
  apply (perfect_denoiser_loss script_hyperparameters model_zero fixed_draws
           [[1]; [2]] ([0%nat], [1%nat]) ([0%nat], [1%nat])).
  reflexivity.
Defined.

End Model.

(* ===================================================================== *)
(** ** The combined loss in float32 (hgcl.py, lines 181-184) *)
(* ===================================================================== *)

(** [loss_c] and [loss_g] are [torch.float32] scalars and [GAMMA] is a Python
    float, so line 184 is evaluated in IEEE 754 arithmetic, where a product
    or a sum can be [inf] or [nan]. The values are the [spec_float]s of the
    Standard Library, with the precision and exponent range of binary32 for
    tensors and of binary64 for Python floats, rounded to nearest even. *)
Module Float32.

(** The entries of a float32 tensor, and Python's floats. *)
Definition float32 : Type := spec_float.
Definition float64 : Type := spec_float.

Definition prec32 : Z := 24.
Definition emax32 : Z := 128.
Definition prec64 : Z := 53.
Definition emax64 : Z := 1024.

Definition add32 : float32 -> float32 -> float32 := SFadd prec32 emax32.
Definition sub32 : float32 -> float32 -> float32 := SFsub prec32 emax32.
Definition mul32 : float32 -> float32 -> float32 := SFmul prec32 emax32.
Definition div32 : float32 -> float32 -> float32 := SFdiv prec32 emax32.
Definition sub64 : float64 -> float64 -> float64 := SFsub prec64 emax64.

(** An integer as a tensor entry, and as a Python float. *)
Definition of_Z32 (n : Z) : float32 := binary_normalize prec32 emax32 n 0 false.
Definition of_Z64 (n : Z) : float64 := binary_normalize prec64 emax64 n 0 false.

(** A Python float that meets a float32 tensor in [*] is rounded to
    float32. *)
Definition to_float32 (x : float64) : float32 :=
  match x with
  | S754_finite s m e => binary_round prec32 emax32 s m e
  | _ => x
  end.

Definition is_finite (x : float32) : bool :=
  match x with
  | S754_zero _ | S754_finite _ _ _ => true
  | S754_infinity _ | S754_nan => false
  end.

Definition signbit (x : float32) : bool :=
  match x with
  | S754_zero s | S754_infinity s | S754_finite s _ _ => s
  | S754_nan => false
  end.

(** [F.mse_loss(a, b)], line 181: the squared differences of the entries,
    their sum, and the division by their number. The sum is taken entry
    after entry here; Torch adds the same terms in blocks. *)
Definition squared_error (p : float32 * float32) : float32 :=
  mul32 (sub32 (fst p) (snd p)) (sub32 (fst p) (snd p)).

Definition sum32 (v : list float32) : float32 :=
  fold_left add32 v (S754_zero false).

Definition mse_loss (a b : list (list float32)) : float32 :=
  let sq := map squared_error (combine (concat a) (concat b)) in
  div32 (sum32 sq) (of_Z32 (Z.of_nat (length sq))).

(** Line 184, [loss = GAMMA * loss_c + (1 - GAMMA) * loss_g]: Python
    evaluates [1 - GAMMA] on its own floats, with [1] read as [1.0]. *)
Definition one64 : float64 := of_Z64 1.

Definition total_loss (GAMMA : float64) (loss_c loss_g : float32) : float32 :=
  add32 (mul32 (to_float32 GAMMA) loss_c)
        (mul32 (to_float32 (sub64 one64 GAMMA)) loss_g).

(** Lines 181-184, from the value of the contrastive loss, the output of the
    denoiser and the embedding it is compared with. *)
Definition forward_loss (GAMMA : float64) (loss_c : float32)
  (h_x_hat h_x : list (list float32)) : float32 :=
  let loss_g := mse_loss h_x_hat h_x in
  total_loss GAMMA loss_c loss_g.

(** Some float32 values: [1.0], [0.0], [0.5], [0.25] and [1e30]. *)
Definition one32 : float32 := S754_finite false 8388608 (-23).
Definition zero : float32 := S754_zero false.
Definition half : float32 := div32 (of_Z32 1) (of_Z32 2).
Definition quarter : float32 := div32 (of_Z32 1) (of_Z32 4).
Definition ten_pow_30 : float32 := of_Z32 (10 ^ 30).

(* --------------------------------------------------------------------- *)
(** *** Exact operations *)

(** Multiplying a float32 by [1.0] returns it: the product of the mantissas
    is shifted back by the 23 bits of the mantissa of [1.0], and nothing is
    rounded off. *)
Lemma mul32_one (c : float32) :
  valid_binary prec32 emax32 c = true -> mul32 one32 c = c.
Proof.
  destruct c as [s|s| |s m e]; try reflexivity.
  unfold valid_binary, bounded, canonical_mantissa. intros H.
  apply andb_prop in H. destruct H as [Hc He].
  apply Z.eqb_eq in Hc. apply Z.leb_le in He.
  unfold mul32, one32, SFmul. cbn [xorb].
  change (Pos.mul 8388608 m) with
    (m~0~0~0~0~0~0~0~0~0~0~0~0~0~0~0~0~0~0~0~0~0~0~0)%positive.
  unfold binary_round_aux.
  assert (Hs1 : shr_fexp prec32 emax32
            (Z.pos (m~0~0~0~0~0~0~0~0~0~0~0~0~0~0~0~0~0~0~0~0~0~0~0))
            (-23 + e) loc_Exact =
          ({| shr_m := Z.pos m; shr_r := false; shr_s := false |}, e)).
  { unfold shr_fexp. cbn [Zdigits2 digits2_pos shr_record_of_loc].
    replace (fexp prec32 emax32 _ - (-23 + e))%Z with 23%Z.
    - unfold shr. cbn [iter_pos shr_1 orb]. f_equal. lia.
    - match goal with |- _ = (fexp _ _ ?a - _)%Z =>
        replace a with (Z.pos (digits2_pos m) + e)%Z by lia end.
      rewrite Hc. lia. }
  rewrite Hs1. cbn [shr_m loc_of_shr_record round_nearest_even].
  assert (Hs2 : shr_fexp prec32 emax32 (Z.pos m) e loc_Exact =
          ({| shr_m := Z.pos m; shr_r := false; shr_s := false |}, e)).
  { unfold shr_fexp. cbn [Zdigits2 shr_record_of_loc]. rewrite Hc.
    rewrite Z.sub_diag. reflexivity. }
  rewrite Hs2. cbn [shr_m].
  apply Z.leb_le in He. now rewrite He.
Qed.

Lemma to_float32_one : to_float32 one64 = one32.
Proof. reflexivity. Qed.

Lemma to_float32_zero : to_float32 (sub64 one64 one64) = S754_zero false.
Proof. reflexivity. Qed.

(** Adding [0.0] changes [-0.0] only. *)
Lemma add32_zero (c : float32) :
  c <> S754_zero true -> add32 c (S754_zero false) = c.
Proof.
  destruct c as [[|]|s| |s m e]; try reflexivity. intros H. now elim H.
Qed.

(* --------------------------------------------------------------------- *)
(** *** The sign of a mean squared error *)

Lemma signbit_round_aux (s : bool) (m e : Z) (l : location) :
  signbit (binary_round_aux prec32 emax32 s m e l) = s \/
  binary_round_aux prec32 emax32 s m e l = S754_nan.
Proof.
  unfold binary_round_aux.
  destruct (shr_fexp prec32 emax32 m e l) as [mrs' e'].
  destruct (shr_fexp prec32 emax32 _ e' loc_Exact) as [mrs'' e''].
  destruct (shr_m mrs'') as [|p|p]; [now left| |now right].
  destruct (Z.leb e'' (emax32 - prec32)); now left.
Qed.

Lemma signbit_round (s : bool) (m : positive) (e : Z) :
  signbit (binary_round prec32 emax32 s m e) = s \/
  binary_round prec32 emax32 s m e = S754_nan.
Proof.
  unfold binary_round. destruct (shl_align _ _ _) as [mz ez].
  apply signbit_round_aux.
Qed.

Lemma signbit_squared_error (p : float32 * float32) :
  signbit (squared_error p) = false.
Proof.
  unfold squared_error. destruct (sub32 (fst p) (snd p)) as [s|s| |s m e];
    cbn [mul32 SFmul signbit]; try apply xorb_nilpotent; try reflexivity.
  destruct (signbit_round_aux (xorb s s) (Z.pos (m * m)) (e + e) loc_Exact)
    as [H|H].
  - unfold mul32, SFmul. rewrite H. apply xorb_nilpotent.
  - unfold mul32, SFmul. now rewrite H.
Qed.

Lemma signbit_add32 (a b : float32) :
  signbit a = false -> signbit b = false -> signbit (add32 a b) = false.
Proof.
  destruct a as [sa|sa| |sa ma ea], b as [sb|sb| |sb mb eb];
    cbn [signbit]; intros Ha Hb; subst; try reflexivity.
  unfold add32, SFadd. cbn [cond_Zopp].
  destruct (shl_align ma ea (Z.min ea eb)) as [ma' ea'].
  destruct (shl_align mb eb (Z.min ea eb)) as [mb' eb'].
  cbn [fst Z.add binary_normalize].
  destruct (signbit_round false (ma' + mb') (Z.min ea eb)) as [H|H];
    [exact H|now rewrite H].
Qed.

Lemma signbit_sum32_from (v : list float32) (acc : float32) :
  signbit acc = false -> Forall (fun x => signbit x = false) v ->
  signbit (fold_left add32 v acc) = false.
Proof.
  revert acc. induction v as [|x v IH]; intros acc Hacc Hv; [exact Hacc|].
  inversion Hv; subst. cbn [fold_left]. apply IH; [|assumption].
  now apply signbit_add32.
Qed.

Lemma signbit_of_Z32 (n : nat) : signbit (of_Z32 (Z.of_nat n)) = false.
Proof.
  unfold of_Z32, binary_normalize. destruct (Z.of_nat n) as [|p|p] eqn:E;
    [reflexivity| |lia].
  destruct (signbit_round false p 0) as [H|H]; [exact H|now rewrite H].
Qed.

Lemma signbit_div32 (a b : float32) :
  signbit a = false -> signbit b = false -> signbit (div32 a b) = false.
Proof.
  destruct a as [sa|sa| |sa ma ea], b as [sb|sb| |sb mb eb];
    cbn [signbit]; intros Ha Hb; subst; try reflexivity.
  unfold div32, SFdiv.
  destruct (SFdiv_core_binary prec32 emax32 (Z.pos ma) ea (Z.pos mb) eb)
    as [[mz ez] lz].
  destruct (signbit_round_aux (xorb false false) mz ez lz) as [H|H];
    [exact H|now rewrite H].
Qed.

(** A mean squared error is never negative: it is [0.0], a positive number,
    [inf] or [nan]. *)
Lemma signbit_mse_loss (a b : list (list float32)) :
  signbit (mse_loss a b) = false.
Proof.
  unfold mse_loss. apply signbit_div32; [|apply signbit_of_Z32].
  apply signbit_sum32_from; [reflexivity|].
  apply Forall_forall. intros x Hx. apply in_map_iff in Hx.
  destruct Hx as [p [<- _]]. apply signbit_squared_error.
Qed.

(* --------------------------------------------------------------------- *)
(** *** The combined loss with [GAMMA = 1.0] *)

Lemma total_loss_finite (loss_c loss_g : float32) :
  valid_binary prec32 emax32 loss_c = true ->
  is_finite loss_g = true -> signbit loss_g = false ->
  total_loss one64 loss_c loss_g = add32 loss_c (S754_zero false).
Proof.
  intros Hv Hf Hs. unfold total_loss.
  rewrite to_float32_one, to_float32_zero, (mul32_one loss_c Hv).
  destruct loss_g as [s|s| |s m e]; try discriminate; cbn in Hs; subst;
    reflexivity.
Qed.

Lemma total_loss_not_finite (loss_c loss_g : float32) :
  is_finite loss_g = false -> total_loss one64 loss_c loss_g = S754_nan.
Proof.
  intros Hf. unfold total_loss. rewrite to_float32_zero.
  destruct loss_g as [s|s| |s m e]; try discriminate;
    cbn [mul32 SFmul]; unfold add32;
    destruct (mul32 (to_float32 one64) loss_c); reflexivity.
Qed.

(** With [GAMMA = 1.0] the loss does depend on the output of the denoiser:
    for a contrastive loss of [0.5] and an embedding [[0.0]], the output
    [[0.0]] gives the loss [0.5], and the output [[1e30]], whose squared
    error overflows to [inf], gives [0.0 * inf = nan]. *)
Lemma forward_loss_depends_on_denoiser :
  mse_loss [[ten_pow_30]] [[zero]] = S754_infinity false /\
  forward_loss one64 half [[ten_pow_30]] [[zero]] = S754_nan /\
  forward_loss one64 half [[zero]] [[zero]] = half /\
  forward_loss one64 half [[ten_pow_30]] [[zero]] <>
  forward_loss one64 half [[zero]] [[zero]].
Proof.
  assert (H1 : forward_loss one64 half [[ten_pow_30]] [[zero]] = S754_nan)
    by (vm_compute; reflexivity).
  assert (H2 : forward_loss one64 half [[zero]] [[zero]] = half)
    by (vm_compute; reflexivity).
  split; [vm_compute; reflexivity|]. split; [exact H1|]. split; [exact H2|].
  rewrite H1, H2. discriminate.
Qed.

(** C7. The loss returned by [forward] combines the contrastive loss of the
    two views and the squared error of the denoiser as
    [GAMMA * loss_c + (1 - GAMMA) * loss_g], with [GAMMA] a constant of the
    run; line 184 evaluates this in float32. With [GAMMA = 1.0] and a finite
    [loss_g] the result is [loss_c + 0.0], that is [loss_c] unless [loss_c]
    is [-0.0], so it is the same for all outputs of the denoiser whose
    squared error is finite. With [GAMMA = 1.0] and a [loss_g] that is [inf]
    or [nan] the result is [nan]. *)
Theorem forward_loss_gamma_one (hp : Model.hyperparameters)
  (model : Model.H_GCL) (rng : Model.draws) (x : Loss.matrix)
  (edge_index hyperedge_index : Model.index_tensor)
  (GAMMA : float64) (loss_c loss_g : float32)
  (h_x_hat h_x_hat' h_x : list (list float32)) :
  valid_binary prec32 emax32 loss_c = true ->
  (fst (Model.forward hp model rng x edge_index hyperedge_index) =
     (Model.GAMMA hp * Model.loss_c hp model rng x edge_index hyperedge_index
      + (1 - Model.GAMMA hp) * Model.loss_g hp model rng x edge_index)%R /\
   Model.loss_c hp model rng x edge_index hyperedge_index =
     Loss.contrastive_loss (Model.h_x hp model rng x edge_index)
       (Model.h_y hp model rng x edge_index hyperedge_index)
       (Model.TEMPERATURE hp) /\
   Model.loss_g hp model rng x edge_index =
     Loss.mse_loss (Model.h_x_hat hp model rng x edge_index)
       (Model.h_x hp model rng x edge_index)) /\
  forward_loss GAMMA loss_c h_x_hat h_x =
    add32 (mul32 (to_float32 GAMMA) loss_c)
          (mul32 (to_float32 (sub64 one64 GAMMA)) (mse_loss h_x_hat h_x)) /\
  (is_finite loss_g = true -> signbit loss_g = false ->
     total_loss one64 loss_c loss_g = add32 loss_c (S754_zero false) /\
     (loss_c <> S754_zero true -> total_loss one64 loss_c loss_g = loss_c)) /\
  (is_finite (mse_loss h_x_hat h_x) = true ->
     is_finite (mse_loss h_x_hat' h_x) = true ->
     forward_loss one64 loss_c h_x_hat h_x =
     forward_loss one64 loss_c h_x_hat' h_x) /\
  (is_finite loss_g = false -> total_loss one64 loss_c loss_g = S754_nan).
Proof.
  intros Hv. split; [repeat split|]. split; [reflexivity|].
  split; [|split].
  - intros Hf Hs. rewrite (total_loss_finite loss_c loss_g Hv Hf Hs).
    split; [reflexivity|]. apply add32_zero.
  - intros Hf Hf'. unfold forward_loss.
    rewrite (total_loss_finite loss_c _ Hv Hf (signbit_mse_loss _ _)).
    now rewrite (total_loss_finite loss_c _ Hv Hf' (signbit_mse_loss _ _)).
  - apply total_loss_not_finite.
Qed.

Lemma forward_loss_gamma_one_witness :
  valid_binary prec32 emax32 half = true /\
  total_loss one64 half quarter = half /\
  forward_loss one64 half [[quarter]] [[zero]] =
  forward_loss one64 half [[zero]] [[zero]].
Proof.
  split; [reflexivity|].
  destruct (forward_loss_gamma_one Model.script_hyperparameters Model.model_a
              Model.fixed_draws [[1; 2]; [3; 4]]%R ([0], [1]) ([0], [1])
              one64 half quarter [[quarter]] [[zero]] [[zero]] eq_refl)
    as (_ & _ & Hc & Hd & _).
  split.
  - apply (proj2 (Hc eq_refl eq_refl)). discriminate.
  - apply Hd; reflexivity.
Defined.

End Float32.

(* ===================================================================== *)
(** ** The script: the forward pass inside the training loop
       (hgcl.py, lines 269-327) *)
(* ===================================================================== *)

Module Script.
Import Loss Model Training.

Section Run.
Variable hp : hyperparameters.
Variable x : matrix.
Variables edge_index hyperedge_index : index_tensor.

(** Per epoch: the model after the optimiser step, the random draws of the
    evaluation pass, and the float read from the training loss. *)
Variable model_at : nat -> H_GCL.
Variable eval_draws : nat -> draws.
Variable loss_item : nat -> pyfloat.

(** Lines 273-282: [loss] comes from the training pass, [val_emb] is the
    second component of the evaluation pass. *)
Definition script_epoch (e : nat) : pyfloat * matrix :=
  (loss_item e,
   snd (forward hp (model_at e) (eval_draws e) x edge_index hyperedge_index)).

(** The run of the script; line 327 saves [best_emb] of its final state. *)
Definition script_run (evaluate : matrix -> mask -> Q)
  (NUM_EPOCHS PATIENCE : nat) : Py.result (state matrix) :=
  train matrix evaluate script_epoch NUM_EPOCHS PATIENCE.

End Run.

(** C10. The embedding returned by [forward] is the output of
    [encoder_x] alone, called without a hyperedge tensor on the augmented
    features and adjacency: the projection of its graph-view path. It does
    not change with [encoder_y], the hyperedge tensor, the denoiser, the
    timestep or the noise; [encoder_y] reaches the returned pair only through
    the contrastive term of the loss. The embedding that the script
    evaluates and saves is this embedding for one of the epochs run. *)
Theorem returned_embedding_is_graph_view (hp : hyperparameters)
  (x : matrix) (edge_index hyperedge_index : index_tensor) :
  (forall (model : H_GCL) (rng : draws),
     snd (forward hp model rng x edge_index hyperedge_index) =
       project (encoder_x model)
         (graph_path (encoder_x model) (x_bar hp rng x)
            (edge_index_bar hp rng edge_index)) /\
     (forall (model' : H_GCL) (rng' : draws) (hyperedge_index' : index_tensor),
        encoder_x model' = encoder_x model ->
        rand_like rng' = rand_like rng ->
        dropout_edge rng' = dropout_edge rng ->
        snd (forward hp model' rng' x edge_index hyperedge_index') =
        snd (forward hp model rng x edge_index hyperedge_index)) /\
     (forall model' : H_GCL,
        encoder_x model' = encoder_x model ->
        denoiser model' = denoiser model ->
        loss_g hp model' rng x edge_index = loss_g hp model rng x edge_index) /\
     fst (forward hp model rng x edge_index hyperedge_index) =
       (GAMMA hp * contrastive_loss
                     (snd (forward hp model rng x edge_index hyperedge_index))
                     (h_y hp model rng x edge_index hyperedge_index)
                     (TEMPERATURE hp)
        + (1 - GAMMA hp) * loss_g hp model rng x edge_index)%R) /\
  (forall (model_at : nat -> H_GCL) (eval_draws : nat -> draws)
          (loss_item : nat -> pyfloat) (evaluate : matrix -> mask -> Q)
          (NUM_EPOCHS PATIENCE : nat) (s : state matrix),
     script_run hp x edge_index hyperedge_index model_at eval_draws loss_item
       evaluate NUM_EPOCHS PATIENCE = Py.ok s ->
     exists e, 1 <= e <= NUM_EPOCHS /\
       best_emb s =
       Some (project (encoder_x (model_at e))
               (graph_path (encoder_x (model_at e)) (x_bar hp (eval_draws e) x)
                  (edge_index_bar hp (eval_draws e) edge_index)))).
Proof.
  split.
  - intros model rng.
    destruct (forward_embedding_graph_view hp model rng x edge_index
                hyperedge_index) as (_ & H1 & H2 & H3 & H4).
    repeat split; assumption.
  - intros model_at eval_draws loss_item evaluate NUM_EPOCHS PATIENCE s H.
    apply train_best_emb in H as (e & He & Hb). exists e. split; [exact He|].
    rewrite Hb. reflexivity.
Qed.

End Script.

(* ===================================================================== *)
(** ** Data set assembly (hgcl.py, lines 188-230) *)
(* ===================================================================== *)

Module Data.
Import Py.
Local Open Scope py_scope.

(** *** Restoring the order of the test rows (lines 202-207) *)

(** [np.sort] *)
Fixpoint insert_sorted (a : nat) (l : list nat) : list nat :=
  match l with
  | [] => [a]
  | b :: l' => if a <=? b then a :: b :: l' else b :: insert_sorted a l'
  end.

Definition np_sort (l : list nat) : list nat := fold_right insert_sorted [] l.

(** [x[idx]] with a list of row numbers: a copy of the rows named, an
    [IndexError] for a row number beyond the matrix. Row numbers are the
    node ids of the index file, natural numbers. *)
Definition take_rows {A} (x : list A) (idx : list nat) : result (list A) :=
  mapM (Knn.index x) idx.

(** Writing one row. *)
Fixpoint set_row {A} (i : nat) (a : A) (x : list A) : list A :=
  match x, i with
  | [], _ => []
  | _ :: rest, O => a :: rest
  | b :: rest, S i' => b :: set_row i' a rest
  end.

(** [x[idx] = rows]: the rows are written one after the other, so the last
    write to a row number wins. *)
Fixpoint assign_rows {A} (x : list A) (idx : list nat) (rows : list A)
  : result (list A) :=
  match idx, rows with
  | i :: idx', a :: rows' =>
      if i <? length x then assign_rows (set_row i a x) idx' rows'
      else raise IndexError_out_of_range
  | _, _ => ok x
  end.

(** [idx = np.sort(test_idx); x[test_idx] = x[idx]]. [np.sort] turns the
    Python list into an array first; the array of an empty list is an array
    of floats, and indexing with it raises [IndexError]. *)
Definition fix_order {A} (x : list A) (test_idx : list nat) : result (list A) :=
  match test_idx with
  | [] => raise IndexError_not_integer
  | _ :: _ =>
      let idx := np_sort test_idx in
      rows <- take_rows x idx ;;
      assign_rows x test_idx rows
  end.

(** *** The edge list (lines 210-215) *)

(** [graph.items()] is the list of the nodes with their neighbour lists;
    [row] and [col] grow node by node. *)
Fixpoint extend_edges (items : list (nat * list nat))
  (acc : list nat * list nat) : list nat * list nat :=
  match items with
  | [] => acc
  | (node, neighbors) :: rest =>
      extend_edges rest
        (fst acc ++ repeat node (length neighbors), snd acc ++ neighbors)
  end.

Definition build_edge_index (items : list (nat * list nat))
  : list nat * list nat :=
  extend_edges items ([], []).

(** *** The split masks (lines 218-224) *)

(** [torch.zeros(n, dtype=torch.bool)] *)
Definition zeros (n : nat) : list bool := repeat false n.

(** [m[lo:hi] = True]; [hi = None] is the open slice [m[lo:]]. A slice is
    cut at the length of the tensor. *)
Fixpoint assign_slice_from (i : nat) (m : list bool) (lo : nat)
  (hi : option nat) : list bool :=
  match m with
  | [] => []
  | b :: rest =>
      (if (lo <=? i) && match hi with Some h => i <? h | None => true end
       then true else b)
      :: assign_slice_from (S i) rest lo hi
  end.

Definition assign_slice (m : list bool) (lo : nat) (hi : option nat)
  : list bool :=
  assign_slice_from 0 m lo hi.

Definition train_mask (num_nodes : nat) : list bool :=
  assign_slice (zeros num_nodes) 0 (Some 140).
Definition val_mask (num_nodes : nat) : list bool :=
  assign_slice (zeros num_nodes) 140 (Some 640).
Definition test_mask (num_nodes : nat) : list bool :=
  assign_slice (zeros num_nodes) 1708 None.

(** The number of nodes a mask selects. *)
Definition selected (m : list bool) : nat := length (filter (fun b => b) m).

(* --------------------------------------------------------------------- *)
(** *** Facts about rows and slices *)

Lemma length_set_row {A} (i : nat) (a : A) (x : list A) :
  length (set_row i a x) = length x.
Proof.
  revert i. induction x as [|b x IH]; intros [|i]; cbn; auto.
Qed.

Lemma nth_error_set_row_other {A} (i j : nat) (a : A) (x : list A) :
  j <> i -> nth_error (set_row i a x) j = nth_error x j.
Proof.
  revert i j. induction x as [|b x IH]; intros [|i] [|j] H; cbn;
    try reflexivity; try lia.
  apply IH. lia.
Qed.

Lemma nth_error_set_row_same {A} (i : nat) (a : A) (x : list A) :
  i < length x -> nth_error (set_row i a x) i = Some a.
Proof.
  revert i. induction x as [|b x IH]; intros [|i] H; cbn in *;
    try lia; try reflexivity.
  apply IH. lia.
Qed.

Lemma set_row_map {A B} (f : A -> B) (i : nat) (a : A) (x : list A) :
  set_row i (f a) (map f x) = map f (set_row i a x).
Proof.
  revert i. induction x as [|b x IH]; intros [|i]; cbn; try reflexivity.
  now rewrite IH.
Qed.

Lemma in_insert_sorted (a b : nat) (l : list nat) :
  In b (insert_sorted a l) <-> b = a \/ In b l.
Proof.
  induction l as [|c l IH]; cbn [insert_sorted In]; [intuition|].
  destruct (a <=? c); cbn [In]; [intuition|]. rewrite IH. intuition.
Qed.

Lemma in_np_sort (b : nat) (l : list nat) : In b (np_sort l) <-> In b l.
Proof.
  induction l as [|a l IH]; cbn [np_sort fold_right In]; [reflexivity|].
  fold (np_sort l). rewrite in_insert_sorted, IH. intuition.
Qed.

Lemma length_insert_sorted (a : nat) (l : list nat) :
  length (insert_sorted a l) = S (length l).
Proof.
  induction l as [|c l IH]; cbn; [reflexivity|].
  destruct (a <=? c); cbn; auto.
Qed.

Lemma length_np_sort (l : list nat) : length (np_sort l) = length l.
Proof.
  induction l as [|a l IH]; cbn; [reflexivity|].
  fold (np_sort l). now rewrite length_insert_sorted, IH.
Qed.

Lemma take_rows_ok {A} (x : list A) (idx : list nat) :
  Forall (fun i => i < length x) idx ->
  exists rows, take_rows x idx = ok rows /\ length rows = length idx.
Proof.
  intros H. destruct (Knn.mapM_all_ok (Knn.index x) idx) as [rows E].
  - intros i Hi. rewrite Forall_forall in H. specialize (H i Hi).
    unfold Knn.index. destruct (nth_error x i) eqn:E; [eauto|].
    apply nth_error_None in E. lia.
  - exists rows. split; [exact E|]. exact (Knn.mapM_length _ _ _ E).
Qed.

Lemma take_rows_inv {A} (x : list A) (idx : list nat) (rows : list A) :
  take_rows x idx = ok rows ->
  length rows = length idx /\ Forall (fun i => i < length x) idx /\
  forall i p, nth_error idx i = Some p -> nth_error rows i = nth_error x p.
Proof.
  intros E. split; [exact (Knn.mapM_length _ _ _ E)|]. split.
  - apply Forall_forall. intros p Hp.
    apply In_nth_error in Hp as [i Hi].
    destruct (Knn.mapM_nth_error _ _ _ _ _ E Hi) as (a & _ & Ha).
    unfold Knn.index in Ha. destruct (nth_error x p) eqn:Ex; [|discriminate].
    apply nth_error_Some. congruence.
  - intros i p Hi.
    destruct (Knn.mapM_nth_error _ _ _ _ _ E Hi) as (a & Hr & Ha).
    unfold Knn.index in Ha. destruct (nth_error x p); [|discriminate].
    injection Ha as ->. exact Hr.
Qed.

Lemma assign_rows_ok {A} (x : list A) (idx : list nat) (rows : list A) :
  Forall (fun i => i < length x) idx ->
  exists x', assign_rows x idx rows = ok x'.
Proof.
  revert x rows. induction idx as [|i idx IH]; intros x rows H; cbn [assign_rows].
  - now exists x.
  - destruct rows as [|a rows]; [now exists x|].
    inversion H as [|? ? Hi Hrest]; subst.
    apply Nat.ltb_lt in Hi as E. rewrite E. apply IH.
    now rewrite length_set_row.
Qed.

Lemma assign_rows_inv {A} (x : list A) (idx : list nat) (rows x' : list A) :
  assign_rows x idx rows = ok x' ->
  length x' = length x /\
  (forall j, ~ In j idx -> nth_error x' j = nth_error x j) /\
  (length idx <= length rows -> Forall (fun i => i < length x) idx).
Proof.
  revert x rows. induction idx as [|i idx IH]; intros x rows H; cbn [assign_rows] in H.
  - injection H as <-. repeat split; auto.
  - destruct rows as [|a rows].
    + injection H as <-. repeat split; auto. cbn. lia.
    + destruct (i <? length x) eqn:E; [|discriminate H].
      apply Nat.ltb_lt in E. apply IH in H as (Hlen & Hother & Hall).
      rewrite length_set_row in *. split; [exact Hlen|]. split.
      * intros j Hj. rewrite Hother by (intros Hin; apply Hj; now right).
        apply nth_error_set_row_other. intros ->. apply Hj. now left.
      * intros Hl. constructor; [exact E|]. apply Hall. cbn in Hl. lia.
Qed.

Lemma assign_rows_distinct {A} (x : list A) (idx : list nat) (rows x' : list A) :
  assign_rows x idx rows = ok x' -> NoDup idx ->
  forall i p a, nth_error idx i = Some p -> nth_error rows i = Some a ->
    nth_error x' p = Some a.
Proof.
  revert x rows. induction idx as [|q idx IH]; intros x rows H Hnd i p a Hi Ha.
  - destruct i; discriminate Hi.
  - destruct rows as [|b rows]; [destruct i; discriminate Ha|].
    cbn [assign_rows] in H. destruct (q <? length x) eqn:E; [|discriminate H].
    apply Nat.ltb_lt in E. apply NoDup_cons_iff in Hnd as [Hnot Hnd].
    destruct i as [|i]; cbn in Hi, Ha.
    + injection Hi as ->. injection Ha as ->.
      destruct (assign_rows_inv _ _ _ _ H) as (_ & Hother & _).
      rewrite Hother by exact Hnot. now apply nth_error_set_row_same.
    + exact (IH _ _ H Hnd i p a Hi Ha).
Qed.

Lemma take_rows_map {A B} (f : A -> B) (x : list A) (idx : list nat) :
  take_rows (map f x) idx = (rows <- take_rows x idx ;; ok (map f rows)).
Proof.
  unfold take_rows. rewrite Knn.mapM_then_map. apply Knn.mapM_ext.
  intros i _. unfold Knn.index. rewrite nth_error_map.
  now destruct (nth_error x i).
Qed.

Lemma assign_rows_map {A B} (f : A -> B) (x : list A) (idx : list nat)
  (rows : list A) :
  assign_rows (map f x) idx (map f rows) =
  (x' <- assign_rows x idx rows ;; ok (map f x')).
Proof.
  revert x rows. induction idx as [|i idx IH]; intros x rows;
    cbn [assign_rows map]; [reflexivity|].
  destruct rows as [|a rows]; cbn [assign_rows map]; [reflexivity|].
  rewrite length_map. destruct (i <? length x); [|reflexivity].
  rewrite set_row_map. apply IH.
Qed.

(** Reordering commutes with any row-wise change of the data. *)
Lemma fix_order_cons {A} (x : list A) (test_idx : list nat) :
  test_idx <> [] ->
  fix_order x test_idx =
  (rows <- take_rows x (np_sort test_idx) ;; assign_rows x test_idx rows).
Proof. destruct test_idx; [intros H; now elim H|reflexivity]. Qed.

Lemma fix_order_ok_nonempty {A} (x x' : list A) (test_idx : list nat) :
  fix_order x test_idx = ok x' -> test_idx <> [].
Proof. destruct test_idx; [discriminate|intros _; discriminate]. Qed.

Lemma fix_order_map {A B} (f : A -> B) (x : list A) (test_idx : list nat) :
  fix_order (map f x) test_idx =
  (x' <- fix_order x test_idx ;; ok (map f x')).
Proof.
  destruct test_idx as [|i0 rest]; [reflexivity|].
  rewrite !fix_order_cons by discriminate. rewrite take_rows_map.
  set (test_idx := i0 :: rest).
  destruct (take_rows x (np_sort test_idx)) as [e|rows]; cbn [bind ok];
    [reflexivity|].
  apply assign_rows_map.
Qed.

Lemma combine_fst_snd {A B} (z : list (A * B)) :
  combine (map fst z) (map snd z) = z.
Proof.
  induction z as [|[a b] z IH]; cbn; [reflexivity|]. now rewrite IH.
Qed.

Lemma map_fst_combine_eq {A B} (xs : list A) (ys : list B) :
  length xs = length ys -> map fst (combine xs ys) = xs.
Proof.
  revert ys. induction xs as [|a xs IH]; intros [|b ys] H; cbn in *;
    try reflexivity; try discriminate.
  rewrite IH; [reflexivity|lia].
Qed.

Lemma map_snd_combine_eq {A B} (xs : list A) (ys : list B) :
  length xs = length ys -> map snd (combine xs ys) = ys.
Proof.
  revert ys. induction xs as [|a xs IH]; intros [|b ys] H; cbn in *;
    try reflexivity; try discriminate.
  rewrite IH; [reflexivity|lia].
Qed.

Lemma take_rows_error {A} (x : list A) (idx : list nat) (e : exn) :
  take_rows x idx = raise e -> e = IndexError_out_of_range.
Proof.
  unfold take_rows. induction idx as [|i idx IH]; cbn [mapM]; [discriminate|].
  unfold Knn.index at 1. destruct (nth_error x i); cbn [bind ok raise].
  - destruct (mapM (Knn.index x) idx); cbn [bind ok]; [|discriminate].
    intros H. apply IH. exact H.
  - now intros [= <-].
Qed.

Lemma assign_rows_error {A} (x : list A) (idx : list nat) (rows : list A)
  (e : exn) :
  assign_rows x idx rows = raise e -> e = IndexError_out_of_range.
Proof.
  revert x rows. induction idx as [|i idx IH]; intros x rows;
    cbn [assign_rows]; [discriminate|].
  destruct rows as [|a rows]; [discriminate|].
  destruct (i <? length x); [apply IH|now intros [= <-]].
Qed.

Lemma np_sort_sorted (l : list nat) : Sorted lt l -> np_sort l = l.
Proof.
  induction 1 as [|a l Hs IH Hd]; [reflexivity|].
  cbn [np_sort fold_right]. fold (np_sort l). rewrite IH.
  destruct Hd as [|b l' Hab]; [reflexivity|]. cbn [insert_sorted].
  assert (E : (a <=? b) = true) by (apply Nat.leb_le; lia). now rewrite E.
Qed.

Lemma sorted_lt_nodup (l : list nat) : Sorted lt l -> NoDup l.
Proof.
  intros H.
  apply Sorted_StronglySorted in H; [|intros a b c; apply Nat.lt_trans].
  induction H as [|a l Hs IH Hall]; constructor; [|exact IH].
  intros Hin. rewrite Forall_forall in Hall. specialize (Hall a Hin). lia.
Qed.

Lemma fix_order_ok {A} (x : list A) (test_idx : list nat) :
  test_idx <> [] ->
  Forall (fun i => i < length x) test_idx ->
  exists x', fix_order x test_idx = ok x'.
Proof.
  intros Hne Hall. rewrite (fix_order_cons x test_idx Hne).
  destruct (take_rows_ok x (np_sort test_idx)) as (rows & -> & _).
  - apply Forall_forall. intros i Hi. rewrite Forall_forall in Hall.
    apply Hall. now apply in_np_sort.
  - cbn [bind ok]. now apply assign_rows_ok.
Qed.

Lemma fix_order_ok_inv {A} (x x' : list A) (test_idx : list nat) :
  fix_order x test_idx = ok x' -> Forall (fun i => i < length x) test_idx.
Proof.
  intros H. pose proof (fix_order_ok_nonempty _ _ _ H) as Hne.
  rewrite (fix_order_cons x test_idx Hne) in H.
  destruct (take_rows x (np_sort test_idx)) as [e|rows] eqn:E;
    [discriminate H|].
  apply take_rows_inv in E as (_ & Hall & _).
  apply Forall_forall. intros i Hi. rewrite Forall_forall in Hall.
  apply Hall. now apply in_np_sort.
Qed.

(* --------------------------------------------------------------------- *)
(** *** Properties of the reordering *)

(** The reordering succeeds exactly when at least one row number is listed
    and every listed row number is a row of the matrix. An empty list raises
    [IndexError] (its sorted array is no integer index), a number beyond the
    matrix raises [IndexError], and nothing is returned in either case. *)
Theorem fix_order_succeeds_iff {A} (x : list A) (test_idx : list nat) :
  ((exists x', fix_order x test_idx = ok x') <->
   test_idx <> [] /\ Forall (fun i => i < length x) test_idx) /\
  (test_idx = [] -> fix_order x test_idx = raise IndexError_not_integer) /\
  (test_idx <> [] -> ~ Forall (fun i => i < length x) test_idx ->
   fix_order x test_idx = raise IndexError_out_of_range).
Proof.
  assert (Hiff : (exists x', fix_order x test_idx = ok x') <->
                 test_idx <> [] /\ Forall (fun i => i < length x) test_idx).
  { split.
    - intros [x' H]. split; [exact (fix_order_ok_nonempty _ _ _ H)|].
      exact (fix_order_ok_inv _ _ _ H).
    - intros [Hne Hall]. now apply fix_order_ok. }
  split; [exact Hiff|]. split; [intros ->; reflexivity|]. intros Hne Hnot.
  destruct (fix_order x test_idx) as [e|x'] eqn:E.
  - rewrite (fix_order_cons x test_idx Hne) in E.
    destruct (take_rows x (np_sort test_idx)) as [e'|rows] eqn:Et.
    + cbn [bind] in E. injection E as <-.
      apply take_rows_error in Et. now subst.
    + cbn [bind ok] in E. apply assign_rows_error in E. now subst.
  - exfalso. apply Hnot. apply Hiff. now exists x'.
Qed.

(** What the reordering does: the matrix keeps its length, a row whose
    number is not listed keeps its content, and, when no number is listed
    twice, the row at the [i]-th listed number receives what stood at the
    [i]-th smallest listed number. *)
Theorem fix_order_rows {A} (x x' : list A) (test_idx : list nat) :
  fix_order x test_idx = ok x' ->
  length x' = length x /\
  (forall j, ~ In j test_idx -> nth_error x' j = nth_error x j) /\
  (NoDup test_idx ->
   forall i p q, nth_error test_idx i = Some p ->
     nth_error (np_sort test_idx) i = Some q ->
     nth_error x' p = nth_error x q).
Proof.
  intros H. rewrite (fix_order_cons x test_idx (fix_order_ok_nonempty _ _ _ H)) in H.
  destruct (take_rows x (np_sort test_idx)) as [e|rows] eqn:E;
    [discriminate H|].
  cbn [bind ok] in H.
  destruct (take_rows_inv _ _ _ E) as (Hlen & Hall & Hrows).
  destruct (assign_rows_inv _ _ _ _ H) as (Hl & Hother & _).
  split; [exact Hl|]. split; [exact Hother|].
  intros Hnd i p q Hp Hq.
  assert (Hq' : q < length x).
  { rewrite Forall_forall in Hall. apply Hall. eapply nth_error_In; eauto. }
  destruct (nth_error x q) as [a|] eqn:Ea;
    [|apply nth_error_None in Ea; lia].
  apply (assign_rows_distinct _ _ _ _ H Hnd i p a Hp).
  rewrite (Hrows i q Hq). exact Ea.
Qed.

(** Features and labels are reordered in step: reordering both with the
    same index list keeps every label with its feature row. *)
Theorem fix_order_keeps_pairs {A B} (xs xs' : list A) (ys ys' : list B)
  (test_idx : list nat) :
  length xs = length ys ->
  fix_order xs test_idx = ok xs' ->
  fix_order ys test_idx = ok ys' ->
  fix_order (combine xs ys) test_idx = ok (combine xs' ys').
Proof.
  intros Hlen Hx Hy.
  pose proof (fix_order_map fst (combine xs ys) test_idx) as Hf.
  pose proof (fix_order_map snd (combine xs ys) test_idx) as Hs.
  rewrite map_fst_combine_eq in Hf by exact Hlen.
  rewrite map_snd_combine_eq in Hs by exact Hlen.
  rewrite Hx in Hf. rewrite Hy in Hs.
  destruct (fix_order (combine xs ys) test_idx) as [e|z];
    [discriminate Hf|].
  cbn [bind ok] in Hf, Hs. injection Hf as ->. injection Hs as ->.
  now rewrite combine_fst_snd.
Qed.

(** On a non-empty index list that is already increasing and within the
    matrix the reordering changes nothing. *)
Theorem fix_order_sorted_identity {A} (x : list A) (test_idx : list nat) :
  test_idx <> [] ->
  Sorted lt test_idx ->
  Forall (fun i => i < length x) test_idx ->
  fix_order x test_idx = ok x.
Proof.
  intros Hne Hsorted Hall.
  destruct (fix_order_ok x test_idx Hne Hall) as [x' Hx'].
  rewrite Hx'. f_equal.
  rewrite (fix_order_cons x test_idx Hne) in Hx'.
  rewrite np_sort_sorted in Hx' by exact Hsorted.
  destruct (take_rows x test_idx) as [e|rows] eqn:E; [discriminate Hx'|].
  cbn [bind ok] in Hx'.
  destruct (take_rows_inv _ _ _ E) as (Hlen & _ & Hrows).
  destruct (assign_rows_inv _ _ _ _ Hx') as (Hl & Hother & _).
  apply nth_error_ext. intros j.
  destruct (in_dec Nat.eq_dec j test_idx) as [Hin|Hnot];
    [|now apply Hother].
  apply In_nth_error in Hin as [i Hi].
  assert (Hj : j < length x).
  { rewrite Forall_forall in Hall. apply Hall. eapply nth_error_In; eauto. }
  destruct (nth_error x j) as [a|] eqn:Ea;
    [|apply nth_error_None in Ea; lia].
  apply (assign_rows_distinct _ _ _ _ Hx' (sorted_lt_nodup _ Hsorted) i j a Hi).
  rewrite (Hrows i j Hi). exact Ea.
Qed.

Lemma fix_order_rows_witness :
  length [10; 11; 12; 14; 15; 13] = length [10; 11; 12; 13; 14; 15] /\
  (forall j, ~ In j [5; 3; 4] ->
     nth_error [10; 11; 12; 14; 15; 13] j =
     nth_error [10; 11; 12; 13; 14; 15] j) /\
  (NoDup [5; 3; 4] ->
   forall i p q, nth_error [5; 3; 4] i = Some p ->
     nth_error (np_sort [5; 3; 4]) i = Some q ->
     nth_error [10; 11; 12; 14; 15; 13] p =
     nth_error [10; 11; 12; 13; 14; 15] q).
Proof.
  apply (fix_order_rows [10; 11; 12; 13; 14; 15] [10; 11; 12; 14; 15; 13]
           [5; 3; 4]).
  vm_compute. reflexivity.
Defined.

Lemma fix_order_keeps_pairs_witness :
  fix_order (combine [10; 11; 12; 13] [true; false; false; true]) [3; 1] =
  ok (combine [10; 13; 12; 11] [true; true; false; false]).
Proof.
  apply (fix_order_keeps_pairs [10; 11; 12; 13] [10; 13; 12; 11]
           [true; false; false; true] [true; true; false; false] [3; 1]).
  - reflexivity.
  - vm_compute. reflexivity.
  - vm_compute. reflexivity.
Defined.

Lemma fix_order_sorted_identity_witness :
  fix_order [10; 11; 12; 13] [1; 3] = ok [10; 11; 12; 13].
Proof.
  apply (fix_order_sorted_identity [10; 11; 12; 13] [1; 3]).
  - discriminate.
  - repeat constructor.
  - repeat constructor.
Defined.

(* --------------------------------------------------------------------- *)
(** *** Properties of the edge list *)

Lemma extend_edges_spec (items : list (nat * list nat))
  (acc : list nat * list nat) :
  extend_edges items acc =
  (fst acc ++ flat_map (fun p => repeat (fst p) (length (snd p))) items,
   snd acc ++ flat_map snd items).
Proof.
  revert acc. induction items as [|[node nbs] items IH]; intros [r c];
    cbn [extend_edges flat_map fst snd].
  - now rewrite !app_nil_r.
  - rewrite IH. cbn [fst snd]. now rewrite <- !app_assoc.
Qed.

Lemma combine_edges (items : list (nat * list nat)) :
  combine (flat_map (fun p => repeat (fst p) (length (snd p))) items)
          (flat_map snd items) =
  flat_map (fun p => map (pair (fst p)) (snd p)) items.
Proof.
  induction items as [|[node nbs] items IH]; cbn [flat_map fst snd];
    [reflexivity|].
  rewrite <- IH. induction nbs as [|v nbs IHn]; cbn; [reflexivity|].
  now rewrite IHn.
Qed.

(** The two rows of [edge_index] have the same length, and its columns are
    exactly the pairs (node, neighbour) of the adjacency lists, in their
    order: nothing is added, dropped or mirrored. *)
Theorem build_edge_index_pairs (items : list (nat * list nat)) :
  let t := build_edge_index items in
  length (fst t) = length (snd t) /\
  combine (fst t) (snd t) =
    flat_map (fun p => map (pair (fst p)) (snd p)) items /\
  (forall u v, In (u, v) (combine (fst t) (snd t)) <->
     exists neighbors, In (u, neighbors) items /\ In v neighbors).
Proof.
  unfold build_edge_index. rewrite extend_edges_spec. cbn [fst snd app].
  split; [|split].
  - induction items as [|[node nbs] items IH]; cbn [flat_map fst snd];
      [reflexivity|].
    now rewrite !length_app, repeat_length, IH.
  - apply combine_edges.
  - intros u v. rewrite combine_edges, in_flat_map. split.
    + intros ([node nbs] & Hin & Hp). cbn [fst snd] in Hp.
      apply in_map_iff in Hp as (w & [= <- <-] & Hw). now exists nbs.
    + intros (nbs & Hin & Hv). exists (u, nbs). split; [exact Hin|].
      cbn [fst snd]. now apply in_map.
Qed.

(* --------------------------------------------------------------------- *)
(** *** Properties of the split masks *)

Definition in_slice (lo : nat) (hi : option nat) (i : nat) : bool :=
  (lo <=? i) && match hi with Some h => i <? h | None => true end.

Lemma nth_assign_slice_from (s : nat) (m : list bool) (lo : nat)
  (hi : option nat) (i : nat) :
  nth i (assign_slice_from s m lo hi) false =
  if i <? length m then
    if in_slice lo hi (s + i) then true else nth i m false
  else false.
Proof.
  revert s i. induction m as [|b m IH]; intros s i.
  - now destruct i.
  - destruct i as [|i]; cbn [assign_slice_from nth length].
    + rewrite Nat.add_0_r. reflexivity.
    + rewrite IH. replace (S s + i) with (s + S i) by lia. reflexivity.
Qed.

Lemma length_assign_slice_from (s : nat) (m : list bool) (lo : nat)
  (hi : option nat) :
  length (assign_slice_from s m lo hi) = length m.
Proof.
  revert s. induction m as [|b m IH]; intros s; cbn; [reflexivity|].
  now rewrite IH.
Qed.

Lemma nth_mask (n lo : nat) (hi : option nat) (i : nat) :
  nth i (assign_slice (zeros n) lo hi) false = true <->
  i < n /\ in_slice lo hi i = true.
Proof.
  unfold assign_slice, zeros. rewrite nth_assign_slice_from, repeat_length.
  cbn [Nat.add]. destruct (Nat.ltb_spec i n) as [Hlt|Hge].
  - destruct (in_slice lo hi i).
    + intuition.
    + rewrite nth_repeat_lt by exact Hlt. intuition discriminate.
  - split; [discriminate|]. intros [H _]. lia.
Qed.

Lemma selected_assign_slice_from (s len lo : nat) (hi : option nat) :
  selected (assign_slice_from s (repeat false len) lo hi) =
  match hi with
  | Some h => Nat.min h (s + len) - Nat.max lo s
  | None => s + len - Nat.max lo s
  end.
Proof.
  unfold selected. revert s. induction len as [|len IH]; intros s.
  - cbn. destruct hi; lia.
  - cbn [repeat assign_slice_from filter]. specialize (IH (S s)).
    destruct hi as [h|].
    + destruct (Nat.leb_spec lo s); destruct (Nat.ltb_spec s h);
        cbn [andb length]; rewrite IH; lia.
    + destruct (Nat.leb_spec lo s); cbn [andb length]; rewrite IH; lia.
Qed.

(** The three split masks have one entry per node and never overlap,
    whatever the number of nodes: training is nodes 0-139, validation nodes
    140-639, test the nodes from 1708 on, each cut at the number of nodes.
    Nodes 640-1707 are in no mask. *)
Theorem split_masks_disjoint (num_nodes i : nat) :
  length (train_mask num_nodes) = num_nodes /\
  length (val_mask num_nodes) = num_nodes /\
  length (test_mask num_nodes) = num_nodes /\
  (nth i (train_mask num_nodes) false = true <-> i < num_nodes /\ i < 140) /\
  (nth i (val_mask num_nodes) false = true <->
     i < num_nodes /\ 140 <= i < 640) /\
  (nth i (test_mask num_nodes) false = true <-> i < num_nodes /\ 1708 <= i) /\
  ~ (nth i (train_mask num_nodes) false = true /\
     nth i (val_mask num_nodes) false = true) /\
  ~ (nth i (train_mask num_nodes) false = true /\
     nth i (test_mask num_nodes) false = true) /\
  ~ (nth i (val_mask num_nodes) false = true /\
     nth i (test_mask num_nodes) false = true).
Proof.
  unfold train_mask, val_mask, test_mask.
  assert (Htr : nth i (assign_slice (zeros num_nodes) 0 (Some 140)) false = true
                <-> i < num_nodes /\ i < 140).
  { rewrite nth_mask. unfold in_slice. rewrite andb_true_iff, Nat.leb_le,
      Nat.ltb_lt. intuition lia. }
  assert (Hva : nth i (assign_slice (zeros num_nodes) 140 (Some 640)) false = true
                <-> i < num_nodes /\ 140 <= i < 640).
  { rewrite nth_mask. unfold in_slice. rewrite andb_true_iff, Nat.leb_le,
      Nat.ltb_lt. intuition lia. }
  assert (Hte : nth i (assign_slice (zeros num_nodes) 1708 None) false = true
                <-> i < num_nodes /\ 1708 <= i).
  { rewrite nth_mask. unfold in_slice. rewrite andb_true_iff, Nat.leb_le.
    intuition lia. }
  unfold assign_slice, zeros.
  rewrite !length_assign_slice_from, !repeat_length.
  unfold assign_slice, zeros in Htr, Hva, Hte.
  repeat split; try tauto; try (rewrite Htr, Hva; lia);
    try (rewrite Htr, Hte; lia); try (rewrite Hva, Hte; lia).
Qed.

(** The sizes of the splits for every number of nodes; for the 2708 nodes
    of the data set they are 140, 500 and 1000. *)
Theorem split_mask_sizes (num_nodes : nat) :
  selected (train_mask num_nodes) = Nat.min 140 num_nodes /\
  selected (val_mask num_nodes) = Nat.min 640 num_nodes - 140 /\
  selected (test_mask num_nodes) = num_nodes - 1708 /\
  (num_nodes = 2708 ->
   selected (train_mask num_nodes) = 140 /\
   selected (val_mask num_nodes) = 500 /\
   selected (test_mask num_nodes) = 1000).
Proof.
  unfold train_mask, val_mask, test_mask, assign_slice, zeros.
  rewrite !selected_assign_slice_from. cbn [Nat.add].
  repeat split; lia.
Qed.

End Data.

(* ===================================================================== *)
(** ** Linear probe (hgcl.py, lines 233-240) *)
(* ===================================================================== *)

Module Probe.

(** [a[mask]] with a boolean mask as long as [a]: the entries where the
    mask is true. *)
Definition select {A} (a : list A) (m : list bool) : list A :=
  map fst (filter snd (combine a m)).

(** [accuracy_score(y_true, y_pred)]: the share of positions where the two
    agree. With no sample at all [clf.predict] raises before the score is
    taken: see [ProbeRaises]. *)
Definition correct (y_true y_pred : list nat) : nat :=
  length (filter (fun p => fst p =? snd p) (combine y_true y_pred)).

Definition accuracy_score (y_true y_pred : list nat) : Q :=
  (inject_Z (Z.of_nat (correct y_true y_pred))
   / inject_Z (Z.of_nat (length y_true)))%Q.

Section Evaluate.
(** One row of the embedding, and the classifier: [clf.fit(X, y)] yields
    the function that [clf.predict] applies to each row. *)
Variable row : Type.
Variable fit : list row -> list nat -> row -> nat.

(** [evaluate(emb, data, mask)], with [data.y] and [data.train_mask]. *)
Definition evaluate (emb : list row) (y : list nat)
  (train_mask mask : list bool) : Q :=
  let clf := fit (select emb train_mask) (select y train_mask) in
  let pred := map clf (select emb mask) in
  accuracy_score (select y mask) pred.

End Evaluate.

(* --------------------------------------------------------------------- *)
(** *** Facts about selection *)

Lemma select_agree {A} (a a' : list A) (m : list bool) :
  length a = length a' ->
  (forall i, nth i m false = true -> nth_error a i = nth_error a' i) ->
  select a m = select a' m.
Proof.
  unfold select. revert a' m.
  induction a as [|x a IH]; intros [|x' a'] [|b m] Hlen H; cbn in Hlen;
    try discriminate; try reflexivity.
  cbn [combine filter snd]. destruct b.
  - cbn [map fst]. specialize (H 0 eq_refl) as H0. cbn in H0.
    injection H0 as ->. f_equal. apply IH; [lia|].
    intros i Hi. exact (H (S i) Hi).
  - apply IH; [lia|]. intros i Hi. exact (H (S i) Hi).
Qed.

Lemma correct_le (y_true y_pred : list nat) :
  correct y_true y_pred <= length y_true.
Proof.
  unfold correct.
  etransitivity; [apply filter_length_le|].
  rewrite length_combine. lia.
Qed.

(* --------------------------------------------------------------------- *)
(** *** Properties of the probe *)

Lemma evaluate_range (row : Type) (fit : list row -> list nat -> row -> nat)
  (emb : list row) (y : list nat) (train_mask mask : list bool) :
  select y mask <> [] ->
  (0 <= evaluate row fit emb y train_mask mask <= 1)%Q.
Proof.
  intros Hne. unfold evaluate, accuracy_score.
  set (yt := select y mask) in *.
  set (yp := map _ (select emb mask)).
  pose proof (correct_le yt yp) as Hle.
  assert (Hpos : (0 < inject_Z (Z.of_nat (length yt)))%Q).
  { change 0%Q with (inject_Z 0). rewrite <- Zlt_Qlt.
    destruct yt; [congruence|cbn; lia]. }
  split.
  - apply Qle_shift_div_l; [exact Hpos|]. rewrite Qmult_0_l.
    change 0%Q with (inject_Z 0). rewrite <- Zle_Qle. lia.
  - apply Qle_shift_div_r; [exact Hpos|]. rewrite Qmult_1_l.
    rewrite <- Zle_Qle. lia.
Qed.

(** When the mask selects at least one labelled node, the accuracy returned
    by [evaluate] lies between 0 and 1. *)
Theorem evaluate_bounds (row : Type) (fit : list row -> list nat -> row -> nat)
  (emb : list row) (y : list nat) (train_mask mask : list bool) :
  select y mask <> [] ->
  (0 <= evaluate row fit emb y train_mask mask <= 1)%Q.
Proof.
  intros Hne. exact (evaluate_range row fit emb y train_mask mask Hne).
Qed.

(** A small data set: the embedding of a node is one number, and the
    classifier returns it as the label. *)
Definition toy_emb : list nat := [0; 1; 2; 1].
Definition toy_y : list nat := [0; 1; 1; 1].
Definition toy_fit (X : list nat) (y : list nat) (r : nat) : nat := r.

Lemma evaluate_bounds_witness :
  (0 <= evaluate nat toy_fit toy_emb toy_y
          [true; false; false; false] [false; true; true; true] <= 1)%Q.
Proof.
  apply (evaluate_bounds nat toy_fit toy_emb toy_y
           [true; false; false; false] [false; true; true; true]).
  cbn. discriminate.
Defined.

(** The probe reads only the rows and labels that the training mask or the
    scored mask selects: two data sets that agree there get the same
    accuracy, whatever they hold elsewhere. *)
Theorem evaluate_reads_selected_rows
  (row : Type) (fit : list row -> list nat -> row -> nat)
  (emb emb' : list row) (y y' : list nat) (train_mask mask : list bool) :
  length emb = length emb' -> length y = length y' ->
  (forall i, nth i train_mask false = true \/ nth i mask false = true ->
     nth_error emb i = nth_error emb' i /\ nth_error y i = nth_error y' i) ->
  evaluate row fit emb y train_mask mask =
  evaluate row fit emb' y' train_mask mask.
Proof.
  intros Hle Hly H. unfold evaluate.
  rewrite (select_agree emb emb' train_mask Hle) by (intros i Hi; apply H; auto).
  rewrite (select_agree emb emb' mask Hle) by (intros i Hi; apply H; auto).
  rewrite (select_agree y y' train_mask Hly) by (intros i Hi; apply H; auto).
  rewrite (select_agree y y' mask Hly) by (intros i Hi; apply H; auto).
  reflexivity.
Qed.

Lemma evaluate_reads_selected_rows_witness :
  evaluate nat (fun _ _ r => r) [0; 1; 2; 1] [0; 1; 1; 1]
    [true; false; false; false] [false; true; false; true] =
  evaluate nat (fun _ _ r => r) [0; 1; 7; 1] [0; 1; 9; 1]
    [true; false; false; false] [false; true; false; true].
Proof.
  apply (evaluate_reads_selected_rows nat (fun _ _ r => r)
           [0; 1; 2; 1] [0; 1; 7; 1] [0; 1; 1; 1] [0; 1; 9; 1]
           [true; false; false; false] [false; true; false; true]).
  - reflexivity.
  - reflexivity.
  - intros i Hi.
    destruct i as [|[|[|[|i]]]]; cbn in Hi |- *;
      try (split; reflexivity);
      try (destruct Hi; discriminate);
      destruct i; destruct Hi; discriminate.
Defined.

(** With the script's split masks, the validation accuracy does not depend
    on the embeddings or labels of the test nodes: test data cannot leak
    into model selection through the probe. *)
Theorem validation_ignores_test_nodes
  (row : Type) (fit : list row -> list nat -> row -> nat)
  (emb emb' : list row) (y y' : list nat) (num_nodes : nat) :
  length emb = length emb' -> length y = length y' ->
  (forall i, nth i (Data.test_mask num_nodes) false = false ->
     nth_error emb i = nth_error emb' i /\ nth_error y i = nth_error y' i) ->
  evaluate row fit emb y (Data.train_mask num_nodes) (Data.val_mask num_nodes) =
  evaluate row fit emb' y' (Data.train_mask num_nodes) (Data.val_mask num_nodes).
Proof.
  intros Hle Hly H. unfold evaluate.
  assert (Hsel : forall i,
            nth i (Data.train_mask num_nodes) false = true \/
            nth i (Data.val_mask num_nodes) false = true ->
            nth i (Data.test_mask num_nodes) false = false).
  { intros i Hi.
    destruct (nth i (Data.test_mask num_nodes) false) eqn:Et; [|reflexivity].
    unfold Data.train_mask, Data.val_mask, Data.test_mask in *.
    apply Data.nth_mask in Et as [_ Et]. unfold Data.in_slice in Et.
    apply andb_true_iff in Et as [Et _]. apply Nat.leb_le in Et.
    destruct Hi as [Hi|Hi]; apply Data.nth_mask in Hi as [_ Hi];
      unfold Data.in_slice in Hi; apply andb_true_iff in Hi as [_ Hi];
      apply Nat.ltb_lt in Hi; lia. }
  rewrite (select_agree emb emb' _ Hle)
    by (intros i Hi; apply H, Hsel; auto).
  rewrite (select_agree emb emb' (Data.val_mask num_nodes) Hle)
    by (intros i Hi; apply H, Hsel; auto).
  rewrite (select_agree y y' (Data.train_mask num_nodes) Hly)
    by (intros i Hi; apply H, Hsel; auto).
  rewrite (select_agree y y' (Data.val_mask num_nodes) Hly)
    by (intros i Hi; apply H, Hsel; auto).
  reflexivity.
Qed.

(** 1709 nodes: the last one is the only test node, and the two data sets
    differ in its embedding only. *)
Definition many_labels : list nat := repeat 0 1709.
Definition many_emb (last : nat) : list nat := repeat 0 1708 ++ [last].

Lemma validation_ignores_test_nodes_witness :
  evaluate nat toy_fit (many_emb 5) many_labels
    (Data.train_mask 1709) (Data.val_mask 1709) =
  evaluate nat toy_fit (many_emb 7) many_labels
    (Data.train_mask 1709) (Data.val_mask 1709).
Proof.
  apply (validation_ignores_test_nodes nat toy_fit (many_emb 5) (many_emb 7)
           many_labels many_labels 1709).
  - unfold many_emb. now rewrite !length_app, !repeat_length.
  - reflexivity.
  - intros i Hi. split; [|reflexivity]. unfold many_emb.
    destruct (Nat.lt_ge_cases i 1708) as [Hlt|Hge].
    + now rewrite !nth_error_app1 by (rewrite repeat_length; exact Hlt).
    + destruct (Nat.eq_dec i 1708) as [->|Hne].
      * exfalso.
        assert (Ht : nth 1708 (Data.test_mask 1709) false = true).
        { apply Data.nth_mask. split; [lia|]. unfold Data.in_slice.
          rewrite andb_true_r. apply Nat.leb_le. lia. }
        rewrite Ht in Hi. discriminate Hi.
      * rewrite !(proj2 (nth_error_None _ _)); [reflexivity| |];
          rewrite length_app, repeat_length; cbn [length]; lia.
Defined.

End Probe.

(* ===================================================================== *)
(** ** The linear probe when scikit-learn raises (hgcl.py, lines 233-240) *)
(* ===================================================================== *)

(** [Probe] gives the accuracy of the calls of [evaluate] that return. Here
    the calls that raise are followed too: a boolean mask must be as long
    as the array it indexes, [clf.fit] is library code that may refuse its
    data (labels of one class only), and [clf.predict] refuses an empty
    selection. *)
Module ProbeRaises.
Import Py Probe.
Local Open Scope py_scope.

(** [a[mask]] with a boolean mask. *)
Definition mask_index {A} (a : list A) (m : list bool) : result (list A) :=
  if length a =? length m then ok (select a m)
  else raise IndexError_boolean_mismatch.

Section Evaluate.
Variable row : Type.
Variable fit : list row -> list nat -> result (row -> nat).

(** [clf.predict(X)]: one label per row, and [ValueError] for no row. *)
Definition predict (clf : row -> nat) (X : list row) : result (list nat) :=
  match X with
  | [] => raise ValueError_sklearn
  | _ :: _ => ok (map clf X)
  end.

(** [evaluate(emb, data, mask)], with [data.y] and [data.train_mask]. *)
Definition evaluate (emb : list row) (y : list nat)
  (train_mask mask : list bool) : result Q :=
  X_train <- mask_index emb train_mask ;;
  y_train <- mask_index y train_mask ;;
  clf <- fit X_train y_train ;;
  X <- mask_index emb mask ;;
  pred <- predict clf X ;;
  y_true <- mask_index y mask ;;
  ok (accuracy_score y_true pred).

End Evaluate.

(* --------------------------------------------------------------------- *)
(** *** Facts about the probe *)

Lemma select_none {A} (a : list A) (m : list bool) :
  (forall i, nth i m false = false) -> select a m = [].
Proof.
  unfold select. revert m. induction a as [|x a IH]; intros [|b m] H;
    try reflexivity.
  cbn [combine filter snd]. rewrite (H 0 : b = false).
  apply IH. intros i. exact (H (S i)).
Qed.

Lemma length_select {A B} (a : list A) (b : list B) (m : list bool) :
  length a = length b -> length (select a m) = length (select b m).
Proof.
  unfold select. revert b m.
  induction a as [|x a IH]; intros [|y b] [|c m] H; cbn in H;
    try discriminate; try reflexivity.
  cbn [combine filter snd]. destruct c; cbn [map length fst];
    [f_equal|]; apply IH; lia.
Qed.

Lemma mask_index_ok {A} (a l : list A) (m : list bool) :
  mask_index a m = ok l -> length a = length m /\ l = select a m.
Proof.
  unfold mask_index. destruct (Nat.eqb_spec (length a) (length m)) as [H|H];
    [|discriminate]. intros E. injection E as <-. now split.
Qed.

(** A call that returns has selected at least one node, and its result is
    the accuracy over the selected nodes, a number between 0 and 1. *)
Lemma evaluate_ok (row : Type)
  (fit : list row -> list nat -> result (row -> nat))
  (emb : list row) (y : list nat) (train_mask mask : list bool) (a : Q) :
  evaluate row fit emb y train_mask mask = ok a ->
  select emb mask <> [] /\ (0 <= a <= 1)%Q /\
  exists clf,
    fit (select emb train_mask) (select y train_mask) = ok clf /\
    a = Probe.evaluate row (fun _ _ => clf) emb y train_mask mask.
Proof.
  unfold evaluate. intros H.
  destruct (mask_index emb train_mask) as [e|X_train] eqn:E1;
    [discriminate H|].
  destruct (mask_index y train_mask) as [e|y_train] eqn:E2;
    [discriminate H|].
  cbn [bind ok] in H.
  destruct (fit X_train y_train) as [e|clf] eqn:E3; [discriminate H|].
  destruct (mask_index emb mask) as [e|X] eqn:E4; [discriminate H|].
  cbn [bind ok] in H.
  destruct (predict row clf X) as [e|pred] eqn:E5; [discriminate H|].
  destruct (mask_index y mask) as [e|y_true] eqn:E6; [discriminate H|].
  cbn [bind ok] in H. injection H as <-.
  apply mask_index_ok in E1 as [L1 ->]. apply mask_index_ok in E2 as [L2 ->].
  apply mask_index_ok in E4 as [L4 ->]. apply mask_index_ok in E6 as [L6 ->].
  assert (Hne : select emb mask <> []).
  { intros Hnil. rewrite Hnil in E5. discriminate E5. }
  assert (Hpred : pred = map clf (select emb mask)).
  { unfold predict in E5. destruct (select emb mask); [discriminate E5|].
    now injection E5 as <-. }
  assert (Hy : select y mask <> []).
  { intros Hnil. apply Hne. apply length_zero_iff_nil.
    rewrite (length_select emb y mask) by lia. now rewrite Hnil. }
  subst pred. split; [exact Hne|]. split.
  - exact (evaluate_range row (fun _ _ => clf) emb y train_mask mask Hy).
  - exists clf. split; [exact E3|reflexivity].
Qed.

(** A mask that selects no node makes the call raise. *)
Lemma evaluate_empty_mask (row : Type)
  (fit : list row -> list nat -> result (row -> nat))
  (emb : list row) (y : list nat) (train_mask mask : list bool) :
  (forall i, nth i mask false = false) ->
  exists err, evaluate row fit emb y train_mask mask = raise err.
Proof.
  intros H.
  destruct (evaluate row fit emb y train_mask mask) as [err|a] eqn:E;
    [now exists err|].
  apply evaluate_ok in E as [Hne _]. elim Hne. now apply select_none.
Qed.

(** A classifier that returns the row itself as the label. *)
Definition identity_fit (X : list nat) (y : list nat) : result (nat -> nat) :=
  ok (fun r => r).

End ProbeRaises.

(* ===================================================================== *)
(** ** The script with its probe and its masks *)
(* ===================================================================== *)

Module ScriptProbe.
Import Py Training.

(* --------------------------------------------------------------------- *)
(** *** The loop with the script's own probe and masks *)

(** [evaluate(emb, data, mask)] as the loop calls it (lines 283, 299, 304,
    321): the labels and the training mask come from [data], whose masks
    are those of [Data]. *)
Definition script_evaluate (row : Type)
  (fit : list row -> list nat -> result (row -> nat)) (y : list nat)
  (emb : list row) (m : mask) : result Q :=
  let n := length y in
  ProbeRaises.evaluate row fit emb y (Data.train_mask n)
    match m with
    | train_mask => Data.train_mask n
    | val_mask => Data.val_mask n
    | test_mask => Data.test_mask n
    end.

(** The run of the script on a data set with labels [y]. *)
Definition script_train (row : Type)
  (fit : list row -> list nat -> result (row -> nat)) (y : list nat)
  (model_epoch : nat -> pyfloat * list row) (NUM_EPOCHS PATIENCE : nat)
  : result (state (list row)) :=
  TrainingRaises.train (list row) (script_evaluate row fit y) model_epoch
    NUM_EPOCHS PATIENCE.

Lemma test_mask_empty (n i : nat) :
  n <= 1708 -> nth i (Data.test_mask n) false = false.
Proof.
  intros Hn. destruct (nth i (Data.test_mask n) false) eqn:E; [|reflexivity].
  apply Data.nth_mask in E as [Hi Hs]. unfold Data.in_slice in Hs.
  apply andb_prop in Hs as [Hs _]. apply Nat.leb_le in Hs. lia.
Qed.

(** The script needs test nodes, and does not use its fallback. With at
    most 1708 nodes the test mask [test_mask[1708:]] selects no node, every
    evaluation of the test mask raises, and so does every run. A run that
    returns and whose first loss is below [inf] ends with the state in
    which the loop was left, with [best_emb] set: the accuracy of the first
    epoch is not negative, so the first epoch takes an updating branch and
    the fallback after the loop (lines 319-321) is not used. *)
Theorem script_run_needs_test_nodes (row : Type)
  (fit : list row -> list nat -> result (row -> nat)) (y : list nat)
  (model_epoch : nat -> pyfloat * list row) (NUM_EPOCHS PATIENCE : nat) :
  (length y <= 1708 ->
     exists err,
       script_train row fit y model_epoch NUM_EPOCHS PATIENCE = raise err) /\
  (forall s,
     script_train row fit y model_epoch NUM_EPOCHS PATIENCE = ok s ->
     float_lt (fst (model_epoch 1)) PosInf = true ->
     1708 < length y /\ best_emb s <> None /\
     exists b,
       TrainingRaises.train_loop (list row) (script_evaluate row fit y)
         model_epoch PATIENCE (seq 1 NUM_EPOCHS)
         (initial_state (list row)) = ok (s, b)).
Proof.
  assert (Hsmall : length y <= 1708 ->
            exists err,
              script_train row fit y model_epoch NUM_EPOCHS PATIENCE =
              raise err).
  { intros Hy. unfold script_train.
    destruct (TrainingRaises.train _ _ _ _ _) as [err|s] eqn:E;
      [now exists err|].
    apply TrainingRaises.train_ok in E as (_ & _ & v & acc & Hacc).
    unfold script_evaluate in Hacc.
    destruct (ProbeRaises.evaluate_empty_mask row fit v y
                (Data.train_mask (length y)) (Data.test_mask (length y)))
      as [err Herr].
    - intros i. now apply test_mask_empty.
    - rewrite Herr in Hacc. discriminate Hacc. }
  split; [exact Hsmall|]. intros s Hs Hloss.
  split.
  { destruct (Nat.le_gt_cases (length y) 1708) as [Hy|Hy]; [|exact Hy].
    destruct (Hsmall Hy) as [err Herr]. rewrite Herr in Hs. discriminate Hs. }
  unfold script_train in Hs.
  destruct (TrainingRaises.train_ok _ _ _ _ _ _ Hs) as (HN & _).
  destruct (script_evaluate row fit y (snd (model_epoch 1)) val_mask)
    as [err|a] eqn:Ea.
  - rewrite (TrainingRaises.first_epoch_val_raise _ _ _ _ _ err HN Ea) in Hs.
    discriminate Hs.
  - pose proof Ea as Hrange. unfold script_evaluate in Hrange.
    apply ProbeRaises.evaluate_ok in Hrange as (_ & [Hpos _] & _).
    exact (proj2 (TrainingRaises.first_epoch_run _ _ _ _ _ a
                    HN Ea Hpos Hloss) s Hs).
Qed.

Lemma script_run_needs_test_nodes_witness :
  length (repeat 0 141) <= 1708 /\
  exists err,
    script_train nat ProbeRaises.identity_fit (repeat 0 141)
      (fun e => (Finite 1, repeat e 141)) 3 2 = raise err.
Proof.
  split; [rewrite repeat_length; lia|].
  apply (proj1 (script_run_needs_test_nodes nat ProbeRaises.identity_fit
                  (repeat 0 141) (fun e => (Finite 1, repeat e 141)) 3 2)).
  rewrite repeat_length. lia.
Defined.

End ScriptProbe.
